(** * AgentWatch review core: review queue and review engine

    A shallow embedding of
      - [packages/vscode-extension/src/review/reviewQueue.ts]
      - [packages/vscode-extension/src/review/reviewEngine.ts]
      - [packages/vscode-extension/src/review/workspaceTools.ts] (the
        dispatch of [executeToolCall], where the tools themselves are the
        host's, and [searchCode] on its own)
      - [packages/vscode-extension/src/instructions/instructionsLoader.ts]
        (the parsing and formatting of the instructions file)
    together with the properties the design document states about them and
    further properties read off the code.

    Conventions of the embedding.
      - JavaScript strings are [string]: sequences of code units below 256.
      - JavaScript numbers that the code only uses as integers (epoch
        milliseconds, intervals and delays in milliseconds, seconds) are
        [Z]; a finite number that is written to or read from JSON text is
        the decimal [String] prints for it, a [Js.Number], and
        [Js.NumberValue] adds the values that are not finite.
      - Module-level [let]/[const] state of a TypeScript module is a record
        that every exported function takes and returns.
      - An [await] on an external collaborator is a call to an oracle that is
        an argument of the function; a rejected promise is the [Throw] case
        of a result type. Where other code of the module can run while a
        function waits (the flush of the review queue), the suspended
        function is a value, its continuation takes the awaited result, and
        the host decides when it runs.
      - A timer handle is the time at which the host runs the callback; the
        host honours a delay up to [Js.TIMEOUT_MAX].
      - A callback slot ([onBatchReady] and friends) is a [bool] saying
        whether a function is registered; calling it is an event appended to
        the trace the function returns. *)

From Stdlib Require Import ZArith List Ascii String Lia Bool.
From stdpp Require Import base option list gmap strings.

Import ListNotations.
Set Warnings "-register-all".
#[local] Set Warnings "-notation-overridden".
Local Open Scope string_scope.
Local Open Scope list_scope.
Local Open Scope Z_scope.

(** ** JavaScript primitives used by both modules *)

Module Js.

(** [ToInt32]: wrap an integer into the signed 32-bit range. *)
Definition to_int32 (z : Z) : Z :=
  let m := z mod 4294967296 in
  if m <? 2147483648 then m else m - 4294967296.

(** [Math.imul(a, b)]. *)
Definition imul (a b : Z) : Z := to_int32 (to_int32 a * to_int32 b).

(** [a ^ b] on numbers: both sides go through [ToInt32]. *)
Definition xor32 (a b : Z) : Z := to_int32 (Z.lxor (to_int32 a) (to_int32 b)).

(** [h >>> 0]: reinterpret as unsigned 32-bit. *)
Definition ushr0 (h : Z) : Z := h mod 4294967296.

(** [s.charCodeAt(i)] for the characters of [s] in order. *)
Definition charCodes (s : string) : list Z :=
  map (fun c => Z.of_N (N_of_ascii c)) (list_ascii_of_string s).

(** One digit of [Number.prototype.toString(36)]. *)
Definition digit36 (d : Z) : ascii :=
  if d <? 10 then ascii_of_N (Z.to_N (48 + d)) else ascii_of_N (Z.to_N (87 + d)).

(** Digits of a positive number, most significant first; [fuel] bounds the
    number of digits. *)
Fixpoint digits36 (fuel : nat) (n : Z) (acc : string) : string :=
  match fuel with
  | O => acc
  | S fuel' =>
      if n <=? 0 then acc
      else digits36 fuel' (n / 36) (String (digit36 (n mod 36)) acc)
  end.

(** [n.toString(36)] for an unsigned 32-bit [n] (at most 7 digits). *)
Definition toString36 (n : Z) : string :=
  if n <=? 0 then "0" else digits36 7 n EmptyString.

(** [!s] for a string: only the empty string is falsy. *)
Definition falsy_string (s : string) : bool :=
  match s with EmptyString => true | _ => false end.

(** [s.slice(n)]. *)
Fixpoint dropChars (n : nat) (s : string) : string :=
  match n, s with
  | O, _ => s
  | S n', String _ r => dropChars n' r
  | S _, EmptyString => EmptyString
  end.

(** [s.startsWith(lit)]. *)
Fixpoint startsWith (lit s : string) : bool :=
  match lit with
  | EmptyString => true
  | String a lit' =>
      match s with
      | String b s' => Ascii.eqb a b && startsWith lit' s'
      | EmptyString => false
      end
  end.

(** A finite number, held as a decimal [mantissa / 10 ^ scale]: the one
    [String] prints for it. It is in normal form when the scale is 0 or the
    mantissa is no multiple of 10. Arithmetic on it is exact: the rounding
    of IEEE doubles is not part of the embedding. *)
Record Number : Type := mkNumber { mantissa : Z; scale : nat }.

Definition int (n : Z) : Number := mkNumber n 0.

(** [Math.round(x)]: the nearest integer, a half going up. *)
Definition round (x : Number) : Z :=
  (2 * mantissa x + 10 ^ Z.of_nat (scale x)) / (2 * 10 ^ Z.of_nat (scale x)).

(** A value of type number: a finite number, or one of [NaN], [Infinity]
    and [-Infinity]. *)
Inductive NumberValue : Type :=
  | Finite (x : Number)
  | NaN
  | Infinity (negative : bool).

(** The largest delay a host timer honours. *)
Definition TIMEOUT_MAX : Z := 2147483647.

(** When the callback of [setTimeout(callback, delay)] runs, counted from
    the call, for a [delay] that is not negative: a delay above
    [TIMEOUT_MAX] is replaced by 1. *)
Definition timeoutDelay (delay : Z) : Z :=
  if TIMEOUT_MAX <? delay then 1 else delay.

End Js.

(** ** reviewQueue.ts *)

Module ReviewQueue.

(** Outcome of [await getFileDiff(filePath)]: the promise rejects, or it
    resolves to a string or to [null]/[undefined]. *)
Inductive DiffResult : Type :=
  | DiffThrows
  | DiffValue (d : option string).

(** Callback invocations, in the order they happen. *)
Inductive Event : Type :=
  | EvCountdown (secondsRemaining : Z)
  | EvBatchReady (filePaths : list string)
  | EvBatchEmpty.

(** The module-level variables. A timer handle is the time at which the
    timer is due; the interval handle also carries the [remaining] variable
    its closure captured. *)
Record QueueState : Type := mkQueue {
  minIntervalMs : Z;
  pendingFiles : list string;
  lastReviewAt : Z;
  reviewedDiffHash : gmap string string;
  flushTimer : option Z;
  onBatchReady : bool;
  onCountdown : bool;
  onBatchEmpty : bool;
  countdownInterval : option (Z * Z)
}.

(** An invocation of [runFlush] that is suspended at
    [await getFileDiff(filePath)]: the local variables its continuation
    still uses. [awaited] is the [filePath] of the iteration that waits,
    [rest] the candidates the [for] loop has not reached yet. *)
Record Flush : Type := mkFlush {
  awaited : string;
  rest : list string;
  toReview : list string
}.

(** The state right after the module is loaded. *)
Definition initial : QueueState :=
  mkQueue 30000 [] 0 ∅ None false false false None.

(** [hashDiff]: djb2 variant over the code units, printed in base 36. *)
Definition hashStep (h c : Z) : Z := Js.xor32 (Js.imul h 31) c.

Definition hashDiff (s : string) : string :=
  Js.toString36 (Js.ushr0 (fold_left hashStep (Js.charCodes s) 5381)).

(** [Set.prototype.add]: insertion order, no effect on a member. *)
Definition set_add (f : string) (l : list string) : list string :=
  if bool_decide (f ∈ l) then l else l ++ [f].

Definition configure (cfg : option Z) (q : QueueState) : QueueState :=
  match cfg with
  | Some m =>
      mkQueue m (pendingFiles q) (lastReviewAt q) (reviewedDiffHash q)
        (flushTimer q) (onBatchReady q) (onCountdown q) (onBatchEmpty q)
        (countdownInterval q)
  | None => q
  end.

Definition setOnBatchReady (q : QueueState) : QueueState :=
  mkQueue (minIntervalMs q) (pendingFiles q) (lastReviewAt q)
    (reviewedDiffHash q) (flushTimer q) true (onCountdown q) (onBatchEmpty q)
    (countdownInterval q).

Definition setOnCountdown (q : QueueState) : QueueState :=
  mkQueue (minIntervalMs q) (pendingFiles q) (lastReviewAt q)
    (reviewedDiffHash q) (flushTimer q) (onBatchReady q) true (onBatchEmpty q)
    (countdownInterval q).

Definition setOnBatchEmpty (q : QueueState) : QueueState :=
  mkQueue (minIntervalMs q) (pendingFiles q) (lastReviewAt q)
    (reviewedDiffHash q) (flushTimer q) (onBatchReady q) (onCountdown q) true
    (countdownInterval q).

(** [stopCountdown]. *)
Definition stopCountdown (q : QueueState) : QueueState :=
  mkQueue (minIntervalMs q) (pendingFiles q) (lastReviewAt q)
    (reviewedDiffHash q) (flushTimer q) (onBatchReady q) (onCountdown q)
    (onBatchEmpty q) None.

(** [if (flushTimer !== undefined) { clearTimeout(flushTimer); flushTimer = undefined; }] *)
Definition clearFlushTimer (q : QueueState) : QueueState :=
  mkQueue (minIntervalMs q) (pendingFiles q) (lastReviewAt q)
    (reviewedDiffHash q) None (onBatchReady q) (onCountdown q)
    (onBatchEmpty q) (countdownInterval q).

Definition clearPending (q : QueueState) : QueueState :=
  mkQueue (minIntervalMs q) [] (lastReviewAt q)
    (reviewedDiffHash q) (flushTimer q) (onBatchReady q) (onCountdown q)
    (onBatchEmpty q) (countdownInterval q).

Definition cancelPending (q : QueueState) : QueueState :=
  clearFlushTimer (stopCountdown (clearPending q)).

Definition resetQueue (q : QueueState) : QueueState :=
  clearFlushTimer (stopCountdown (mkQueue 30000 [] 0 ∅ (flushTimer q)
    false false false (countdownInterval q))).

(** [Math.ceil(delay / 1000)] for an integer [delay]. *)
Definition ceilSeconds (delay : Z) : Z := (delay + 999) / 1000.

(** [Math.max(0, minIntervalMs - (Date.now() - lastReviewAt))]. *)
Definition computeDelay (now : Z) (q : QueueState) : Z :=
  Z.max 0 (minIntervalMs q - (now - lastReviewAt q)).

(** [scheduleFlush], run at time [now]. The handle of the timeout is the
    time at which the host runs its callback. *)
Definition scheduleFlush (now : Z) (q : QueueState) : QueueState * list Event :=
  match flushTimer q with
  | Some _ => (q, [])
  | None =>
      let delay := computeDelay now q in
      let '(interval, evs) :=
        if (0 <? delay) && onCountdown q then
          let remaining := ceilSeconds delay in
          (Some (now + 1000, remaining), [EvCountdown remaining])
        else (countdownInterval q, []) in
      (mkQueue (minIntervalMs q) (pendingFiles q) (lastReviewAt q)
         (reviewedDiffHash q) (Some (now + Js.timeoutDelay delay)) (onBatchReady q)
         (onCountdown q) (onBatchEmpty q) interval, evs)
  end.

Definition enqueueFile (now : Z) (filePath : string) (q : QueueState)
  : QueueState * list Event :=
  scheduleFlush now
    (mkQueue (minIntervalMs q) (set_add filePath (pendingFiles q))
       (lastReviewAt q) (reviewedDiffHash q) (flushTimer q) (onBatchReady q)
       (onCountdown q) (onBatchEmpty q) (countdownInterval q)).

(** The body of the [for (const filePath of candidates)] loop of [runFlush]
    from the point where [await getFileDiff(filePath)] has settled with
    [diff], on the pair of the fingerprint map and [toReview]. *)
Definition flushStep (diff : DiffResult) (filePath : string)
    (acc : gmap string string * list string) : gmap string string * list string :=
  let '(hashes, toReview) := acc in
  match diff with
  | DiffThrows => (hashes, toReview ++ [filePath])
  | DiffValue None => (hashes, toReview)
  | DiffValue (Some diff) =>
      if Js.falsy_string diff then (hashes, toReview)
      else
        let hash := hashDiff diff in
        if bool_decide (hashes !! filePath = Some hash) then (hashes, toReview)
        else (<[filePath := hash]> hashes, toReview ++ [filePath])
  end.

Definition setReviewedDiffHash (hashes : gmap string string) (q : QueueState)
  : QueueState :=
  mkQueue (minIntervalMs q) (pendingFiles q) (lastReviewAt q) hashes
    (flushTimer q) (onBatchReady q) (onCountdown q) (onBatchEmpty q)
    (countdownInterval q).

(** [runFlush], called at time [now], up to its first [await]: it returns
    at once when nothing is pending, and otherwise takes the pending files,
    records the time and asks for the diff of the first candidate. *)
Definition runFlush (now : Z) (q : QueueState) : QueueState * option Flush :=
  match pendingFiles q with
  | [] => (q, None)
  | filePath :: candidates =>
      (mkQueue (minIntervalMs q) [] now (reviewedDiffHash q) (flushTimer q)
         (onBatchReady q) (onCountdown q) (onBatchEmpty q)
         (countdownInterval q),
       Some (mkFlush filePath candidates []))
  end.

(** The end of [runFlush]: the batch goes to [onBatchReady], or
    [onBatchEmpty] is told that there is none. *)
Definition announce (toReview : list string) (q : QueueState) : list Event :=
  match toReview with
  | [] => if onBatchEmpty q then [EvBatchEmpty] else []
  | _ => if onBatchReady q then [EvBatchReady toReview] else []
  end.

(** The continuation of a suspended [runFlush] when the diff it waits for
    has settled with [diff]: the rest of that iteration on the module state
    as it is now, then the next [await], or the end of the function. *)
Definition resumeFlush (diff : DiffResult) (fl : Flush) (q : QueueState)
  : QueueState * option Flush * list Event :=
  let '(hashes, toReview) :=
    flushStep diff (awaited fl) (reviewedDiffHash q, toReview fl) in
  let q' := setReviewedDiffHash hashes q in
  match rest fl with
  | filePath :: candidates => (q', Some (mkFlush filePath candidates toReview), [])
  | [] => (q', None, announce toReview q')
  end.

(** *** Timers, pending diffs and the event loop

    The host runs one callback at a time. The clock is in milliseconds; a
    timer fires when the clock reaches its due time, the interval before the
    timeout when both are due at the same instant (it was created first).
    A flush that waits for a diff is in flight; its continuation runs when
    the host delivers the diff, and anything else can happen before that. *)

Record World : Type := mkWorld {
  clock : Z;
  queue : QueueState;
  inFlight : list Flush
}.

Definition Trace : Type := list (Z * Event).

Definition stamp (t : Z) (evs : list Event) : Trace := map (pair t) evs.

(** The callback given to [setInterval] in [scheduleFlush]. *)
Definition countdownTick (q : QueueState) : QueueState * list Event :=
  match countdownInterval q with
  | None => (q, [])
  | Some (due, remaining) =>
      let remaining := remaining - 1 in
      if 0 <? remaining then
        (mkQueue (minIntervalMs q) (pendingFiles q) (lastReviewAt q)
           (reviewedDiffHash q) (flushTimer q) (onBatchReady q)
           (onCountdown q) (onBatchEmpty q) (Some (due + 1000, remaining)),
         if onCountdown q then [EvCountdown remaining] else [])
      else (stopCountdown q, [])
  end.

(** The callback given to [setTimeout] in [scheduleFlush]: [void
    runFlush()] runs the flush up to its first [await]. *)
Definition flushTimerFired (now : Z) (q : QueueState)
  : QueueState * option Flush :=
  runFlush now (stopCountdown (clearFlushTimer q)).

Inductive Timer : Type := TimerInterval | TimerFlush.

(** The timer that fires next, if one is due by [target]. *)
Definition nextTimer (target : Z) (q : QueueState) : option (Timer * Z) :=
  match countdownInterval q, flushTimer q with
  | Some (ti, _), Some tf =>
      if ti <=? tf then (if ti <=? target then Some (TimerInterval, ti) else None)
      else (if tf <=? target then Some (TimerFlush, tf) else None)
  | Some (ti, _), None => if ti <=? target then Some (TimerInterval, ti) else None
  | None, Some tf => if tf <=? target then Some (TimerFlush, tf) else None
  | None, None => None
  end.

(** Number of callbacks the live timers can still run: the timeout once, the
    interval until its [remaining] reaches zero. *)
Definition timerBudget (q : QueueState) : nat :=
  (match flushTimer q with Some _ => 1 | None => 0 end +
   match countdownInterval q with
   | Some (_, remaining) => Z.to_nat (Z.max 1 remaining)
   | None => 0
   end)%nat.

Fixpoint runTimers (fuel : nat) (target : Z) (w : World) : World * Trace :=
  match fuel with
  | O => (w, [])
  | S fuel' =>
      match nextTimer target (queue w) with
      | None => (w, [])
      | Some (TimerInterval, t) =>
          let '(q, evs) := countdownTick (queue w) in
          let '(w', tr) := runTimers fuel' target (mkWorld t q (inFlight w)) in
          (w', stamp t evs ++ tr)
      | Some (TimerFlush, t) =>
          let '(q, started) := flushTimerFired t (queue w) in
          runTimers fuel' target
            (mkWorld t q (inFlight w ++ option_list started))
      end
  end.

(** Let [dt] milliseconds pass: the timers that are due run, in order. *)
Definition advance (dt : N) (w : World) : World * Trace :=
  let target := clock w + Z.of_N dt in
  let '(w', tr) := runTimers (timerBudget (queue w)) target w in
  (mkWorld target (queue w') (inFlight w'), tr).

(** The diff that the [i]-th flush in flight waits for settles with [diff],
    now: that flush runs on, to its next [await] or to its end. *)
Definition deliverDiff (i : nat) (diff : DiffResult) (w : World)
  : World * Trace :=
  match inFlight w !! i with
  | None => (w, [])
  | Some fl =>
      let '(q, next, evs) := resumeFlush diff fl (queue w) in
      (mkWorld (clock w) q
         match next with
         | Some fl' => <[i := fl']> (inFlight w)
         | None => delete i (inFlight w)
         end,
       stamp (clock w) evs)
  end.

(** What the host can do with the module, and what can happen to it. *)
Inductive Op : Type :=
  | OpConfigure (minIntervalMs : option Z)
  | OpSetOnBatchReady
  | OpSetOnCountdown
  | OpSetOnBatchEmpty
  | OpEnqueueFile (filePath : string)
  | OpCancelPending
  | OpResetQueue
  | OpAdvance (dt : N)
  | OpDiff (i : nat) (diff : DiffResult).

Definition step (w : World) (op : Op) : World * Trace :=
  match op with
  | OpConfigure cfg =>
      (mkWorld (clock w) (configure cfg (queue w)) (inFlight w), [])
  | OpSetOnBatchReady =>
      (mkWorld (clock w) (setOnBatchReady (queue w)) (inFlight w), [])
  | OpSetOnCountdown =>
      (mkWorld (clock w) (setOnCountdown (queue w)) (inFlight w), [])
  | OpSetOnBatchEmpty =>
      (mkWorld (clock w) (setOnBatchEmpty (queue w)) (inFlight w), [])
  | OpEnqueueFile f =>
      let '(q, evs) := enqueueFile (clock w) f (queue w) in
      (mkWorld (clock w) q (inFlight w), stamp (clock w) evs)
  | OpCancelPending =>
      (mkWorld (clock w) (cancelPending (queue w)) (inFlight w), [])
  | OpResetQueue =>
      (mkWorld (clock w) (resetQueue (queue w)) (inFlight w), [])
  | OpAdvance dt => advance dt w
  | OpDiff i diff => deliverDiff i diff w
  end.

Fixpoint run (ops : list Op) (w : World) : World * Trace :=
  match ops with
  | [] => (w, [])
  | op :: ops' =>
      let '(w1, tr1) := step w op in
      let '(w2, tr2) := run ops' w1 in
      (w2, tr1 ++ tr2)
  end.

(** The module right after it is loaded, at time [t0]. *)
Definition loaded (t0 : Z) : World := mkWorld t0 initial [].

(** A state the module can be in: some run from the freshly loaded module
    ends in it. *)
Definition reachable (w : World) : Prop :=
  ∃ t0 ops, (run ops (loaded t0)).1 = w.

End ReviewQueue.

(** ** JSON.stringify and JSON.parse

    The two built-ins [parseResponse] and its callers rely on, for the values
    the embedding has. A finite number is held as the decimal [String]
    prints for it, the shortest one that reads back as that number, and
    [JSON.stringify] writes it as [Number::toString] does, in positional or
    in scientific notation. [JSON.parse] reads a number literal as the
    decimal it writes, where JavaScript takes the nearest double: the two
    agree on the literals [JSON.stringify] writes. A [\uXXXX] escape must
    denote a code unit below 256. *)

Module Json.

Inductive JSON : Type :=
  | JNull
  | JBool (b : bool)
  | JNumber (x : Js.Number)
  | JString (s : string)
  | JArray (elements : list JSON)
  | JObject (members : list (string * JSON)).

Definition code (c : ascii) : N := N_of_ascii c.

Definition chr (n : N) : ascii := ascii_of_N n.

Definition dquote : ascii := chr 34.
Definition backslash : ascii := chr 92.

Definition str1 (c : ascii) : string := String c EmptyString.

(** What [JSON.stringify] serializes for a value of type number: a number
    that is not finite is written as [null]. *)
Definition ofNumber (n : Js.NumberValue) : JSON :=
  match n with
  | Js.Finite x => JNumber x
  | _ => JNull
  end.

(** *** Numbers *)

Definition digitChar (d : N) : ascii := chr (48 + d).

Definition isDigit (c : ascii) : bool := ((48 <=? code c) && (code c <=? 57))%N.

(** Decimal digits of [n], most significant first, in front of [acc]. *)
Fixpoint digitsOf (fuel : nat) (n : N) (acc : string) : string :=
  match fuel with
  | O => acc
  | S fuel' =>
      let acc' := String (digitChar (n mod 10)) acc in
      if (n <? 10)%N then acc' else digitsOf fuel' (n / 10) acc'
  end.

(** [String(n)] for a non-negative integer. *)
Definition natToString (n : N) : string :=
  digitsOf (S (N.to_nat (N.log2 n))) n EmptyString.

(** The last [k] decimal digits of [n], zero-padded, in front of [acc]. *)
Fixpoint padDigits (k : nat) (n : N) (acc : string) : string :=
  match k with
  | O => acc
  | S k' => padDigits k' (n / 10) (String (digitChar (n mod 10)) acc)
  end.

(** [n] without its trailing zeros, their number added to [zeros]. *)
Fixpoint stripTrailingZeros (fuel : nat) (n : N) (zeros : nat) : N * nat :=
  match fuel with
  | O => (n, zeros)
  | S fuel' =>
      if ((0 <? n) && (n mod 10 =? 0))%N
      then stripTrailingZeros fuel' (n / 10) (S zeros)
      else (n, zeros)
  end.

(** The digits [s] and the exponent [e] of a number in normal form: its
    magnitude is [s * 10 ^ e], and [s] is no multiple of 10 unless it is 0. *)
Definition significand (x : Js.Number) : N * Z :=
  let a := Z.to_N (Z.abs (Js.mantissa x)) in
  match Js.scale x with
  | O =>
      let '(s, zeros) := stripTrailingZeros (S (N.to_nat (N.log2 a))) a O in
      (s, Z.of_nat zeros)
  | S _ => (a, - Z.of_nat (Js.scale x))
  end.

(** Positional notation: the integer part, and the fraction if there is
    one. *)
Definition positional (x : Js.Number) : string :=
  let a := Z.to_N (Z.abs (Js.mantissa x)) in
  let p := (10 ^ N.of_nat (Js.scale x))%N in
  match Js.scale x with
  | O => natToString a
  | S _ =>
      natToString (a / p) +:+
      String "." (padDigits (Js.scale x) (a mod p) EmptyString)
  end.

(** Scientific notation: the digits of [s], with a point after the first
    when there are more, and the exponent [n - 1] with its sign. *)
Definition exponential (s : N) (n : Z) : string :=
  match natToString s with
  | String d more =>
      String d match more with
               | EmptyString => EmptyString
               | _ => String "." more
               end +:+
      String "e" (String (if n - 1 <? 0 then "-" else "+")
                    (natToString (Z.to_N (Z.abs (n - 1)))))
  | EmptyString => EmptyString
  end.

(** [String(x)], that is [Number::toString], for a number in normal form
    with the [k] digits [s] and the magnitude [s * 10 ^ (n - k)]:
    positional notation when [-6 < n <= 21], scientific notation
    otherwise. *)
Definition numberToString (x : Js.Number) : string :=
  let '(s, e) := significand x in
  let n := Z.of_nat (String.length (natToString s)) + e in
  let body :=
    if (-6 <? n) && (n <=? 21) then positional x else exponential s n in
  if Js.mantissa x <? 0 then String "-" body else body.

(** Read a maximal run of digits onto [acc], counting them. *)
Fixpoint readDigits (s : string) (acc : N) (count : nat) : N * nat * string :=
  match s with
  | String c r =>
      if isDigit c then readDigits r (10 * acc + (code c - 48))%N (S count)
      else (acc, count, s)
  | EmptyString => (acc, count, s)
  end.

(** The integer part of a literal: [0], or a non-zero digit and more
    digits. *)
Definition parseInt (s : string) : option (N * string) :=
  match s with
  | String c r =>
      if Ascii.eqb c "0" then
        match r with
        | String d _ => if isDigit d then None else Some (0%N, r)
        | EmptyString => Some (0%N, r)
        end
      else if isDigit c then
        let '(n, _, rest) := readDigits s 0 0 in Some (n, rest)
      else None
  | EmptyString => None
  end.

(** The optional fraction, its digits read onto the integer part [n]: the
    result is the mantissa and the number of fraction digits. *)
Definition parseFraction (n : N) (s : string) : option (N * nat * string) :=
  match s with
  | String c r =>
      if Ascii.eqb c "." then
        match readDigits r n 0 with
        | (_, O, _) => None
        | digits => Some digits
        end
      else Some (n, O, s)
  | EmptyString => Some (n, O, s)
  end.

(** The optional exponent. *)
Definition parseExponent (s : string) : option (Z * string) :=
  match s with
  | String c r =>
      if Ascii.eqb c "e" || Ascii.eqb c "E" then
        let '(negative, r') :=
          match r with
          | String d t =>
              if Ascii.eqb d "-" then (true, t)
              else if Ascii.eqb d "+" then (false, t)
              else (false, r)
          | EmptyString => (false, r)
          end in
        match readDigits r' 0 0 with
        | (_, O, _) => None
        | (e, _, rest) => Some (if negative then - Z.of_N e else Z.of_N e, rest)
        end
      else Some (0, s)
  | EmptyString => Some (0, s)
  end.

(** [m / 10 ^ k] in normal form. *)
Fixpoint stripZeros (k : nat) (m : Z) : Js.Number :=
  match k with
  | O => Js.mkNumber m 0
  | S k' => if m mod 10 =? 0 then stripZeros k' (m / 10) else Js.mkNumber m k
  end.

(** [m * 10 ^ e] in normal form. *)
Definition decimal (m e : Z) : Js.Number :=
  if 0 <=? e then Js.mkNumber (m * 10 ^ e) 0 else stripZeros (Z.to_nat (- e)) m.

Definition parseUnsigned (s : string) : option (N * Z * string) :=
  match parseInt s with
  | Some (n, r1) =>
      match parseFraction n r1 with
      | Some (m, digits, r2) =>
          match parseExponent r2 with
          | Some (e, rest) => Some (m, e - Z.of_nat digits, rest)
          | None => None
          end
      | None => None
      end
  | None => None
  end.

Definition parseNumber (s : string) : option (Js.Number * string) :=
  match s with
  | String c r =>
      if Ascii.eqb c "-" then
        match parseUnsigned r with
        | Some (m, e, rest) => Some (decimal (- Z.of_N m) e, rest)
        | None => None
        end
      else
        match parseUnsigned s with
        | Some (m, e, rest) => Some (decimal (Z.of_N m) e, rest)
        | None => None
        end
  | EmptyString => None
  end.

(** *** Strings *)

Definition hexDigit (d : N) : ascii :=
  if (d <? 10)%N then chr (48 + d) else chr (87 + d).

Definition hexValue (c : ascii) : option N :=
  let n := code c in
  if ((48 <=? n) && (n <=? 57))%N then Some (n - 48)%N
  else if ((97 <=? n) && (n <=? 102))%N then Some (n - 87)%N
  else if ((65 <=? n) && (n <=? 70))%N then Some (n - 55)%N
  else None.

(** [QuoteJSONString] for one code unit. *)
Definition quoteChar (c : ascii) : string :=
  let n := code c in
  if (n =? 8)%N then String backslash "b"
  else if (n =? 9)%N then String backslash "t"
  else if (n =? 10)%N then String backslash "n"
  else if (n =? 12)%N then String backslash "f"
  else if (n =? 13)%N then String backslash "r"
  else if (n =? 34)%N then String backslash (str1 dquote)
  else if (n =? 92)%N then String backslash (str1 backslash)
  else if (n <? 32)%N then
    String backslash
      (String "u" (String "0" (String "0"
         (String (hexDigit (n / 16)) (str1 (hexDigit (n mod 16)))))))
  else str1 c.

Fixpoint quoteBody (s : string) : string :=
  match s with
  | EmptyString => EmptyString
  | String c r => quoteChar c +:+ quoteBody r
  end.

Definition quoteString (s : string) : string :=
  String dquote (quoteBody s +:+ str1 dquote).

(** The character a single-letter escape stands for. *)
Definition unescape (e : ascii) : option ascii :=
  let n := code e in
  if (n =? 34)%N then Some dquote
  else if (n =? 92)%N then Some backslash
  else if (n =? 47)%N then Some "/"%char
  else if (n =? 98)%N then Some (chr 8)
  else if (n =? 102)%N then Some (chr 12)
  else if (n =? 110)%N then Some (chr 10)
  else if (n =? 114)%N then Some (chr 13)
  else if (n =? 116)%N then Some (chr 9)
  else None.

(** The four hex digits of a [\u] escape. *)
Definition hex4 (a b c d : ascii) : option N :=
  match hexValue a, hexValue b, hexValue c, hexValue d with
  | Some x, Some y, Some z, Some w => Some (((x * 16 + y) * 16 + z) * 16 + w)%N
  | _, _, _, _ => None
  end.

(** A string literal after its opening quote: the decoded string and what
    follows the closing quote. *)
Fixpoint parseStringBody (s : string) : option (string * string) :=
  match s with
  | EmptyString => None
  | String c r =>
      if (code c =? 34)%N then Some (EmptyString, r)
      else if (code c =? 92)%N then
        match r with
        | String e r1 =>
            if Ascii.eqb e "u" then
              match r1 with
              | String h1 (String h2 (String h3 (String h4 r2))) =>
                  match hex4 h1 h2 h3 h4 with
                  | Some n =>
                      if (n <? 256)%N then
                        match parseStringBody r2 with
                        | Some (t, rest) => Some (String (chr n) t, rest)
                        | None => None
                        end
                      else None
                  | None => None
                  end
              | _ => None
              end
            else
              match unescape e with
              | Some ch =>
                  match parseStringBody r1 with
                  | Some (t, rest) => Some (String ch t, rest)
                  | None => None
                  end
              | None => None
              end
        | EmptyString => None
        end
      else if (code c <? 32)%N then None
      else
        match parseStringBody r with
        | Some (t, rest) => Some (String c t, rest)
        | None => None
        end
  end.

(** *** Values *)

(** [obj[k] = v] on the members in creation order. *)
Fixpoint setMember (k : string) (v : JSON) (ms : list (string * JSON))
  : list (string * JSON) :=
  match ms with
  | [] => [(k, v)]
  | (k', v') :: ms' =>
      if String.eqb k k' then (k, v) :: ms' else (k', v') :: setMember k v ms'
  end.

(** [obj[k]] for an own property. *)
Fixpoint getMember (k : string) (ms : list (string * JSON)) : option JSON :=
  match ms with
  | [] => None
  | (k', v) :: ms' => if String.eqb k k' then Some v else getMember k ms'
  end.

Definition joinComma (parts : list string) : string :=
  match parts with
  | [] => EmptyString
  | p :: ps => fold_left (fun acc x => acc +:+ "," +:+ x) ps p
  end.

(** [JSON.stringify(v)] without indentation. *)
Fixpoint stringify (v : JSON) : string :=
  match v with
  | JNull => "null"
  | JBool true => "true"
  | JBool false => "false"
  | JNumber x => numberToString x
  | JString s => quoteString s
  | JArray l => "[" +:+ joinComma (map stringify l) +:+ "]"
  | JObject ms =>
      "{" +:+ joinComma (map (fun kv => quoteString kv.1 +:+ ":" +:+ stringify kv.2) ms)
          +:+ "}"
  end.

Definition isJsonWs (c : ascii) : bool :=
  let n := code c in ((n =? 32) || (n =? 9) || (n =? 10) || (n =? 13))%N.

Fixpoint skipWs (s : string) : string :=
  match s with
  | String c r => if isJsonWs c then skipWs r else s
  | EmptyString => s
  end.

(** Drop [lit] from the front of [s]. *)
Definition expect (lit s : string) : option string :=
  if Js.startsWith lit s then Some (Js.dropChars (String.length lit) s) else None.

(** Recursive descent; [fuel] bounds the number of values and separators
    and never exceeds what the length of the input allows. *)
Fixpoint parseValue (fuel : nat) (s : string) : option (JSON * string) :=
  match fuel with
  | O => None
  | S fuel' =>
      match skipWs s with
      | EmptyString => None
      | String c r as s' =>
          if Ascii.eqb c "[" then
            match skipWs r with
            | String c1 r1 as s1 =>
                if Ascii.eqb c1 "]" then Some (JArray [], r1)
                else parseElements fuel' s1 []
            | EmptyString => None
            end
          else if Ascii.eqb c "{" then
            match skipWs r with
            | String c1 r1 as s1 =>
                if Ascii.eqb c1 "}" then Some (JObject [], r1)
                else parseMembers fuel' s1 []
            | EmptyString => None
            end
          else if (code c =? 34)%N then
            match parseStringBody r with
            | Some (t, rest) => Some (JString t, rest)
            | None => None
            end
          else if Ascii.eqb c "n" then
            match expect "null" s' with Some rest => Some (JNull, rest) | None => None end
          else if Ascii.eqb c "t" then
            match expect "true" s' with Some rest => Some (JBool true, rest) | None => None end
          else if Ascii.eqb c "f" then
            match expect "false" s' with Some rest => Some (JBool false, rest) | None => None end
          else
            match parseNumber s' with
            | Some (x, rest) => Some (JNumber x, rest)
            | None => None
            end
      end
  end
with parseElements (fuel : nat) (s : string) (acc : list JSON)
  : option (JSON * string) :=
  match fuel with
  | O => None
  | S fuel' =>
      match parseValue fuel' s with
      | Some (v, rest) =>
          match skipWs rest with
          | String c r =>
              if Ascii.eqb c "," then parseElements fuel' r (acc ++ [v])
              else if Ascii.eqb c "]" then Some (JArray (acc ++ [v]), r)
              else None
          | EmptyString => None
          end
      | None => None
      end
  end
with parseMembers (fuel : nat) (s : string) (acc : list (string * JSON))
  : option (JSON * string) :=
  match fuel with
  | O => None
  | S fuel' =>
      match skipWs s with
      | String q r =>
          if (code q =? 34)%N then
            match parseStringBody r with
            | Some (k, rest) =>
                match skipWs rest with
                | String c r1 =>
                    if Ascii.eqb c ":" then
                      match parseValue fuel' r1 with
                      | Some (v, rest1) =>
                          match skipWs rest1 with
                          | String c2 r2 =>
                              if Ascii.eqb c2 "," then
                                parseMembers fuel' r2 (setMember k v acc)
                              else if Ascii.eqb c2 "}" then
                                Some (JObject (setMember k v acc), r2)
                              else None
                          | EmptyString => None
                          end
                      | None => None
                      end
                    else None
                | EmptyString => None
                end
            | None => None
            end
          else None
      | EmptyString => None
      end
  end.

(** [JSON.parse(text)]: [None] stands for the [SyntaxError] it throws. *)
Definition parse (text : string) : option JSON :=
  match parseValue (S (String.length text)) text with
  | Some (v, rest) =>
      match skipWs rest with
      | EmptyString => Some v
      | String _ _ => None
      end
  | None => None
  end.

End Json.

(** ** reviewEngine.ts *)

Module ReviewEngine.

Import Json.

(** [truncateText] is imported from [../utils]; the engine is stated over
    whatever that module provides. *)
Class Utils : Type := { truncateText : string -> Z -> string }.

Record ReviewIssue : Type := mkIssue {
  tier : string;
  file : string;
  line : Z;
  title : string;
  explanation : string
}.

(** *** String helpers of [parseResponse] *)

(** White space for [String.prototype.trim] and for [\s], among the code
    units below 256: TAB, LF, VT, FF, CR, SP and NBSP. *)
Definition isJsSpace (c : ascii) : bool :=
  let n := code c in
  (((9 <=? n) && (n <=? 13)) || (n =? 32) || (n =? 160))%N.

Fixpoint trimStart (s : string) : string :=
  match s with
  | String c r => if isJsSpace c then trimStart r else s
  | EmptyString => s
  end.

Fixpoint trimEnd (s : string) : string :=
  match s with
  | EmptyString => EmptyString
  | String c r =>
      match trimEnd r with
      | EmptyString => if isJsSpace c then EmptyString else str1 c
      | r' => String c r'
      end
  end.

Definition trim (s : string) : string := trimEnd (trimStart s).

(** First occurrence of [pat] in [s]: what precedes it and what follows. *)
Fixpoint findSub (pat s : string) : option (string * string) :=
  if Js.startsWith pat s then Some (EmptyString, Js.dropChars (String.length pat) s)
  else
    match s with
    | EmptyString => None
    | String c r =>
        match findSub pat r with
        | Some (before, after) => Some (String c before, after)
        | None => None
        end
    end.

(** The longest prefix of [s] that ends with the character [c]. *)
Fixpoint uptoLast (c : ascii) (s : string) : option string :=
  match s with
  | EmptyString => None
  | String x r =>
      match uptoLast c r with
      | Some p => Some (String x p)
      | None => if Ascii.eqb x c then Some (str1 x) else None
      end
  end.

Definition fence : string := "```".

(** [text.match(/```(?:json)?\s*([\s\S]*?)```/)], capture group 1. The
    leftmost opening fence decides: the optional tag and the white space
    after it hold no backquote, so giving them back never uncovers a closing
    fence, and a later opening fence would itself be a closing fence for
    the first one. The lazy group then stops at the nearest closing fence. *)
Definition fenceMatch (text : string) : option string :=
  match findSub fence text with
  | None => None
  | Some (_, afterOpen) =>
      let afterTag :=
        if Js.startsWith "json" afterOpen then Js.dropChars 4 afterOpen
        else afterOpen in
      match findSub fence (trimStart afterTag) with
      | Some (inner, _) => Some inner
      | None => None
      end
  end.

(** [text.match(/\[[\s\S]*\]/)], the whole match: from the first opening
    bracket to the last closing bracket after it. *)
Definition arrayMatch (text : string) : option string :=
  match findSub "[" text with
  | None => None
  | Some (_, afterOpen) =>
      match uptoLast "]" afterOpen with
      | Some body => Some (String "[" body)
      | None => None
      end
  end.

(** *** Validation and normalisation *)

(** [item.k] on a value that passed [typeof obj === 'object']. *)
Definition prop (obj : JSON) (k : string) : option JSON :=
  match obj with
  | JObject ms => getMember k ms
  | _ => None
  end.

Definition isTier (s : string) : bool :=
  String.eqb s "high" || String.eqb s "medium" || String.eqb s "low".

Definition isValidIssue (obj : JSON) : bool :=
  match obj with
  | JObject _ | JArray _ =>
      match prop obj "tier", prop obj "line", prop obj "title",
            prop obj "explanation" with
      | Some (JString t), Some (JNumber _), Some (JString _), Some (JString _) =>
          isTier t
      | _, _, _, _ => false
      end
  | _ => false
  end.

Section Parser.

Context `{Utils}.

(** [normalizeIssue], on an object that passed [isValidIssue]; the
    defaults of the other branches are never used. *)
Definition normalizeIssue (obj : JSON) : ReviewIssue :=
  {| tier := match prop obj "tier" with Some (JString t) => t | _ => EmptyString end;
     file := match prop obj "file" with Some (JString f) => f | _ => EmptyString end;
     line := Z.max 1 (match prop obj "line" with Some (JNumber x) => Js.round x | _ => 0 end);
     title := truncateText
                (match prop obj "title" with Some (JString t) => t | _ => EmptyString end) 80;
     explanation := truncateText
                (match prop obj "explanation" with Some (JString t) => t | _ => EmptyString end) 500 |}.

Definition parseResponse (responseText : string) : list ReviewIssue :=
  let text := trim responseText in
  let text :=
    match fenceMatch text with
    | Some inner => trim inner
    | None => text
    end in
  match arrayMatch text with
  | None => []
  | Some arr =>
      match parse arr with
      | Some (JArray parsed) => map normalizeIssue (List.filter isValidIssue parsed)
      | _ => []
      end
  end.

End Parser.

(** *** The host and the effects of a review *)

Inductive Result (A : Type) : Type :=
  | Ok (a : A)
  | Throw (error : string).
Arguments Ok {A} a.
Arguments Throw {A} error.

Record LanguageModelChat : Type := mkModel { family : string; modelId : nat }.

(** A chunk of a response stream; [OtherPart] is any chunk that is neither
    a text part nor a tool call part. *)
Inductive Chunk : Type :=
  | TextPart (value : string)
  | ToolCallPart (name callId : string) (input : gmap string string)
  | OtherPart.

Record ToolResultPart : Type := mkToolResult {
  resultCallId : string;
  resultContent : list Chunk
}.

Inductive Message : Type :=
  | User (text : string)
  | Assistant (parts : list Chunk)
  | UserToolResults (results : list ToolResultPart).

(** Every call that leaves the module, in order. *)
Inductive Call : Type :=
  | CallGetFileDiff (filePath : string)
  | CallGetRecentHistory (filePath : string)
  | CallSelectChatModels (familyFilter : option string)
  | CallBuildSystemPrompt
  | CallSendRequest (model : LanguageModelChat) (messages : list Message)
  | CallExecuteTool (name : string) (input : gmap string string)
  | CallOnProgress (issues : list ReviewIssue) (filePath : string).

(** The collaborators. Each answer may depend on everything that happened
    before the call. Fetching a diff, fetching the history and a model
    request may reject. [buildSystemPrompt] catches what it calls. Of the
    three tools of [workspaceTools.ts], [readFile] and [listDirectory]
    catch what they call and report a failure in the string they return;
    [searchCode] awaits the file search outside its [try] block and rejects
    when that search does. Model selection is taken to resolve. Writing to
    the output channel is left out. *)
Record Host : Type := mkHost {
  getFileDiff : list Call -> string -> Result (option string);
  getRecentHistory : list Call -> string -> Result string;
  selectChatModels : list Call -> option string -> list LanguageModelChat;
  buildSystemPrompt : list Call -> string;
  sendRequest : list Call -> LanguageModelChat -> list Message -> Result (list Chunk);
  readFile : list Call -> string -> string;
  searchCode : list Call -> string -> option string -> Result string;
  listDirectory : list Call -> string -> string
}.

(** [input.k ?? fallback]. *)
Definition inputOr (input : gmap string string) (k fallback : string) : string :=
  match input !! k with
  | Some v => v
  | None => fallback
  end.

(** [executeToolCall] of [workspaceTools.ts]: the dispatch on the tool
    name. It returns the promise of the tool, so it rejects when the tool
    does. *)
Definition executeToolCall (host : Host) (log : list Call) (name : string)
    (input : gmap string string) : Result string :=
  if String.eqb name "readFile" then
    Ok (readFile host log (inputOr input "path" EmptyString))
  else if String.eqb name "searchCode" then
    searchCode host log (inputOr input "query" EmptyString) (input !! "include")
  else if String.eqb name "listDirectory" then
    Ok (listDirectory host log (inputOr input "path" "."))
  else Ok ("Unknown tool: " +:+ name).

(** [token.isCancellationRequested], read after the calls made so far. *)
Definition CancellationToken : Type := list Call -> bool.

(** [new vscode.CancellationTokenSource().token]: nobody can cancel it. *)
Definition freshToken : CancellationToken := fun _ => false.

(** A progress callback; it may throw. *)
Definition ProgressCallback : Type :=
  list Call -> list ReviewIssue -> string -> Result unit.

(** The module-level settings [configure] writes. *)
Record Config : Type := mkConfig { maxDiffChars : Z; modelFamily : string }.

Definition defaultConfig : Config := mkConfig 15000 "gpt-4o".

Definition configure (newMaxDiffChars : option Z) (newModelFamily : option string)
    (config : Config) : Config :=
  mkConfig
    (match newMaxDiffChars with Some n => n | None => maxDiffChars config end)
    (match newModelFamily with Some f => f | None => modelFamily config end).

Definition resetState (config : Config) : Config := defaultConfig.

(** An [async] function: it reads and extends the log of calls and either
    resolves or rejects. *)
Definition M (A : Type) : Type := list Call -> Result A * list Call.

Definition ret {A} (a : A) : M A := fun log => (Ok a, log).

Definition throw {A} (error : string) : M A := fun log => (Throw error, log).

Definition bind {A B} (m : M A) (k : A -> M B) : M B :=
  fun log =>
    match m log with
    | (Ok a, log') => k a log'
    | (Throw e, log') => (Throw e, log')
    end.

(** [try { m } catch { }] with the outcome handed to the continuation. *)
Definition attempt {A} (m : M A) : M (Result A) :=
  fun log => let '(r, log') := m log in (Ok r, log').

Notation "'let*' x ':=' m 'in' k" := (bind m (fun x => k))
  (at level 10, x pattern, m at level 100, k at level 200).

(** One awaited call: ask the host, record the call. *)
Definition perform {A} (c : Call) (answer : list Call -> Result A) : M A :=
  fun log => (answer log, log ++ [c]).

Definition MAX_AGENT_ITERATIONS : nat := 10.

Definition nl : string := str1 (chr 10).

Definition buildUserPrompt (filePath diff history : string) : string :=
  let prompt :=
    "Review this file change for risks that a human developer must verify."
      +:+ nl +:+ nl in
  let prompt := prompt +:+ "File: " +:+ filePath +:+ nl +:+ nl in
  let prompt :=
    if Js.falsy_string history then prompt
    else prompt +:+ "Recent git history for this file:" +:+ nl +:+ history
           +:+ nl +:+ nl in
  let prompt :=
    prompt +:+ "Diff:" +:+ nl +:+ "```" +:+ nl +:+ diff +:+ nl +:+ "```"
      +:+ nl +:+ nl in
  prompt +:+ "Respond with a JSON array of issues. If no issues, respond with [].".

Definition isTextPart (c : Chunk) : bool :=
  match c with TextPart _ => true | _ => false end.

Definition isToolCallPart (c : Chunk) : bool :=
  match c with ToolCallPart _ _ _ => true | _ => false end.

Definition partValue (c : Chunk) : string :=
  match c with TextPart v => v | _ => EmptyString end.

(** [textParts.map((p) => p.value).join('')]. *)
Definition joinText (textParts : list Chunk) : string :=
  fold_right (fun p acc => partValue p +:+ acc) EmptyString textParts.

Section Engine.

Context `{Utils}.
Variable host : Host.
Variable config : Config.

(** The [for (const toolCall of toolCallParts)] loop of [runAgentLoop]:
    [await executeToolCall(...)] is not guarded, so a tool that rejects
    ends the loop and the review with it. *)
Fixpoint executeTools (toolCallParts : list Chunk)
    (toolResults : list ToolResultPart) : M (list ToolResultPart) :=
  match toolCallParts with
  | [] => ret toolResults
  | ToolCallPart name callId input :: rest =>
      let* result := perform (CallExecuteTool name input)
                       (fun log => executeToolCall host log name input) in
      executeTools rest
        (toolResults ++ [mkToolResult callId [TextPart result]])
  | _ :: rest => executeTools rest toolResults
  end.

(** The iterations of the [for] loop of [runAgentLoop] that are still to
    run; falling out of the loop returns the empty list. *)
Fixpoint agentIterations (remaining : nat) (model : LanguageModelChat)
    (cancelToken : CancellationToken) (messages : list Message)
  : M (list ReviewIssue) :=
  match remaining with
  | O => ret []
  | S remaining' =>
      fun log =>
        if cancelToken log then ret [] log
        else
          (let* chunks := perform (CallSendRequest model messages)
                            (fun log => sendRequest host log model messages) in
           let textParts := List.filter isTextPart chunks in
           let toolCallParts := List.filter isToolCallPart chunks in
           match toolCallParts with
           | [] => ret (parseResponse (joinText textParts))
           | _ =>
               let messages := messages ++ [Assistant (textParts ++ toolCallParts)] in
               let* toolResults := executeTools toolCallParts [] in
               agentIterations remaining' model cancelToken
                 (messages ++ [UserToolResults toolResults])
           end) log
  end.

Definition runAgentLoop (model : LanguageModelChat) (userPrompt : string)
    (token : option CancellationToken) : M (list ReviewIssue) :=
  let* systemPrompt := perform CallBuildSystemPrompt
                         (fun log => Ok (buildSystemPrompt host log)) in
  let cancelToken := match token with Some t => t | None => freshToken end in
  let messages := [User systemPrompt; User userPrompt] in
  agentIterations MAX_AGENT_ITERATIONS model cancelToken messages.

Definition noModelError : string :=
  "No Copilot models available. Ensure GitHub Copilot is installed and active.".

Definition callLLM (userPrompt : string) (token : option CancellationToken)
  : M (list ReviewIssue) :=
  let* models := perform (CallSelectChatModels (Some (modelFamily config)))
                   (fun log => Ok (selectChatModels host log (Some (modelFamily config)))) in
  match models with
  | [] =>
      let* fallbackModels := perform (CallSelectChatModels None)
                   (fun log => Ok (selectChatModels host log None)) in
      match fallbackModels with
      | [] => throw noModelError
      | model :: _ => runAgentLoop model userPrompt token
      end
  | model :: _ => runAgentLoop model userPrompt token
  end.

Definition withFile (filePath : string) (issue : ReviewIssue) : ReviewIssue :=
  mkIssue (tier issue) filePath (line issue) (title issue) (explanation issue).

Definition reviewFile (filePath : string) (token : option CancellationToken)
  : M (list ReviewIssue) :=
  let* diff := perform (CallGetFileDiff filePath)
                 (fun log => getFileDiff host log filePath) in
  match diff with
  | None => ret []
  | Some diff =>
      if Js.falsy_string diff then ret []
      else
        let* history := perform (CallGetRecentHistory filePath)
                          (fun log => getRecentHistory host log filePath) in
        let truncatedDiff := truncateText diff (maxDiffChars config) in
        let userPrompt := buildUserPrompt filePath truncatedDiff history in
        let* issues := callLLM userPrompt token in
        ret (map (withFile filePath) issues)
  end.

(** The [for (const filePath of filePaths)] loop of [reviewFiles]. The
    [try] block pushes to [allIssues] before it calls [onProgress], so what
    was pushed stays when the callback throws. *)
Fixpoint reviewFilesLoop (filePaths : list string)
    (onProgress : option ProgressCallback) (token : option CancellationToken)
    (allIssues : list ReviewIssue) : M (list ReviewIssue) :=
  match filePaths with
  | [] => ret allIssues
  | filePath :: rest =>
      fun log =>
        if match token with Some t => t log | None => false end
        then ret allIssues log
        else
          (let* outcome := attempt (reviewFile filePath token) in
           match outcome with
           | Ok fileIssues =>
               let allIssues := allIssues ++ fileIssues in
               let* _ :=
                 attempt
                   match onProgress with
                   | Some callback =>
                       perform (CallOnProgress allIssues filePath)
                         (fun log => callback log allIssues filePath)
                   | None => ret tt
                   end in
               reviewFilesLoop rest onProgress token allIssues
           | Throw _ => reviewFilesLoop rest onProgress token allIssues
           end) log
  end.

Definition reviewFiles (filePaths : list string)
    (onProgress : option ProgressCallback) (token : option CancellationToken)
  : M (list ReviewIssue) :=
  reviewFilesLoop filePaths onProgress token [].

End Engine.

End ReviewEngine.

(** ** More string built-ins *)

Module JsText.

Import Json.

Definition lf : ascii := chr 10.
Definition cr : ascii := chr 13.

(** [s.split(sep)] for a separator of one character: never the empty
    list. *)
Fixpoint split (sep : ascii) (s : string) : list string :=
  match s with
  | EmptyString => [EmptyString]
  | String c r =>
      if Ascii.eqb c sep then EmptyString :: split sep r
      else
        match split sep r with
        | l :: ls => String c l :: ls
        | [] => [str1 c]
        end
  end.

(** [parts.join(sep)]. *)
Definition join (sep : string) (parts : list string) : string :=
  match parts with
  | [] => EmptyString
  | p :: ps => fold_left (fun acc x => acc +:+ sep +:+ x) ps p
  end.

(** The lower-case form of a code unit below 128; the others map to
    themselves, and under the [i] flag of a regular expression they match
    no ASCII letter. *)
Definition lowerAscii (c : ascii) : ascii :=
  let n := code c in
  if ((65 <=? n) && (n <=? 90))%N then chr (n + 32) else c.

(** [lit] is a prefix of [s] up to the case of ASCII letters; [lit] is in
    lower case. What follows the prefix is returned. *)
Fixpoint dropPrefixIgnoreCase (lit s : string) : option string :=
  match lit with
  | EmptyString => Some s
  | String a lit' =>
      match s with
      | String b s' =>
          if Ascii.eqb a (lowerAscii b) then dropPrefixIgnoreCase lit' s' else None
      | EmptyString => None
      end
  end.

End JsText.

(** ** instructionsLoader.ts *)

Module InstructionsLoader.

Import Json JsText.

(** [Number(value)] and the two tests made on its result. The numbers of
    JavaScript are left abstract. *)
Class Numbers : Type := {
  number : Type;
  Number : string -> number;
  isNaN : number -> bool;
  nonNegative : number -> bool
}.

Record UserRule : Type := mkRule { severity : string; text : string }.

(** [InstructionsConfig]: each field may be absent. *)
Record InstructionsConfig `{Numbers} : Type := mkInstructionsConfig {
  model : option string;
  minWaitTimeMs : option number
}.
Arguments mkInstructionsConfig {_} model minWaitTimeMs.
Arguments model {_} _.
Arguments minWaitTimeMs {_} _.

(** The arrow function of [getUserInstructionsText]: one line per rule. *)
Definition ruleLine (rule : UserRule) : string :=
  let tierLabel :=
    if String.eqb (severity rule) "high" then "HIGH"
    else if String.eqb (severity rule) "medium" then "MEDIUM"
    else "LOW" in
  "- [" +:+ tierLabel +:+ "] " +:+ text rule.

Definition rulesHeader : string :=
  ReviewEngine.nl +:+
  "Additional project-specific validation rules (from agent-watch-instructions.md):" +:+
  ReviewEngine.nl.

Definition getUserInstructionsText (rules : list UserRule) : string :=
  match rules with
  | [] => EmptyString
  | _ => rulesHeader +:+ join ReviewEngine.nl (map ruleLine rules)
  end.

(** [line.replace(/^[-*]\s+/, '')]. *)
Definition stripBullet (line : string) : string :=
  match line with
  | String c (String d r) =>
      if (Ascii.eqb c "-" || Ascii.eqb c "*") && ReviewEngine.isJsSpace d
      then ReviewEngine.trimStart r
      else line
  | _ => line
  end.

(** The digits at the start of [s] are dropped. *)
Fixpoint dropDigits (s : string) : string :=
  match s with
  | String c r => if isDigit c then dropDigits r else s
  | EmptyString => s
  end.

(** [line.replace(/^\d+\.\s+/, '')]. *)
Definition stripNumber (line : string) : string :=
  match line with
  | String c _ =>
      if isDigit c then
        match dropDigits line with
        | String p (String d r) =>
            if Ascii.eqb p "." && ReviewEngine.isJsSpace d
            then ReviewEngine.trimStart r
            else line
        | _ => line
        end
      else line
  | EmptyString => line
  end.

(** The alternation [(high|medium|low)] under the [i] flag: the tag in
    lower case and what follows it. *)
Definition matchTier (s : string) : option (string * string) :=
  match dropPrefixIgnoreCase "high" s with
  | Some rest => Some ("high", rest)
  | None =>
      match dropPrefixIgnoreCase "medium" s with
      | Some rest => Some ("medium", rest)
      | None =>
          match dropPrefixIgnoreCase "low" s with
          | Some rest => Some ("low", rest)
          | None => None
          end
      end
  end.

(** [extractSeverity]: the tag [/^\[(high|medium|low)\]\s*/i] in front of
    the rule, [medium] without one. *)
Definition extractSeverity (line : string) : UserRule :=
  match line with
  | String c r =>
      if Ascii.eqb c "[" then
        match matchTier r with
        | Some (tier, String d afterTag) =>
            if Ascii.eqb d "]"
            then mkRule tier (ReviewEngine.trim (ReviewEngine.trimStart afterTag))
            else mkRule "medium" line
        | _ => mkRule "medium" line
        end
      else mkRule "medium" line
  | EmptyString => mkRule "medium" line
  end.

(** The body of the loop of [parseInstructions] for one line. *)
Definition parseInstructionLine (rules : list UserRule) (rawLine : string)
  : list UserRule :=
  let line := ReviewEngine.trim rawLine in
  if Js.falsy_string line || Js.startsWith "#" line || Js.startsWith ">" line
  then rules
  else
    let stripped := stripNumber (stripBullet line) in
    if Js.falsy_string stripped then rules
    else
      let rule := extractSeverity stripped in
      if Js.falsy_string (text rule) then rules else rules ++ [rule].

Definition parseInstructions (content : string) : list UserRule :=
  fold_left parseInstructionLine (split lf content) [].

Section Config.

Context `{Numbers}.

Definition emptyConfig : InstructionsConfig := mkInstructionsConfig None None.

(** The body of the loop of [parseYamlBlock] for one line. *)
Definition parseYamlLine (config : InstructionsConfig) (rawLine : string)
  : InstructionsConfig :=
  let line := ReviewEngine.trim rawLine in
  if Js.falsy_string line || Js.startsWith "#" line then config
  else
    match ReviewEngine.findSub ":" line with
    | None => config
    | Some (beforeColon, afterColon) =>
        let key := ReviewEngine.trim beforeColon in
        let value := ReviewEngine.trim afterColon in
        if String.eqb key "model" && negb (Js.falsy_string value) then
          mkInstructionsConfig (Some value) (minWaitTimeMs config)
        else if String.eqb key "minWaitTimeMs" && negb (Js.falsy_string value) then
          let parsed := Number value in
          if negb (isNaN parsed) && nonNegative parsed
          then mkInstructionsConfig (model config) (Some parsed)
          else config
        else config
    end.

Definition parseYamlBlock (yaml : string) : InstructionsConfig :=
  fold_left parseYamlLine (split lf yaml) emptyConfig.

(** The first place where [\r?\n---] matches: what precedes it and what
    follows the three dashes. *)
Fixpoint findClosingDelimiter (s : string) : option (string * string) :=
  if Js.startsWith (String cr (String lf "---")) s
  then Some (EmptyString, Js.dropChars 5 s)
  else if Js.startsWith (String lf "---") s
  then Some (EmptyString, Js.dropChars 4 s)
  else
    match s with
    | EmptyString => None
    | String c r =>
        match findClosingDelimiter r with
        | Some (before, after) => Some (String c before, after)
        | None => None
        end
    end.

(** An optional character at the start of [s] is dropped. *)
Definition dropOptional (c : ascii) (s : string) : string :=
  match s with
  | String d r => if Ascii.eqb d c then r else s
  | EmptyString => s
  end.

(** [extractFrontMatter]. The pattern is [---], an optional CR and a LF at
    the start of the content, a lazy group of any characters, an optional
    CR, a LF and [---], an optional CR, an optional LF, and a greedy group
    of any characters up to the end. The lazy group ends at the first
    closing delimiter; everything after the delimiter and the optional line
    break is the body. *)
Definition extractFrontMatter (content : string) : string * InstructionsConfig :=
  if Js.startsWith "---" content then
    match dropOptional cr (Js.dropChars 3 content) with
    | String c afterOpen =>
        if Ascii.eqb c lf then
          match findClosingDelimiter afterOpen with
          | Some (yamlBlock, afterClose) =>
              (dropOptional lf (dropOptional cr afterClose), parseYamlBlock yamlBlock)
          | None => (content, emptyConfig)
          end
        else (content, emptyConfig)
    | EmptyString => (content, emptyConfig)
    end
  else (content, emptyConfig).

End Config.

End InstructionsLoader.

(** ** workspaceTools.ts: [searchCode] *)

Module WorkspaceTools.

Import Json JsText.

Definition MAX_SEARCH_RESULTS : nat := 30.

(** What [searchCode] asks of the editor and of JavaScript: the files
    [findFiles] resolves with for an include pattern, each with the text a
    read of it gives (already decoded) or its failure and with its
    workspace-relative path; and [new RegExp(pattern, 'i')], which throws or
    gives the [test] of a line (without the [g] flag the test keeps no
    state). *)
Record SearchHost : Type := mkSearchHost {
  findFiles : string -> string -> ReviewEngine.Result (list (string * ReviewEngine.Result string));
  regExp : string -> ReviewEngine.Result (string -> bool)
}.

Definition defaultInclude : string :=
  "**/*.{ts,js,tsx,jsx,py,go,java,cs,rs,rb,php,json,yaml,yml}".

(** The character class of the escaping [replace]. *)
Definition isRegExpSpecial (c : ascii) : bool :=
  existsb (Ascii.eqb c)
    [".";"*";"+";"?";"^";"$";"{";"}";"(";")";"|";"[";"]";backslash]%char.

(** [query.replace(/[.*+?^${}()|[\]\\]/g, '\\$&')]. *)
Fixpoint escapeRegExp (query : string) : string :=
  match query with
  | EmptyString => EmptyString
  | String c r =>
      if isRegExpSpecial c then String backslash (String c (escapeRegExp r))
      else String c (escapeRegExp r)
  end.

(** What is reported for the line of index [i] of a file. *)
Definition matchLine (relPath : string) (i : nat) (line : string) : string :=
  relPath +:+ ":" +:+ natToString (N.of_nat (i + 1)) +:+ ": " +:+ ReviewEngine.trim line.

(** The inner loop over the lines of one file, from the line of index [i];
    it stops when [matches] is full. *)
Fixpoint scanLines (test : string -> bool) (relPath : string) (lines : list string)
    (i : nat) (matches : list string) : list string :=
  match lines with
  | [] => matches
  | line :: rest =>
      if test line then
        let matches := matches ++ [matchLine relPath i line] in
        if (MAX_SEARCH_RESULTS <=? length matches)%nat then matches
        else scanLines test relPath rest (S i) matches
      else scanLines test relPath rest (S i) matches
  end.

(** The outer loop over the files; a file that cannot be read is skipped. *)
Fixpoint scanFiles (test : string -> bool)
    (files : list (string * ReviewEngine.Result string)) (matches : list string)
  : list string :=
  match files with
  | [] => matches
  | (relPath, outcome) :: rest =>
      if (MAX_SEARCH_RESULTS <=? length matches)%nat then matches
      else
        match outcome with
        | ReviewEngine.Ok content =>
            scanFiles test rest (scanLines test relPath (split lf content) 0 matches)
        | ReviewEngine.Throw _ => scanFiles test rest matches
        end
  end.

Definition searchReport (query : string) (matches : list string) : string :=
  match matches with
  | [] => "No matches found for: " +:+ query
  | _ =>
      let header :=
        if (length matches =? MAX_SEARCH_RESULTS)%nat then
          "Found " +:+ natToString (N.of_nat MAX_SEARCH_RESULTS) +:+ "+ matches for '" +:+
          query +:+ "' (showing first " +:+ natToString (N.of_nat MAX_SEARCH_RESULTS) +:+
          "):" +:+ ReviewEngine.nl
        else
          "Found " +:+ natToString (N.of_nat (length matches)) +:+ " match(es) for '" +:+
          query +:+ "':" +:+ ReviewEngine.nl in
      header +:+ join ReviewEngine.nl matches
  end.

(** [searchCode]; it rejects when [findFiles] does, or when the escaped
    query is refused as a pattern too. *)
Definition searchCode (host : SearchHost) (query : string) (include : option string)
  : ReviewEngine.Result string :=
  if Js.falsy_string query then ReviewEngine.Ok "Error: query is required"
  else
    let regex :=
      match regExp host query with
      | ReviewEngine.Ok test => ReviewEngine.Ok test
      | ReviewEngine.Throw _ => regExp host (escapeRegExp query)
      end in
    match regex with
    | ReviewEngine.Throw error => ReviewEngine.Throw error
    | ReviewEngine.Ok test =>
        match findFiles host
                (match include with Some g => g | None => defaultInclude end)
                "**/node_modules/**" with
        | ReviewEngine.Throw error => ReviewEngine.Throw error
        | ReviewEngine.Ok files =>
            ReviewEngine.Ok (searchReport query (scanFiles test files []))
        end
    end.

End WorkspaceTools.

(** ** Vocabulary of the queue properties *)

Module QueueSpec.

Import ReviewQueue.

(** The version-control collaborator as a table: the answer it has for the
    diff of each file. *)
Definition Git : Type := string -> DiffResult.

(** A collaborator given by a list of answers; a file that is not in the
    list has no diff. *)
Fixpoint gitOf (answers : list (string * DiffResult)) (f : string) : DiffResult :=
  match answers with
  | [] => DiffValue None
  | (k, r) :: others => if String.eqb k f then r else gitOf others f
  end.

(** How [runFlush] classifies a candidate whose diff request was answered
    with [diff], against the fingerprints [hashes]. *)
Inductive Verdict : Type :=
  | SkipNoDiff
  | IncludeFailOpen
  | SkipUnchanged
  | IncludeChanged (hash : string).

Definition verdict (diff : DiffResult) (hashes : gmap string string) (f : string)
  : Verdict :=
  match diff with
  | DiffThrows => IncludeFailOpen
  | DiffValue None => SkipNoDiff
  | DiffValue (Some diff) =>
      if Js.falsy_string diff then SkipNoDiff
      else if bool_decide (hashes !! f = Some (hashDiff diff)) then SkipUnchanged
      else IncludeChanged (hashDiff diff)
  end.

Definition classify (git : Git) (hashes : gmap string string) (f : string) : Verdict :=
  verdict (git f) hashes f.

Definition included (v : Verdict) : bool :=
  match v with IncludeFailOpen | IncludeChanged _ => true | _ => false end.

(** What the [for] loop of one flush computes from the fingerprints
    [hashes] when nothing else touches them meanwhile: the body of the loop
    for each candidate in turn, with the answer [git] has for it. *)
Definition flushLoop (git : Git) (candidates : list string)
    (hashes : gmap string string) : gmap string string * list string :=
  fold_left (fun acc f => flushStep (git f) f acc) candidates (hashes, []).

(** The deliveries that let the [i]-th flush in flight run through
    [candidates]: each diff it asks for arrives, with the answer of [git]. *)
Definition deliveries (git : Git) (i : nat) (candidates : list string) : list Op :=
  map (fun f => OpDiff i (git f)) candidates.

(** One flush on its own: [runFlush] is called at time [now] on the state
    [q], and the diffs it asks for arrive, those of [git], before anything
    else happens. *)
Definition flushAlone (now : Z) (git : Git) (q : QueueState) : World * Trace :=
  let '(q0, started) := runFlush now q in
  run (deliveries git 0 (pendingFiles q)) (mkWorld now q0 (option_list started)).

(** The representation invariant of the module state: [pendingFiles] is a
    set, and the countdown interval only lives while a flush is scheduled
    (so [scheduleFlush] never overwrites a live interval handle). *)
Definition wellFormed (q : QueueState) : Prop :=
  NoDup (pendingFiles q) ∧
  (countdownInterval q ≠ None → flushTimer q ≠ None).

(** The claim that every flush with a pending file invokes exactly one of
    the two batch callbacks. *)
Definition exactlyOneBatchCallback (evs : list Event) : Prop :=
  (∃ filePaths, evs = [EvBatchReady filePaths]) ∨ evs = [EvBatchEmpty].

(** A flush in flight holds each file once: the files in its batch, the
    one whose diff it waits for and the candidates it has not reached yet
    are distinct. *)
Definition flushWellFormed (fl : Flush) : Prop :=
  NoDup (toReview fl ++ awaited fl :: rest fl).

(** An invocation of the countdown callback. *)
Definition isCountdown (e : Z * Event) : Prop :=
  ∃ secondsRemaining, e.2 = EvCountdown secondsRemaining.

Definition isEnqueueOf (f : string) (op : Op) : Prop :=
  match op with OpEnqueueFile g => g = f | _ => False end.

(** The files handed to [onBatchReady] in a trace. *)
Definition dispatched (tr : Trace) : list string :=
  flat_map (fun e => match e.2 with EvBatchReady fs => fs | _ => [] end) tr.

(** A flush in flight has taken the file [f]: it waits for its diff, will
    still ask for it, or has it in its batch. *)
Definition holds (f : string) (fl : Flush) : Prop :=
  f = awaited fl ∨ f ∈ rest fl ∨ f ∈ toReview fl.

(** No flush has taken [f] and [f] is not pending. *)
Definition untaken (f : string) (w : World) : Prop :=
  (f ∉ pendingFiles (queue w)) ∧ Forall (fun fl => ¬ holds f fl) (inFlight w).

(** [k] ticks of a countdown that showed [n] at time [t0]: the [i]-th, at
    [t0 + 1000 * i], shows [n - i]. *)
Definition countdownTicks (t0 n : Z) (k : nat) : Trace :=
  map (fun i => (t0 + 1000 * Z.of_nat i, EvCountdown (n - Z.of_nat i))) (seq 1 k).

(** *** Dispatches and their fingerprints

    What an observer of the module sees of dispatches: a reset of the
    queue, and each file handed to [onBatchReady] together with the answer
    its flush got when it asked for the diff of that file. The answers are
    not part of the module state; they are kept here, per flush in flight,
    for the files that flush has in [toReview]. *)
Inductive Obs : Type :=
  | ObsReset
  | ObsDispatch (filePath : string) (diff : DiffResult).

Definition Answers : Type := list (string * DiffResult).

(** The answers of a flush after the diff it waits for has settled with
    [diff], on the fingerprints [hashes]. *)
Definition answered (diff : DiffResult) (fl : Flush)
    (hashes : gmap string string) (a : Answers) : Answers :=
  if included (verdict diff hashes (awaited fl)) then a ++ [(awaited fl, diff)]
  else a.

(** A flush that starts has no answers yet. *)
Definition noAnswers (started : list Flush) : list Answers :=
  map (fun _ => []) started.

(** The answers of the flushes in flight after [op] ran in the world [w]. *)
Definition record (w : World) (op : Op) (answers : list Answers)
  : list Answers :=
  match op with
  | OpAdvance dt =>
      answers ++
      noAnswers (drop (length (inFlight w)) (inFlight (advance dt w).1))
  | OpDiff i diff =>
      match inFlight w !! i, answers !! i with
      | Some fl, Some a =>
          match rest fl with
          | [] => delete i answers
          | _ => <[i := answered diff fl (reviewedDiffHash (queue w)) a]> answers
          end
      | _, _ => answers
      end
  | _ => answers
  end.

(** What [op], run in the world [w], lets the observer see. *)
Definition observe (w : World) (op : Op) (answers : list Answers) : list Obs :=
  match op with
  | OpResetQueue => [ObsReset]
  | OpDiff i diff =>
      match inFlight w !! i, answers !! i with
      | Some fl, Some a =>
          match rest fl with
          | [] =>
              if onBatchReady (queue w) then
                map (fun e => ObsDispatch e.1 e.2)
                  (answered diff fl (reviewedDiffHash (queue w)) a)
              else []
          | _ => []
          end
      | _, _ => []
      end
  | _ => []
  end.

Fixpoint history (ops : list Op) (w : World) (answers : list Answers)
  : list Obs :=
  match ops with
  | [] => []
  | op :: ops' =>
      observe w op answers ++ history ops' (step w op).1 (record w op answers)
  end.

(** The files the observations of a log hand over, in order. *)
Definition dispatchesOf (log : list Obs) : list string :=
  flat_map (fun o => match o with ObsDispatch f _ => [f] | ObsReset => [] end) log.

(** The answers kept for the flushes in flight are those of the files in
    their batches. *)
Definition answersAligned (w : World) (answers : list Answers) : Prop :=
  Forall2 (fun fl a => map fst a = toReview fl) (inFlight w) answers.

(** The run never has two flushes in flight at once, and never resets the
    queue while a flush is in flight. *)
Fixpoint sequential (ops : list Op) (w : World) : Prop :=
  match ops with
  | [] => True
  | op :: ops' =>
      (op = OpResetQueue → inFlight w = []) ∧
      (length (inFlight (step w op).1) ≤ 1)%nat ∧
      sequential ops' (step w op).1
  end.

Definition fingerprintStep (f : string) (acc : option string) (o : Obs)
  : option string :=
  match o with
  | ObsReset => None
  | ObsDispatch g (DiffValue (Some diff)) =>
      if String.eqb g f then Some (hashDiff diff) else acc
  | ObsDispatch _ _ => acc
  end.

(** The fingerprint [f] was last dispatched with, since the last reset. *)
Definition lastFingerprint (f : string) (log : list Obs) : option string :=
  fold_left (fingerprintStep f) log None.

(** No entry of the log dispatches a file with the fingerprint that file
    was last dispatched with. *)
Definition noRepeatedFingerprint (log : list Obs) : Prop :=
  ∀ (i : nat) f diff,
    log !! i = Some (ObsDispatch f (DiffValue (Some diff))) →
    lastFingerprint f (take i log) ≠ Some (hashDiff diff).

(** What the flushes in flight will still let the observer see if their
    batches are handed over as they are now. *)
Definition upcoming (answers : list Answers) : list Obs :=
  flat_map (map (fun e => ObsDispatch e.1 e.2)) answers.

(** The invariant of a sequential run: the answers belong to the flushes
    in flight, of which there is at most one; the fingerprint map agrees
    with what the log, continued by the batch under way, says was
    dispatched last; that continued log repeats no fingerprint; and before
    [onBatchReady] is registered nothing was dispatched. *)
Definition fingerprintsAgree (w : World) (answers : list Answers)
    (log : list Obs) : Prop :=
  (length (inFlight w) ≤ 1)%nat ∧
  answersAligned w answers ∧
  (∀ f h, lastFingerprint f (log ++ upcoming answers) = Some h →
          reviewedDiffHash (queue w) !! f = Some h) ∧
  noRepeatedFingerprint (log ++ upcoming answers) ∧
  (onBatchReady (queue w) = false → ∀ f, lastFingerprint f log = None).

(** *** Countdown *)

(** The ticks a live countdown still emits, as a recursion on their number:
    one per 1000 ms, each showing one less than the one before. *)
Fixpoint ticksFrom (due r : Z) (k : nat) : Trace :=
  match k with
  | O => []
  | S k' => (due, EvCountdown (r - 1)) :: ticksFrom (due + 1000) (r - 1) k'
  end.

(** Number of ticks that show a positive value and are due by [target]. *)
Definition ticksDue (due r target : Z) : nat :=
  if target <? due then O else Z.to_nat (Z.min (r - 1) ((target - due) / 1000 + 1)).

(** *** Pacing *)

(** The times at which the run starts a flush: a timer callback leaves one
    more flush in flight, which recorded its time in [lastReviewAt]. *)
Fixpoint flushStarts (ops : list Op) (w : World) : list Z :=
  match ops with
  | [] => []
  | op :: ops' =>
      let w1 := (step w op).1 in
      (if (length (inFlight w) <? length (inFlight w1))%nat
       then [lastReviewAt (queue w1)] else []) ++ flushStarts ops' w1
  end.

(** Each time is at least [m] after the one before it. *)
Fixpoint spaced (m : Z) (ts : list Z) : Prop :=
  match ts with
  | t1 :: ((t2 :: _) as rest) => t1 + m ≤ t2 ∧ spaced m rest
  | _ => True
  end.

(** An operation that leaves [minIntervalMs] and [lastReviewAt] to the
    queue itself. *)
Definition keepsInterval (op : Op) : Prop :=
  match op with
  | OpConfigure _ | OpResetQueue => False
  | _ => True
  end.

(** The pacing invariant for the interval [m] at a time [now], given the
    flush starts so far: the last flush did not start after [now], a
    scheduled flush is due no earlier than [m] after it, and it is the last
    of the starts. *)
Definition paced (m now : Z) (q : QueueState) (ts : list Z) : Prop :=
  minIntervalMs q = m ∧
  lastReviewAt q ≤ now ∧
  (∀ d, flushTimer q = Some d → lastReviewAt q + m ≤ d) ∧
  spaced m ts ∧
  (∀ t, last ts = Some t → t ≤ lastReviewAt q).

(** A flush is scheduled exactly when files are pending. *)
Definition scheduledIffPending (q : QueueState) : Prop :=
  flushTimer q = None ↔ pendingFiles q = [].

(** *** Fingerprints *)

(** The unsigned 32-bit hash [hashDiff] prints. *)
Definition hash32 (s : string) : Z :=
  Js.ushr0 (fold_left hashStep (Js.charCodes s) 5381).

(** The value of a base-36 digit. *)
Definition value36 (c : ascii) : Z :=
  let n := Z.of_N (N_of_ascii c) in
  if n <? 58 then n - 48 else n - 87.

(** The number a string of base-36 digits denotes, read onto [acc]. *)
Fixpoint parse36 (s : string) (acc : Z) : Z :=
  match s with
  | EmptyString => acc
  | String c r => parse36 r (36 * acc + value36 c)
  end.

End QueueSpec.

(** ** Vocabulary of the JSON properties *)

Module JsonSpec.

Import Json.

(** What may follow a value inside a serialized array or object, or at the
    end of the text. *)
Definition endsValue (rest : string) : bool :=
  match rest with
  | EmptyString => true
  | String c _ => Ascii.eqb c "," || Ascii.eqb c "]" || Ascii.eqb c "}"
  end.

(** The normal form of a decimal. *)
Definition normalForm (x : Js.Number) : Prop :=
  Js.scale x = O ∨ Js.mantissa x mod 10 ≠ 0.

(** The decimal of a number is in normal form: its fraction, if it has one,
    does not end in 0. Every finite number has one such decimal. *)
Definition printable (x : Js.Number) : Prop :=
  match Js.scale x with
  | O => True
  | S _ => Js.mantissa x mod 10 ≠ 0
  end.

(** A string of decimal digits, and the number it denotes, read onto
    [acc]. *)
Fixpoint allDigits (s : string) : bool :=
  match s with
  | EmptyString => true
  | String c r => isDigit c && allDigits r
  end.

Fixpoint digitsValue (s : string) (acc : N) : N :=
  match s with
  | EmptyString => acc
  | String c r => digitsValue r (10 * acc + (code c - 48))%N
  end.

(** What stops a run of digits. *)
Definition stopsDigits (rest : string) : bool :=
  match rest with
  | EmptyString => true
  | String c _ => negb (isDigit c)
  end.

(** A value JavaScript can hold: the members of an object have distinct
    keys, and the decimal of a number is in normal form. *)
Fixpoint wellFormedJSON (v : JSON) : Prop :=
  match v with
  | JNumber x => printable x
  | JArray l => (fix all (l : list JSON) : Prop :=
                   match l with
                   | [] => True
                   | x :: l' => wellFormedJSON x ∧ all l'
                   end) l
  | JObject ms =>
      NoDup (map fst ms) ∧
      (fix all (ms : list (string * JSON)) : Prop :=
         match ms with
         | [] => True
         | kv :: ms' => wellFormedJSON kv.2 ∧ all ms'
         end) ms
  | _ => True
  end.

(** Fuel that suffices to parse the serialization of a value. *)
Fixpoint size (v : JSON) : nat :=
  match v with
  | JArray l => S (fold_right (fun x acc => S (size x + acc)) O l)
  | JObject ms => S (fold_right (fun kv acc => S (size kv.2 + acc)) O ms)
  | _ => 1
  end.

(** Fuel for the elements of an array, or the values of an object. *)
Definition elemsFuel (l : list JSON) : nat :=
  fold_right (fun x acc => S (size x + acc)) O l.

Definition membersFuel (ms : list (string * JSON)) : nat :=
  fold_right (fun kv acc => S (size kv.2 + acc)) O ms.

(** One serialized member of an object. *)
Definition member (kv : string * JSON) : string :=
  quoteString kv.1 +:+ ":" +:+ stringify kv.2.

(** The first character of a serialized value. *)
Inductive Head : Type :=
  | HeadNumber | HeadQuote | HeadBracket | HeadBrace | HeadN | HeadT | HeadF.

Definition headOf (v : JSON) : Head :=
  match v with
  | JNull => HeadN
  | JBool true => HeadT
  | JBool false => HeadF
  | JNumber _ => HeadNumber
  | JString _ => HeadQuote
  | JArray _ => HeadBracket
  | JObject _ => HeadBrace
  end.

Definition headChar (h : Head) (c : ascii) : Prop :=
  match h with
  | HeadNumber => isDigit c = true ∨ c = "-"%char
  | HeadQuote => c = dquote
  | HeadBracket => c = "["%char
  | HeadBrace => c = "{"%char
  | HeadN => c = "n"%char
  | HeadT => c = "t"%char
  | HeadF => c = "f"%char
  end.

End JsonSpec.

(** ** Vocabulary of the engine properties *)

Module EngineSpec.

Import Json ReviewEngine.

Definition isSendRequest (c : Call) : bool :=
  match c with CallSendRequest _ _ => true | _ => false end.

(** Number of model invocations recorded in a log. *)
Definition countSend (log : list Call) : nat :=
  length (List.filter isSendRequest log).

(** The tool executions recorded in a log, in order. *)
Definition toolExecutions (log : list Call) : list (string * gmap string string) :=
  flat_map (fun c => match c with CallExecuteTool n i => [(n, i)] | _ => [] end) log.

(** The model answers its [k]-th request (counting from 0) with [chunks],
    whatever the request holds. *)
Definition respondsOnInvocation (host : Host) (model : LanguageModelChat)
    (k : nat) (chunks : list Chunk) : Prop :=
  ∀ log messages, countSend log = k → sendRequest host log model messages = Ok chunks.

(** The model answers every request, and every answer holds a tool call. *)
Definition alwaysCallsTools (host : Host) (model : LanguageModelChat) : Prop :=
  ∀ log messages, ∃ chunks,
    sendRequest host log model messages = Ok chunks ∧
    List.filter isToolCallPart chunks ≠ [].

(** Nobody requests cancellation through [token]. *)
Definition neverCancelled (token : option CancellationToken) : Prop :=
  match token with
  | Some t => ∀ log, t log = false
  | None => True
  end.

(** The calls the tool loop makes for the tool call parts of a response. *)
Definition toolCallsOf (toolCallParts : list Chunk) : list Call :=
  flat_map (fun c => match c with
                     | ToolCallPart n _ i => [CallExecuteTool n i]
                     | _ => []
                     end) toolCallParts.

(** The issues a per-file outcome contributes to a sweep. *)
Definition issuesOf (outcome : Result (list ReviewIssue)) : list ReviewIssue :=
  match outcome with
  | Ok issues => issues
  | Throw _ => []
  end.

(** [outcome] is what reviewing [filePath] gave at some point of a run. *)
Definition outcomeOfReview `{Utils} (host : Host) (config : Config)
    (token : option CancellationToken) (filePath : string)
    (outcome : Result (list ReviewIssue)) : Prop :=
  ∃ log log', reviewFile host config filePath token log = (outcome, log').

(** A host given by fixed answers; the model follows a script indexed by
    the number of requests made so far, as the stub of the unit tests, and
    answers [otherwise] once the script is used up. *)
Definition scriptedHost (diff : Result (option string))
    (models fallbackModels : list LanguageModelChat)
    (script : list (list Chunk)) (otherwise : list Chunk)
    (toolResult : string) : Host :=
  mkHost (fun _ _ => diff) (fun _ _ => Ok "abc123 fix auth")
    (fun _ filter => match filter with Some _ => models | None => fallbackModels end)
    (fun _ => "SYSTEM")
    (fun log _ _ => Ok (nth (countSend log) script otherwise))
    (fun _ _ => toolResult) (fun _ _ _ => Ok toolResult) (fun _ _ => toolResult).

(** The host [host] with a file search that fails: [searchCode] rejects
    with [error]. *)
Definition withFailingSearch (error : string) (host : Host) : Host :=
  mkHost (getFileDiff host) (getRecentHistory host) (selectChatModels host)
    (buildSystemPrompt host) (sendRequest host) (readFile host)
    (fun _ _ _ => Throw error) (listDirectory host).

(** Every tool call resolves: the file search of [searchCode] never
    fails. *)
Definition toolsResolve (host : Host) : Prop :=
  ∀ log name input, ∃ result, executeToolCall host log name input = Ok result.

(** Modelled from the spec: [truncateText] lives in [../utils], outside the
    modules embedded here; the design document says a text is truncated to
    a number of characters. Only closed examples use this instance. *)
#[export] Instance specUtils : Utils :=
  {| truncateText := fun s n => String.substring 0 (Z.to_nat n) s |}.

(** An issue object as the model is asked to produce it, with a line that
    is a finite number: [file] may be missing. *)
Record IssueObject : Type := mkIssueObject {
  ioTier : string;
  ioFile : option string;
  ioLine : Js.Number;
  ioTitle : string;
  ioExplanation : string
}.

Definition toJSON (i : IssueObject) : JSON :=
  JObject
    (("tier", JString (ioTier i)) ::
     match ioFile i with
     | Some f => [("file", JString f)]
     | None => []
     end ++
     [("line", JNumber (ioLine i)); ("title", JString (ioTitle i));
      ("explanation", JString (ioExplanation i))]).

(** A valid issue object: a tier among the three, and a line that is a
    finite number, its decimal in normal form. *)
Definition validIssueObject (i : IssueObject) : Prop :=
  isTier (ioTier i) = true ∧ JsonSpec.printable (ioLine i).

(** The issue the parser is to make of a valid issue object. *)
Definition normalized `{Utils} (i : IssueObject) : ReviewIssue :=
  {| tier := ioTier i;
     file := match ioFile i with Some f => f | None => EmptyString end;
     line := Z.max 1 (Js.round (ioLine i));
     title := truncateText (ioTitle i) 80;
     explanation := truncateText (ioExplanation i) 500 |}.

(** The input record of a tool call with the single field [path]. *)
Definition pathInput (path : string) : gmap string string := {[ "path" := path ]}.

(** The input record of a tool call with the single field [query]. *)
Definition queryInput (query : string) : gmap string string := {[ "query" := query ]}.

(** A final answer that reports one issue. *)
Definition oneIssueText : string :=
  stringify (JArray [toJSON (mkIssueObject "high" None (Js.int 12)
                               "Unchecked token" "The token is used as it comes.")]).

(** A token whose owner asks for cancellation once [n] requests have been
    sent. *)
Definition cancelAfter (n : nat) : CancellationToken :=
  fun log => (n <=? countSend log)%nat.

(** [c] occurs in [s]. *)
Fixpoint occurs (c : ascii) (s : string) : bool :=
  match s with
  | EmptyString => false
  | String x r => Ascii.eqb x c || occurs c r
  end.

(** A text wrapped in a Markdown code fence, with or without the [json]
    tag, each fence on a line of its own. *)
Definition fenced (tagged : bool) (text : string) : string :=
  fence +:+ (if tagged then "json" else EmptyString) +:+ nl +:+ text +:+ nl +:+ fence.

(** The models the requests recorded in a log were sent to. *)
Definition requestsOf (log : list Call) : list LanguageModelChat :=
  flat_map (fun c => match c with CallSendRequest m _ => [m] | _ => [] end) log.

(** The invocations of the progress callback recorded in a log. *)
Definition progressOf (log : list Call) : list (list ReviewIssue * string) :=
  flat_map (fun c => match c with CallOnProgress issues f => [(issues, f)] | _ => [] end) log.

(** A call that is neither a model request nor a progress report. *)
Definition quiet (c : Call) : Prop :=
  match c with
  | CallSendRequest _ _ | CallOnProgress _ _ => False
  | _ => True
  end.

(** The token the agent loop polls. *)
Definition tokenOf (token : option CancellationToken) : CancellationToken :=
  match token with Some t => t | None => freshToken end.

(** The calls of at most [n] iterations of the agent loop that starts after
    [log]: each iteration found the token live, sent one request to
    [model] and ran the tools the answer asked for, up to the first tool
    that rejected, which ended the loop. *)
Inductive agentCalls (model : LanguageModelChat) (cancelToken : CancellationToken)
  : nat -> list Call -> list Call -> Prop :=
  | agentCalls_stop n log : agentCalls model cancelToken n log []
  | agentCalls_round n log messages parts rest :
      cancelToken log = false ->
      agentCalls model cancelToken n
        (log ++ CallSendRequest model messages :: toolCallsOf parts) rest ->
      agentCalls model cancelToken (S n) log
        (CallSendRequest model messages :: toolCallsOf parts ++ rest)
  | agentCalls_abort n log messages parts tools :
      cancelToken log = false ->
      tools `prefix_of` toolCallsOf parts ->
      agentCalls model cancelToken (S n) log
        (CallSendRequest model messages :: tools).

(** Every model request recorded in [log'] after the first [length log0]
    calls was sent while [t] did not ask for cancellation. *)
Definition sentWhileLive (t : CancellationToken) (log0 log' : list Call) : Prop :=
  ∀ (i : nat) model messages,
    log' !! i = Some (CallSendRequest model messages) →
    (length log0 ≤ i)%nat → t (take i log') = false.

(** The call identifiers of the tool calls of a response, in order. *)
Definition callIdsOf (parts : list Chunk) : list string :=
  flat_map (fun c => match c with ToolCallPart _ callId _ => [callId] | _ => [] end) parts.

End EngineSpec.

(** ** Vocabulary of the loader and search properties *)

Module LoaderSpec.

Import Json JsText InstructionsLoader.

Definition validSeverity (s : string) : Prop :=
  s = "high" ∨ s = "medium" ∨ s = "low".

(** No white space at either end. *)
Definition trimmed (s : string) : Prop :=
  ReviewEngine.trimStart s = s ∧ ReviewEngine.trimEnd s = s.

(** No white space at either end and no line break. *)
Definition clean (s : string) : Prop := trimmed s ∧ EngineSpec.occurs lf s = false.

(** The last character of [s] is [c]. *)
Fixpoint lastIs (c : ascii) (s : string) : bool :=
  match s with
  | EmptyString => false
  | String x EmptyString => Ascii.eqb x c
  | String _ r => lastIs c r
  end.

(** A rule as [parseInstructions] produces them: one of the three
    severities, and a text that is not empty, has no white space at either
    end and holds no line break. *)
Definition wellFormedRule (rule : UserRule) : Prop :=
  validSeverity (severity rule) ∧ text rule ≠ EmptyString ∧
  trimmed (text rule) ∧ EngineSpec.occurs lf (text rule) = false.

(** A document that opens with a front matter block. *)
Definition withFrontMatter (yaml body : string) : string :=
  "---" +:+ str1 lf +:+ yaml +:+ str1 lf +:+ "---" +:+ str1 lf +:+ body.

(** [body] is the end of [content]. *)
Definition isSuffix (body content : string) : Prop :=
  ∃ before, content = before +:+ body.

(** A stand-in for [Number] in closed examples: it reads the number
    literals of JSON and takes every other string as NaN, where JavaScript
    reads more (hexadecimal literals, [Infinity], a leading plus sign). *)
#[export] Instance decimalNumbers : Numbers :=
  {| number := option Js.Number;
     Number := fun s => match parseNumber s with
                        | Some (x, EmptyString) => Some x
                        | _ => None
                        end;
     isNaN := fun x => match x with None => true | Some _ => false end;
     nonNegative := fun x => match x with
                             | Some y => 0 <=? Js.mantissa y
                             | None => false
                             end |}.

End LoaderSpec.

Module SearchSpec.

Import Json JsText WorkspaceTools.

(** The report lines for the lines of one file that pass the test, from
    the line of index [i]. *)
Fixpoint lineMatches (test : string -> bool) (relPath : string) (lines : list string)
    (i : nat) : list string :=
  match lines with
  | [] => []
  | line :: rest =>
      (if test line then [matchLine relPath i line] else []) ++
      lineMatches test relPath rest (S i)
  end.

(** The report lines for every line that passes the test, in the order of
    the files and of their lines; a file that cannot be read has none. *)
Definition allMatches (test : string -> bool)
    (files : list (string * ReviewEngine.Result string)) : list string :=
  flat_map (fun file =>
              match file.2 with
              | ReviewEngine.Ok content => lineMatches test file.1 (split lf content) 0
              | ReviewEngine.Throw _ => []
              end) files.

(** The pattern [searchCode] ends up searching with: the query as a regular
    expression, or the escaped query when the query is refused. *)
Definition searchesWith (host : SearchHost) (query : string) (test : string -> bool)
  : Prop :=
  regExp host query = ReviewEngine.Ok test ∨
  ((∃ error, regExp host query = ReviewEngine.Throw error) ∧
   regExp host (escapeRegExp query) = ReviewEngine.Ok test).

End SearchSpec.

(** * Properties of the review queue *)

Module QueueFacts.

Import ReviewQueue QueueSpec.

(** *** The loop of one flush *)

Lemma flushStep_verdict diff hashes toReview f :
  flushStep diff f (hashes, toReview) =
  match verdict diff hashes f with
  | IncludeChanged h => (<[f := h]> hashes, toReview ++ [f])
  | IncludeFailOpen => (hashes, toReview ++ [f])
  | _ => (hashes, toReview)
  end.
Proof.
  unfold flushStep, verdict.
  destruct diff as [|[d|]]; try reflexivity.
  destruct (Js.falsy_string d); try reflexivity.
  destruct (bool_decide _); reflexivity.
Qed.

Lemma flushStep_classify git hashes toReview f :
  flushStep (git f) f (hashes, toReview) =
  match classify git hashes f with
  | IncludeChanged h => (<[f := h]> hashes, toReview ++ [f])
  | IncludeFailOpen => (hashes, toReview ++ [f])
  | _ => (hashes, toReview)
  end.
Proof. apply flushStep_verdict. Qed.

Lemma flushLoop_snoc git l f hashes :
  flushLoop git (l ++ [f]) hashes = flushStep (git f) f (flushLoop git l hashes).
Proof. unfold flushLoop. by rewrite fold_left_app. Qed.

(** The loop as a whole: membership in [toReview] and the final
    fingerprints, both in terms of the fingerprints at the start. *)
Lemma flushLoop_spec git candidates hashes0 :
  let '(hashes, toReview) := flushLoop git candidates hashes0 in
  (∀ f, f ∈ toReview ↔ f ∈ candidates ∧ included (classify git hashes0 f) = true) ∧
  (∀ f, hashes !! f =
        match classify git hashes0 f with
        | IncludeChanged h => if bool_decide (f ∈ candidates) then Some h else hashes0 !! f
        | _ => hashes0 !! f
        end).
Proof.
  induction candidates as [|x l IH] using rev_ind.
  - simpl. split.
    + intros f. split; [intros Hf; inversion Hf | intros [Hf _]; inversion Hf].
    + intros f. by destruct (classify git hashes0 f).
  - rewrite flushLoop_snoc.
    destruct (flushLoop git l hashes0) as [hashes toReview].
    destruct IH as [IHin IHmap].
    rewrite flushStep_classify.
    assert (Hcx : classify git hashes x =
                  match classify git hashes0 x with
                  | IncludeChanged h => if bool_decide (x ∈ l) then SkipUnchanged else IncludeChanged h
                  | v => v
                  end).
    { unfold classify, verdict. specialize (IHmap x). unfold classify, verdict in IHmap.
      destruct (git x) as [|[d|]]; try reflexivity.
      destruct (Js.falsy_string d); try reflexivity.
      destruct (bool_decide (hashes0 !! x = Some (hashDiff d))) eqn:E0.
      - apply bool_decide_eq_true in E0. rewrite IHmap, E0.
        by rewrite bool_decide_eq_true_2.
      - rewrite IHmap. destruct (bool_decide (x ∈ l)).
        + by rewrite bool_decide_eq_true_2.
        + by rewrite E0. }
    rewrite Hcx. clear Hcx.
    assert (Hmem : ∀ f, f ≠ x → bool_decide (f ∈ l ++ [x]) = bool_decide (f ∈ l)).
    { intros f Hne. apply bool_decide_ext.
      rewrite elem_of_app, list_elem_of_singleton. tauto. }
    assert (Hmemx : bool_decide (x ∈ l ++ [x]) = true).
    { apply bool_decide_eq_true_2, elem_of_app. right. by apply list_elem_of_singleton. }
    assert (Hin : ∀ f, f ∈ l ++ [x] ↔ f ∈ l ∨ f = x).
    { intros f. by rewrite elem_of_app, list_elem_of_singleton. }
    destruct (classify git hashes0 x) as [| | |h] eqn:Ecx;
      [| | |destruct (bool_decide (x ∈ l)) eqn:Exl];
      (split; intros f;
       [ rewrite ?elem_of_app, ?list_elem_of_singleton, IHin;
         try (apply bool_decide_eq_true in Exl);
         try (apply bool_decide_eq_false in Exl);
         split; intros Hf; destruct_and?; destruct_or?; subst;
         rewrite ?Ecx in *; simpl in *; try done; tauto
       | destruct (decide (f = x)) as [->|Hne];
         [ rewrite ?lookup_insert_eq, ?IHmap, Ecx, ?Hmemx, ?Exl; done
         | rewrite ?lookup_insert_ne by done; rewrite IHmap, Hmem by done; done ] ]).
Qed.

Lemma flushLoop_subset git candidates hashes0 f :
  f ∈ (flushLoop git candidates hashes0).2 → f ∈ candidates.
Proof.
  pose proof (flushLoop_spec git candidates hashes0) as Hspec.
  destruct (flushLoop git candidates hashes0) as [hashes toReview].
  destruct Hspec as [Hin _]. simpl. intros Hf. by apply Hin in Hf as [? _].
Qed.

Lemma flushLoop_NoDup git candidates hashes0 :
  NoDup candidates → NoDup (flushLoop git candidates hashes0).2.
Proof.
  induction candidates as [|x l IH] using rev_ind; intros Hnd.
  - constructor.
  - apply NoDup_app in Hnd as (Hl & Hx & _).
    rewrite flushLoop_snoc.
    pose proof (flushLoop_subset git l hashes0) as Hsub.
    specialize (IH Hl).
    destruct (flushLoop git l hashes0) as [hashes toReview].
    rewrite flushStep_classify. simpl in *.
    assert (NoDup (toReview ++ [x])).
    { apply NoDup_app. split; [done|]. split; [|apply NoDup_singleton].
      intros y Hy Hy'. apply (Hx y); [by apply Hsub | done]. }
    by destruct (classify git hashes x).
Qed.

(** *** A flush that runs to its end undisturbed *)

Lemma announce_setReviewedDiffHash toReview hashes q :
  announce toReview (setReviewedDiffHash hashes q) = announce toReview q.
Proof. reflexivity. Qed.

(** The flush at position [length pre], waiting for the diff of [f] with
    [cs] still to come, gets its diffs one after the other: the
    fingerprints and the batch are those of the loop, the flush is gone and
    the batch is announced. *)
Lemma run_deliveries git pre post : ∀ cs f batch0 t q,
  run (deliveries git (length pre) (f :: cs))
      (mkWorld t q (pre ++ mkFlush f cs batch0 :: post)) =
  let '(hashes, batch) :=
    fold_left (fun acc g => flushStep (git g) g acc) (f :: cs)
      (reviewedDiffHash q, batch0) in
  (mkWorld t (setReviewedDiffHash hashes q) (pre ++ post),
   stamp t (announce batch q)).
Proof.
  induction cs as [|c cs IH]; intros f batch0 t q.
  - cbn [deliveries map run step fold_left]. unfold deliverDiff.
    cbn [inFlight clock queue]. rewrite list_lookup_middle by done.
    unfold resumeFlush. cbn [awaited rest toReview].
    destruct (flushStep (git f) f (reviewedDiffHash q, batch0)) as [hashes batch].
    rewrite announce_setReviewedDiffHash, delete_middle, app_nil_r. done.
  - change (deliveries git (length pre) (f :: c :: cs))
      with (OpDiff (length pre) (git f) :: deliveries git (length pre) (c :: cs)).
    cbn [run step]. unfold deliverDiff at 1.
    cbn [inFlight clock queue]. rewrite list_lookup_middle by done.
    unfold resumeFlush. cbn [awaited rest toReview].
    cbn [fold_left].
    destruct (flushStep (git f) f (reviewedDiffHash q, batch0)) as [hashes batch].
    cbn [stamp map].
    rewrite insert_app_r_alt by lia. rewrite Nat.sub_diag. cbn [insert list_insert].
    rewrite IH. cbn [reviewedDiffHash setReviewedDiffHash fold_left].
    destruct (fold_left _ cs _) as [hashes' batch']. done.
Qed.

(** One flush on its own, in terms of its loop. *)
Lemma flushAlone_unfold now git q :
  pendingFiles q ≠ [] →
  flushAlone now git q =
  let '(hashes, batch) := flushLoop git (pendingFiles q) (reviewedDiffHash q) in
  (mkWorld now
     (mkQueue (minIntervalMs q) [] now hashes (flushTimer q) (onBatchReady q)
        (onCountdown q) (onBatchEmpty q) (countdownInterval q)) [],
   stamp now (announce batch q)).
Proof.
  intros Hne. unfold flushAlone, runFlush, flushLoop.
  destruct (pendingFiles q) as [|f cs]; [done|].
  cbn [option_list].
  pose proof (run_deliveries git [] [] cs f [] now) as Hrun.
  cbn [app length] in Hrun. rewrite Hrun. cbn [reviewedDiffHash].
  by destruct (fold_left _ (f :: cs) _).
Qed.

Lemma flushAlone_idle now git q :
  pendingFiles q = [] → flushAlone now git q = (mkWorld now q [], []).
Proof. intros E. unfold flushAlone, runFlush. by rewrite E. Qed.

(** *** Invariant of reachable states *)

Lemma wellFormed_initial : wellFormed initial.
Proof. split; [constructor | done]. Qed.

Lemma set_add_NoDup f l : NoDup l → NoDup (set_add f l).
Proof.
  intros Hl. unfold set_add. case_bool_decide; [done|].
  apply NoDup_app. split; [done|]. split; [|apply NoDup_singleton].
  intros y Hy Hy'. apply list_elem_of_singleton in Hy'. by subst.
Qed.

Lemma wellFormed_scheduleFlush now q :
  wellFormed q → wellFormed (scheduleFlush now q).1.
Proof.
  intros [Hnd Htm]. unfold scheduleFlush.
  destruct (flushTimer q) eqn:E.
  - split; simpl; [done|]. by rewrite E.
  - destruct (_ && _); simpl; (split; [done|]); simpl; by intros _.
Qed.

Lemma wellFormed_enqueueFile now f q :
  wellFormed q → wellFormed (enqueueFile now f q).1.
Proof.
  intros [Hnd Htm]. apply wellFormed_scheduleFlush.
  split; [by apply set_add_NoDup | done].
Qed.

Lemma wellFormed_runFlush now q :
  wellFormed q → wellFormed (runFlush now q).1.
Proof.
  intros Hwf. unfold runFlush.
  destruct (pendingFiles q) eqn:E; [done|].
  destruct Hwf as [_ Htm]. by split; [constructor|].
Qed.

Lemma wellFormed_flushTimerFired now q :
  wellFormed q → wellFormed (flushTimerFired now q).1.
Proof.
  intros [Hnd _]. apply wellFormed_runFlush. by split.
Qed.

Lemma wellFormed_resumeFlush diff fl q :
  wellFormed q → wellFormed (resumeFlush diff fl q).1.1.
Proof.
  intros Hwf. unfold resumeFlush.
  destruct (flushStep _ _ _) as [hashes batch]. by destruct (rest fl).
Qed.

Lemma wellFormed_countdownTick q :
  wellFormed q → wellFormed (countdownTick q).1.
Proof.
  intros [Hnd Htm]. unfold countdownTick.
  destruct (countdownInterval q) as [[due r]|] eqn:E; [|by split].
  destruct (0 <? r - 1); split; simpl; try done.
  intros _. by apply Htm.
Qed.

Lemma wellFormed_runTimers fuel target w :
  wellFormed (queue w) → wellFormed (queue (runTimers fuel target w).1).
Proof.
  revert w. induction fuel as [|fuel IH]; intros w Hwf; [done|]. simpl.
  destruct (nextTimer target (queue w)) as [[[|] t]|]; [| |done].
  - pose proof (wellFormed_countdownTick _ Hwf) as Hwf'.
    destruct (countdownTick (queue w)) as [q evs].
    specialize (IH (mkWorld t q (inFlight w)) Hwf').
    by destruct (runTimers fuel target (mkWorld t q (inFlight w))).
  - pose proof (wellFormed_flushTimerFired t _ Hwf) as Hwf'.
    destruct (flushTimerFired t (queue w)) as [q started].
    by apply IH.
Qed.

Lemma wellFormed_deliverDiff i diff w :
  wellFormed (queue w) → wellFormed (queue (deliverDiff i diff w).1).
Proof.
  intros Hwf. unfold deliverDiff. destruct (inFlight w !! i) as [fl|]; [|done].
  pose proof (wellFormed_resumeFlush diff fl _ Hwf) as Hwf'.
  by destruct (resumeFlush diff fl (queue w)) as [[q next] evs].
Qed.

Lemma wellFormed_step w op :
  wellFormed (queue w) → wellFormed (queue (step w op).1).
Proof.
  intros Hwf. destruct op as [[m|]| | | |f| | |dt|i diff]; simpl; try done.
  - pose proof (wellFormed_enqueueFile (clock w) f _ Hwf).
    by destruct (enqueueFile (clock w) f (queue w)).
  - destruct Hwf. split; [constructor | done].
  - split; [constructor | done].
  - unfold advance.
    pose proof (wellFormed_runTimers (timerBudget (queue w)) (clock w + Z.of_N dt) w Hwf).
    by destruct (runTimers _ _ _).
  - by apply wellFormed_deliverDiff.
Qed.

Lemma wellFormed_run ops w :
  wellFormed (queue w) → wellFormed (queue (run ops w).1).
Proof.
  revert w. induction ops as [|op ops IH]; intros w Hwf; [done|]. simpl.
  pose proof (wellFormed_step w op Hwf) as H1.
  destruct (step w op) as [w1 tr1]. specialize (IH w1 H1).
  by destruct (run ops w1).
Qed.

Lemma reachable_wellFormed w : reachable w → wellFormed (queue w).
Proof.
  intros (t0 & ops & <-). apply wellFormed_run, wellFormed_initial.
Qed.

Lemma run_cons op ops w :
  run (op :: ops) w =
  ((run ops (step w op).1).1, (step w op).2 ++ (run ops (step w op).1).2).
Proof.
  cbn [run]. destruct (step w op) as [w1 tr1]. cbn [fst snd].
  by destruct (run ops w1).
Qed.

Lemma run_app ops1 ops2 w :
  run (ops1 ++ ops2) w =
  ((run ops2 (run ops1 w).1).1, (run ops1 w).2 ++ (run ops2 (run ops1 w).1).2).
Proof.
  revert w. induction ops1 as [|op ops1 IH]; intros w.
  - cbn [app run fst snd]. by destruct (run ops2 w).
  - cbn [app]. rewrite !run_cons, IH. cbn [fst snd]. by rewrite app_assoc.
Qed.

(** *** What one flush does *)

Lemma flushAlone_hashes now git q :
  reviewedDiffHash (queue (flushAlone now git q).1) =
  (flushLoop git (pendingFiles q) (reviewedDiffHash q)).1.
Proof.
  destruct (pendingFiles q) as [|p ps] eqn:E.
  - by rewrite flushAlone_idle.
  - rewrite flushAlone_unfold by (by rewrite E). rewrite E.
    by destruct (flushLoop git (p :: ps) (reviewedDiffHash q)).
Qed.

Lemma flushAlone_events now git q :
  pendingFiles q ≠ [] →
  (flushAlone now git q).2 =
  stamp now (announce (flushLoop git (pendingFiles q) (reviewedDiffHash q)).2 q).
Proof.
  intros Hne. rewrite flushAlone_unfold by done.
  by destruct (flushLoop git (pendingFiles q) (reviewedDiffHash q)).
Qed.

Lemma flushAlone_lands now git q : inFlight (flushAlone now git q).1 = [].
Proof.
  destruct (pendingFiles q) as [|p ps] eqn:E.
  - by rewrite flushAlone_idle.
  - rewrite flushAlone_unfold by (by rewrite E).
    by destruct (flushLoop git (pendingFiles q) (reviewedDiffHash q)).
Qed.

Lemma dispatched_announce t batch q :
  onBatchReady q = true → dispatched (stamp t (announce batch q)) = batch.
Proof.
  intros Hon. unfold announce. rewrite Hon.
  destruct batch as [|b batch]; [by destruct (onBatchEmpty q)|].
  cbn. by rewrite app_nil_r.
Qed.

Lemma falsy_string_spec s : Js.falsy_string s = true ↔ s = EmptyString.
Proof. by destruct s. Qed.

(** What one delivery does to the flush that waited for it, in any state
    of the module: the rest of that iteration of the loop, on the
    fingerprints as they are then. *)
Lemma deliverDiff_classifies w i fl diff :
  inFlight w !! i = Some fl →
  let f := awaited fl in
  let stored := reviewedDiffHash (queue w) !! f in
  let w' := (deliverDiff i diff w).1 in
  let stored' := reviewedDiffHash (queue w') !! f in
  ∃ batch,
    (rest fl = [] →
     (deliverDiff i diff w).2 = stamp (clock w) (announce batch (queue w))) ∧
    (∀ c cs, rest fl = c :: cs →
     (deliverDiff i diff w).2 = [] ∧ inFlight w' !! i = Some (mkFlush c cs batch)) ∧
    (diff = DiffValue None ∨ diff = DiffValue (Some EmptyString) →
     batch = toReview fl ∧ stored' = stored) ∧
    (diff = DiffThrows → batch = toReview fl ++ [f] ∧ stored' = stored) ∧
    (∀ d, diff = DiffValue (Some d) → d ≠ EmptyString →
       stored = Some (hashDiff d) → batch = toReview fl ∧ stored' = stored) ∧
    (∀ d, diff = DiffValue (Some d) → d ≠ EmptyString →
       stored ≠ Some (hashDiff d) →
       batch = toReview fl ++ [f] ∧ stored' = Some (hashDiff d)).
Proof.
  intros Ei. cbv zeta. unfold deliverDiff. rewrite Ei. unfold resumeFlush.
  pose proof (flushStep_verdict diff (reviewedDiffHash (queue w)) (toReview fl)
                (awaited fl)) as Hstep.
  destruct (flushStep diff (awaited fl) (reviewedDiffHash (queue w), toReview fl))
    as [hashes batch].
  exists batch.
  assert (Hq : ∀ next evs,
            reviewedDiffHash (queue (mkWorld (clock w) (setReviewedDiffHash hashes (queue w))
                                       next, evs : Trace).1) = hashes) by done.
  assert (Hcases :
    (diff = DiffValue None ∨ diff = DiffValue (Some EmptyString) →
     batch = toReview fl ∧ hashes !! awaited fl = reviewedDiffHash (queue w) !! awaited fl) ∧
    (diff = DiffThrows →
     batch = toReview fl ++ [awaited fl] ∧
     hashes !! awaited fl = reviewedDiffHash (queue w) !! awaited fl) ∧
    (∀ d, diff = DiffValue (Some d) → d ≠ EmptyString →
       reviewedDiffHash (queue w) !! awaited fl = Some (hashDiff d) →
       batch = toReview fl ∧
       hashes !! awaited fl = reviewedDiffHash (queue w) !! awaited fl) ∧
    (∀ d, diff = DiffValue (Some d) → d ≠ EmptyString →
       reviewedDiffHash (queue w) !! awaited fl ≠ Some (hashDiff d) →
       batch = toReview fl ++ [awaited fl] ∧ hashes !! awaited fl = Some (hashDiff d))).
  { unfold verdict in Hstep. split_and!.
    - intros [->| ->]; by injection Hstep as -> ->.
    - intros ->. by injection Hstep as -> ->.
    - intros d -> Hne Hst.
      destruct (Js.falsy_string d) eqn:Ef; [by apply falsy_string_spec in Ef|].
      rewrite (bool_decide_eq_true_2 _ Hst) in Hstep. by injection Hstep as -> ->.
    - intros d -> Hne Hst.
      destruct (Js.falsy_string d) eqn:Ef; [by apply falsy_string_spec in Ef|].
      rewrite (bool_decide_eq_false_2 _ Hst) in Hstep. injection Hstep as -> ->.
      by rewrite lookup_insert_eq. }
  destruct Hcases as (H1 & H2 & H3 & H4).
  destruct (rest fl) as [|c cs] eqn:Er; cbn [fst snd queue reviewedDiffHash
    setReviewedDiffHash]; (split_and!; [| |exact H1|exact H2|exact H3|exact H4]);
    try done.
  intros c0 cs0 [= <- <-]. split; [done|]. cbn [inFlight].
  apply list_lookup_insert_eq. by eapply lookup_lt_Some.
Qed.

(** C2. In any state of the module, when the diff a flush waits for
    arrives, the candidate [awaited fl] is classified by it against the
    stored fingerprint: no diff (absent or empty) skips the file; a failed
    fetch puts it into the batch; a diff whose hash equals the stored
    fingerprint skips it and leaves the fingerprint as it was; a diff with a
    new hash stores that hash and puts the file into the batch. The batch
    goes on to the next candidate, or, after the last one, it is announced:
    [onBatchReady] receives it. For a flush as a whole that takes the
    pending files and gets the answers of [git] for them with nothing else
    in between, every candidate [f] is classified in this way against the
    fingerprint stored when the flush started, and [onBatchReady], when
    registered, receives exactly the files included. *)
Theorem flush_classifies_each_candidate now git q f w i fl diff :
  (inFlight w !! i = Some fl →
   let g := awaited fl in
   let stored := reviewedDiffHash (queue w) !! g in
   let w' := (step w (OpDiff i diff)).1 in
   let tr := (step w (OpDiff i diff)).2 in
   let stored' := reviewedDiffHash (queue w') !! g in
   ∃ batch,
     (rest fl = [] → tr = stamp (clock w) (announce batch (queue w))) ∧
     (∀ c cs, rest fl = c :: cs →
        tr = [] ∧ inFlight w' !! i = Some (mkFlush c cs batch)) ∧
     (diff = DiffValue None ∨ diff = DiffValue (Some EmptyString) →
      batch = toReview fl ∧ stored' = stored) ∧
     (diff = DiffThrows → batch = toReview fl ++ [g] ∧ stored' = stored) ∧
     (∀ d, diff = DiffValue (Some d) → d ≠ EmptyString →
        stored = Some (hashDiff d) → batch = toReview fl ∧ stored' = stored) ∧
     (∀ d, diff = DiffValue (Some d) → d ≠ EmptyString →
        stored ≠ Some (hashDiff d) →
        batch = toReview fl ++ [g] ∧ stored' = Some (hashDiff d))) ∧
  (f ∈ pendingFiles q →
   let stored := reviewedDiffHash q !! f in
   let w' := (flushAlone now git q).1 in
   let tr := (flushAlone now git q).2 in
   let stored' := reviewedDiffHash (queue w') !! f in
   ∃ batch,
     inFlight w' = [] ∧
     tr = stamp now (announce batch q) ∧
     (onBatchReady q = true → dispatched tr = batch) ∧
     (git f = DiffValue None ∨ git f = DiffValue (Some EmptyString) →
      (f ∉ batch) ∧ stored' = stored) ∧
     (git f = DiffThrows → f ∈ batch ∧ stored' = stored) ∧
     (∀ diff, git f = DiffValue (Some diff) → diff ≠ EmptyString →
        stored = Some (hashDiff diff) → (f ∉ batch) ∧ stored' = stored) ∧
     (∀ diff, git f = DiffValue (Some diff) → diff ≠ EmptyString →
        stored ≠ Some (hashDiff diff) →
        f ∈ batch ∧ stored' = Some (hashDiff diff))).
Proof.
  split; [apply deliverDiff_classifies|].
  intros Hf. cbv zeta.
  assert (Hne : pendingFiles q ≠ []) by (intros E; rewrite E in Hf; inversion Hf).
  exists (flushLoop git (pendingFiles q) (reviewedDiffHash q)).2.
  rewrite flushAlone_hashes, flushAlone_events, flushAlone_lands by done.
  split; [done|]. split; [done|]. split; [apply dispatched_announce|].
  pose proof (flushLoop_spec git (pendingFiles q) (reviewedDiffHash q)) as Hspec.
  destruct (flushLoop git (pendingFiles q) (reviewedDiffHash q)) as [hashes toReview].
  destruct Hspec as [Hin Hmap]. simpl.
  specialize (Hin f). specialize (Hmap f). unfold classify, verdict in Hin, Hmap.
  rewrite (bool_decide_eq_true_2 _ Hf) in Hmap.
  split; [|split; [|split]].
  - intros [E|E]; rewrite E in Hin, Hmap; simpl in Hin; (split; [|done]);
      intros Hc; by apply Hin in Hc as [_ ?].
  - intros E. rewrite E in Hin, Hmap. split; [by apply Hin | done].
  - intros diff0 E Hned Hst. rewrite E in Hin, Hmap.
    destruct (Js.falsy_string diff0) eqn:Ef; [by apply falsy_string_spec in Ef|].
    rewrite (bool_decide_eq_true_2 _ Hst) in Hin, Hmap. split; [|done].
    intros Hc. by apply Hin in Hc as [_ ?].
  - intros diff0 E Hned Hst. rewrite E in Hin, Hmap.
    destruct (Js.falsy_string diff0) eqn:Ef; [by apply falsy_string_spec in Ef|].
    rewrite (bool_decide_eq_false_2 _ Hst) in Hin, Hmap. split; [by apply Hin | done].
Qed.

Lemma flush_classifies_each_candidate_witness :
  let q := (enqueueFile 0 "a.ts" (setOnBatchReady initial)).1 in
  let git := gitOf [("a.ts", DiffValue (Some "diff-a"))] in
  let w := mkWorld 0 (runFlush 0 q).1 (option_list (runFlush 0 q).2) in
  ("a.ts" ∈ dispatched (flushAlone 0 git q).2 ∧
   reviewedDiffHash (queue (flushAlone 0 git q).1) !! "a.ts" = Some (hashDiff "diff-a")) ∧
  (step w (OpDiff 0 DiffThrows)).2 = [(0, EvBatchReady ["a.ts"])].
Proof.
  intros q git w.
  assert (Hmem : "a.ts" ∈ pendingFiles q) by (vm_compute; constructor).
  destruct (flush_classifies_each_candidate 0 git q "a.ts" w 0
              (mkFlush "a.ts" [] []) DiffThrows) as [Hone Hall].
  split.
  - destruct (Hall Hmem) as (batch & _ & _ & Hout & _ & _ & _ & Hnew).
    rewrite (Hout eq_refl).
    apply (Hnew "diff-a"); [reflexivity | discriminate | discriminate].
  - destruct (Hone eq_refl) as (batch & Hend & _ & _ & Hthrows & _).
    rewrite (Hend eq_refl). by destruct (Hthrows eq_refl) as [-> _].
Defined.

(** *** Timers *)

Lemma runFlush_timers now q :
  flushTimer (runFlush now q).1 = flushTimer q ∧
  countdownInterval (runFlush now q).1 = countdownInterval q.
Proof. unfold runFlush. by destruct (pendingFiles q). Qed.

Lemma timerBudget_flushTimerFired now q :
  timerBudget (flushTimerFired now q).1 = 0%nat.
Proof.
  unfold flushTimerFired, timerBudget.
  destruct (runFlush_timers now (stopCountdown (clearFlushTimer q))) as [-> ->].
  done.
Qed.

Lemma nextTimer_interval target q t :
  nextTimer target q = Some (TimerInterval, t) →
  ∃ r, countdownInterval q = Some (t, r) ∧ t ≤ target.
Proof.
  unfold nextTimer.
  destruct (countdownInterval q) as [[ti r]|], (flushTimer q) as [tf|];
    repeat case_match; intros; simplify_eq; eexists; split; try done; lia.
Qed.

Lemma nextTimer_flush target q t :
  nextTimer target q = Some (TimerFlush, t) → flushTimer q = Some t ∧ t ≤ target.
Proof.
  unfold nextTimer.
  destruct (countdownInterval q) as [[ti r]|], (flushTimer q) as [tf|];
    repeat case_match; intros; simplify_eq; split; try done; lia.
Qed.

Lemma timerBudget_countdownTick q t r :
  countdownInterval q = Some (t, r) →
  (timerBudget (countdownTick q).1 < timerBudget q)%nat.
Proof.
  intros E. unfold countdownTick, timerBudget. rewrite E.
  destruct (0 <? r - 1) eqn:Er; simpl.
  - apply Z.ltb_lt in Er. destruct (flushTimer q); lia.
  - destruct (flushTimer q); lia.
Qed.

(** Once the fuel covers the budget of the live timers, more fuel changes
    nothing: [advance] runs every timer that is due. *)
Lemma runTimers_fuel target fuel : ∀ fuel' w,
  (timerBudget (queue w) ≤ fuel)%nat → (timerBudget (queue w) ≤ fuel')%nat →
  runTimers fuel target w = runTimers fuel' target w.
Proof.
  induction fuel as [|fuel IH]; intros fuel' w Hf Hf'.
  - assert (Hnone : nextTimer target (queue w) = None).
    { unfold timerBudget in Hf. unfold nextTimer.
      destruct (countdownInterval (queue w)) as [[ti r]|], (flushTimer (queue w)); try done; lia. }
    destruct fuel'; simpl; by rewrite ?Hnone.
  - simpl. destruct (nextTimer target (queue w)) as [[[|] t]|] eqn:En.
    + pose proof (nextTimer_interval _ _ _ En) as (r & Er & _).
      pose proof (timerBudget_countdownTick _ _ _ Er) as Hlt.
      destruct fuel' as [|fuel']; [lia|]. simpl. rewrite En.
      destruct (countdownTick (queue w)) as [q evs]. simpl in Hlt.
      rewrite (IH fuel' (mkWorld t q (inFlight w))) by (simpl; lia). done.
    + destruct fuel' as [|fuel'].
      { apply nextTimer_flush in En as [En _]. unfold timerBudget in Hf'. rewrite En in Hf'. lia. }
      simpl. rewrite En.
      pose proof (timerBudget_flushTimerFired t (queue w)) as H0.
      destruct (flushTimerFired t (queue w)) as [q started]. simpl in H0.
      apply IH; simpl; lia.
    + destruct fuel'; simpl; by rewrite ?En.
Qed.

Lemma runTimers_complete target fuel : ∀ w,
  (timerBudget (queue w) ≤ fuel)%nat →
  nextTimer target (queue (runTimers fuel target w).1) = None.
Proof.
  induction fuel as [|fuel IH]; intros w Hf.
  - simpl. unfold timerBudget in Hf. unfold nextTimer.
    destruct (countdownInterval (queue w)) as [[ti r]|], (flushTimer (queue w)); try done; lia.
  - simpl. destruct (nextTimer target (queue w)) as [[[|] t]|] eqn:En; [| |done].
    + pose proof (nextTimer_interval _ _ _ En) as (r & Er & _).
      pose proof (timerBudget_countdownTick _ _ _ Er) as Hlt.
      destruct (countdownTick (queue w)) as [q evs]. simpl in Hlt.
      specialize (IH (mkWorld t q (inFlight w))).
      destruct (runTimers fuel target (mkWorld t q (inFlight w))). apply IH. simpl. lia.
    + pose proof (timerBudget_flushTimerFired t (queue w)) as H0.
      destruct (flushTimerFired t (queue w)) as [q started]. simpl in H0.
      apply IH. simpl. lia.
Qed.

(** After [advance], no timer that was due is left. *)
Lemma advance_runs_all_due_timers dt w :
  nextTimer (clock w + Z.of_N dt) (queue (advance dt w).1) = None.
Proof.
  unfold advance.
  pose proof (runTimers_complete (clock w + Z.of_N dt) _ w (le_n _)) as Hc.
  by destruct (runTimers _ _ _).
Qed.

(** Timer callbacks hand no batch over: a flush that starts only asks for
    its first diff. *)
Lemma countdownTick_dispatches_nothing t q : dispatched (stamp t (countdownTick q).2) = [].
Proof.
  unfold countdownTick. destruct (countdownInterval q) as [[due r]|]; [|done].
  destruct (0 <? r - 1); [|done]. by destruct (onCountdown q).
Qed.

Lemma dispatched_app tr1 tr2 : dispatched (tr1 ++ tr2) = dispatched tr1 ++ dispatched tr2.
Proof. unfold dispatched. apply flat_map_app. Qed.

Lemma runTimers_dispatches_nothing target fuel : ∀ w,
  dispatched (runTimers fuel target w).2 = [].
Proof.
  induction fuel as [|fuel IH]; intros w; simpl; [done|].
  destruct (nextTimer target (queue w)) as [[[|] t]|]; [| |done].
  - pose proof (countdownTick_dispatches_nothing t (queue w)) as Hd.
    destruct (countdownTick (queue w)) as [q evs]. simpl in Hd.
    specialize (IH (mkWorld t q (inFlight w))).
    destruct (runTimers fuel target (mkWorld t q (inFlight w))) as [w' tr].
    simpl in *. by rewrite dispatched_app, Hd, IH.
  - destruct (flushTimerFired t (queue w)) as [q started]. apply IH.
Qed.

(** With no timer live, time passes and nothing happens. *)
Lemma runTimers_no_timers fuel target w :
  flushTimer (queue w) = None → countdownInterval (queue w) = None →
  runTimers fuel target w = (w, []).
Proof.
  intros Hf Hc. destruct fuel; [done|]. simpl. unfold nextTimer. by rewrite Hf, Hc.
Qed.

(** *** The callbacks of a flush *)

Lemma flushStep_extends diff f hashes toReview :
  (flushStep diff f (hashes, toReview)).2 = toReview ∨
  (flushStep diff f (hashes, toReview)).2 = toReview ++ [f].
Proof.
  unfold flushStep. destruct diff as [|[d|]]; [by right | | by left].
  destruct (Js.falsy_string d); [by left|].
  case_bool_decide; [by left | by right].
Qed.

(** The batch a flush has after one more diff is still duplicate-free, and
    so is the flush that goes on to the next candidate. *)
Lemma flushWellFormed_resumeFlush diff fl q :
  flushWellFormed fl →
  NoDup (flushStep diff (awaited fl) (reviewedDiffHash q, toReview fl)).2 ∧
  ∀ fl', (resumeFlush diff fl q).1.2 = Some fl' → flushWellFormed fl'.
Proof.
  unfold flushWellFormed, resumeFlush. intros Hnd.
  pose proof (flushStep_extends diff (awaited fl) (reviewedDiffHash q) (toReview fl)) as Hb.
  destruct (flushStep diff (awaited fl) (reviewedDiffHash q, toReview fl))
    as [hashes batch].
  cbn [snd] in *.
  assert (Hall : NoDup (batch ++ rest fl)).
  { destruct Hb as [-> | ->].
    - apply NoDup_app in Hnd as (H1 & H2 & H3).
      apply NoDup_cons in H3 as [_ H3].
      apply NoDup_app. split_and!; [done | | done].
      intros x Hx Hr. apply (H2 x Hx). by right.
    - by rewrite <- app_assoc. }
  split; [by apply NoDup_app in Hall as (? & _)|].
  intros fl' Hfl'. destruct (rest fl) as [|c cs]; cbn [fst snd] in Hfl'; [done|].
  by injection Hfl' as <-.
Qed.

Lemma flushWellFormed_deliverDiff i diff w :
  Forall flushWellFormed (inFlight w) →
  Forall flushWellFormed (inFlight (deliverDiff i diff w).1).
Proof.
  intros Hall. unfold deliverDiff.
  destruct (inFlight w !! i) as [fl|] eqn:Ei; [|done].
  assert (Hfl : flushWellFormed fl) by (by eapply Forall_lookup_1).
  destruct (flushWellFormed_resumeFlush diff fl (queue w) Hfl) as [_ Hnext].
  destruct (resumeFlush diff fl (queue w)) as [[q next] evs].
  cbn [fst snd inFlight] in *. destruct next as [fl'|].
  - apply Forall_insert; [done|]. by apply Hnext.
  - by apply Forall_delete.
Qed.

Lemma flushWellFormed_runFlush now q :
  NoDup (pendingFiles q) → Forall flushWellFormed (option_list (runFlush now q).2).
Proof.
  intros Hnd. unfold runFlush. destruct (pendingFiles q) as [|f cs]; [constructor|].
  cbn [snd option_list option_rect].
  apply Forall_cons. split; [exact Hnd | constructor].
Qed.

Lemma flushWellFormed_runTimers target fuel : ∀ w,
  wellFormed (queue w) → Forall flushWellFormed (inFlight w) →
  Forall flushWellFormed (inFlight (runTimers fuel target w).1).
Proof.
  induction fuel as [|fuel IH]; intros w Hwf Hall; [done|]. cbn [runTimers].
  destruct (nextTimer target (queue w)) as [[[|] t]|]; [| |done].
  - pose proof (wellFormed_countdownTick _ Hwf) as Hwf'.
    destruct (countdownTick (queue w)) as [q evs].
    specialize (IH (mkWorld t q (inFlight w)) Hwf' Hall).
    by destruct (runTimers fuel target (mkWorld t q (inFlight w))).
  - pose proof (wellFormed_flushTimerFired t _ Hwf) as Hwf'.
    pose proof (flushWellFormed_runFlush t (stopCountdown (clearFlushTimer (queue w)))
                  (proj1 Hwf)) as Hnew.
    fold (flushTimerFired t (queue w)) in Hnew.
    destruct (flushTimerFired t (queue w)) as [q started]. cbn [fst snd] in *.
    apply IH; [done|]. cbn [inFlight]. by apply Forall_app.
Qed.

Lemma flushWellFormed_step w op :
  wellFormed (queue w) → Forall flushWellFormed (inFlight w) →
  Forall flushWellFormed (inFlight (step w op).1).
Proof.
  intros Hwf Hall. destruct op as [[m|]| | | |f| | |dt|i diff]; cbn [step fst inFlight];
    try done.
  - by destruct (enqueueFile (clock w) f (queue w)).
  - unfold advance.
    pose proof (flushWellFormed_runTimers (clock w + Z.of_N dt)
                  (timerBudget (queue w)) w Hwf Hall).
    by destruct (runTimers _ _ w).
  - by apply flushWellFormed_deliverDiff.
Qed.

Lemma reachable_flushWellFormed w :
  reachable w → Forall flushWellFormed (inFlight w).
Proof.
  intros (t0 & ops & <-).
  assert (Hinv : wellFormed (queue (loaded t0)) ∧
                 Forall flushWellFormed (inFlight (loaded t0))).
  { split; [apply wellFormed_initial | constructor]. }
  revert Hinv. generalize (loaded t0).
  induction ops as [|op ops IH]; intros w [Hwf Hall]; [done|].
  rewrite run_cons. cbn [fst]. apply IH.
  split; [by apply wellFormed_step | by apply flushWellFormed_step].
Qed.

(** Timer callbacks invoke the countdown callback and nothing else. *)
Lemma runTimers_countdown_only target fuel : ∀ w,
  Forall isCountdown (runTimers fuel target w).2.
Proof.
  induction fuel as [|fuel IH]; intros w; cbn [runTimers]; [constructor|].
  destruct (nextTimer target (queue w)) as [[[|] t]|]; [| |constructor].
  - assert (Hevs : Forall isCountdown (stamp t (countdownTick (queue w)).2)).
    { unfold countdownTick. destruct (countdownInterval (queue w)) as [[due r]|];
        [|constructor].
      destruct (0 <? r - 1); [|constructor].
      destruct (onCountdown (queue w)); [|constructor].
      repeat constructor. by eexists. }
    destruct (countdownTick (queue w)) as [q evs].
    specialize (IH (mkWorld t q (inFlight w))).
    destruct (runTimers fuel target (mkWorld t q (inFlight w))) as [w' tr].
    cbn [snd] in *. by apply Forall_app.
  - destruct (flushTimerFired t (queue w)) as [q started]. apply IH.
Qed.

(** Nothing but the arrival of a diff invokes a batch callback. *)
Lemma step_countdown_only w op :
  (∀ i diff, op ≠ OpDiff i diff) → Forall isCountdown (step w op).2.
Proof.
  intros Hop. destruct op as [[m|]| | | |f| | |dt|i diff]; cbn [step snd];
    try constructor.
  - unfold enqueueFile, scheduleFlush. cbn [flushTimer].
    destruct (flushTimer (queue w)); [constructor|].
    destruct (_ && _); cbn; [|constructor].
    repeat constructor. by eexists.
  - unfold advance.
    pose proof (runTimers_countdown_only (clock w + Z.of_N dt)
                  (timerBudget (queue w)) w).
    by destruct (runTimers _ _ w).
  - by destruct (Hop i diff).
Qed.

(** What the arrival of a diff invokes, in any state the module can be
    in. *)
Lemma deliverDiff_callbacks w :
  reachable w →
  (∀ i diff, inFlight w !! i = None → (step w (OpDiff i diff)).2 = []) ∧
  (∀ i diff fl, inFlight w !! i = Some fl →
     let batch :=
       (flushStep diff (awaited fl) (reviewedDiffHash (queue w), toReview fl)).2 in
     let evs := map snd (step w (OpDiff i diff)).2 in
     NoDup batch ∧
     (rest fl ≠ [] → evs = []) ∧
     (rest fl = [] → batch ≠ [] →
        evs = if onBatchReady (queue w) then [EvBatchReady batch] else []) ∧
     (rest fl = [] → batch = [] →
        evs = if onBatchEmpty (queue w) then [EvBatchEmpty] else [])).
Proof.
  intros Hreach. split.
  - intros i diff Ei. cbn [step]. unfold deliverDiff. by rewrite Ei.
  - intros i diff fl Ei. cbv zeta. cbn [step]. unfold deliverDiff. rewrite Ei.
    assert (Hfl : flushWellFormed fl).
    { eapply Forall_lookup_1; [by apply reachable_flushWellFormed | done]. }
    destruct (flushWellFormed_resumeFlush diff fl (queue w) Hfl) as [Hnd _].
    unfold resumeFlush.
    destruct (flushStep diff (awaited fl) (reviewedDiffHash (queue w), toReview fl))
      as [hashes batch].
    cbn [snd] in *.
    assert (Hevs : ∀ evs, map snd (stamp (clock w) evs) = evs).
    { intros evs. unfold stamp. rewrite map_map. apply map_id. }
    destruct (rest fl) as [|c cs]; cbn [snd]; rewrite ?Hevs.
    + split_and!; [done | done | |].
      * intros _ Hb. rewrite announce_setReviewedDiffHash. unfold announce.
        by destruct batch.
      * intros _ ->. by rewrite announce_setReviewedDiffHash.
    + split_and!; done.
Qed.

(** One flush on its own. *)
Lemma flushAlone_callbacks now git q :
  NoDup (pendingFiles q) →
  let batch := (flushLoop git (pendingFiles q) (reviewedDiffHash q)).2 in
  let evs := map snd (flushAlone now git q).2 in
  (pendingFiles q = [] → evs = []) ∧
  (pendingFiles q ≠ [] → batch ≠ [] →
     NoDup batch ∧ evs = if onBatchReady q then [EvBatchReady batch] else []) ∧
  (pendingFiles q ≠ [] → batch = [] →
     evs = if onBatchEmpty q then [EvBatchEmpty] else []) ∧
  (pendingFiles q ≠ [] → onBatchReady q = true → onBatchEmpty q = true →
     exactlyOneBatchCallback evs).
Proof.
  intros Hnd. cbv zeta.
  pose proof (flushLoop_NoDup git _ (reviewedDiffHash q) Hnd) as Hbatch.
  assert (Hevs : ∀ evs, map snd (stamp now evs) = evs).
  { intros evs. unfold stamp. rewrite map_map. apply map_id. }
  split; [|split; [|split]].
  - intros E. by rewrite flushAlone_idle.
  - intros Hne Hb. split; [done|]. rewrite flushAlone_events, Hevs by done.
    unfold announce.
    by destruct (flushLoop git (pendingFiles q) (reviewedDiffHash q)).2.
  - intros Hne Hb. rewrite flushAlone_events, Hevs by done. by rewrite Hb.
  - intros Hne Hr He. rewrite flushAlone_events, Hevs by done.
    unfold announce. rewrite Hr, He.
    destruct (flushLoop git (pendingFiles q) (reviewedDiffHash q)).2;
      [by right | left; eauto].
Qed.

(** C3, as the code has it. A flush that begins with no pending file
    invokes nothing. A flush that begins with a pending file invokes at most
    one callback: [onBatchReady], if one is registered, with the
    duplicate-free batch when the batch is not empty, and [onBatchEmpty], if
    one is registered, when it is empty. With both callbacks registered
    exactly one of them is invoked. This holds for a flush [runFlush]
    starts at [now] on the state [q] that gets the answers of [git] with
    nothing else in between, where the batch is what the loop computes
    from the fingerprints of [q]; and it holds in every state [w] the
    module can be in, whatever else is in flight: no operation or timer
    invokes a batch callback, the arrival of a diff invokes nothing while
    the flush it resumes has candidates left, and with the last diff that
    flush makes the one invocation, on the batch it has then. *)
Theorem flush_invokes_registered_callback now git q w :
  (NoDup (pendingFiles q) →
   let batch := (flushLoop git (pendingFiles q) (reviewedDiffHash q)).2 in
   let evs := map snd (flushAlone now git q).2 in
   (pendingFiles q = [] → evs = []) ∧
   (pendingFiles q ≠ [] → batch ≠ [] →
      NoDup batch ∧ evs = if onBatchReady q then [EvBatchReady batch] else []) ∧
   (pendingFiles q ≠ [] → batch = [] →
      evs = if onBatchEmpty q then [EvBatchEmpty] else []) ∧
   (pendingFiles q ≠ [] → onBatchReady q = true → onBatchEmpty q = true →
      exactlyOneBatchCallback evs)) ∧
  (reachable w →
   (∀ op, (∀ i diff, op ≠ OpDiff i diff) → Forall isCountdown (step w op).2) ∧
   (∀ i diff, inFlight w !! i = None → (step w (OpDiff i diff)).2 = []) ∧
   (∀ i diff fl, inFlight w !! i = Some fl →
      let batch :=
        (flushStep diff (awaited fl) (reviewedDiffHash (queue w), toReview fl)).2 in
      let evs := map snd (step w (OpDiff i diff)).2 in
      NoDup batch ∧
      (rest fl ≠ [] → evs = []) ∧
      (rest fl = [] → batch ≠ [] →
         evs = if onBatchReady (queue w) then [EvBatchReady batch] else []) ∧
      (rest fl = [] → batch = [] →
         evs = if onBatchEmpty (queue w) then [EvBatchEmpty] else []))).
Proof.
  split; [apply flushAlone_callbacks|].
  intros Hreach. split; [intros op; apply step_countdown_only|].
  by apply deliverDiff_callbacks.
Qed.

Lemma flush_invokes_registered_callback_witness :
  let q := (enqueueFile 0 "a.ts" (setOnBatchEmpty (setOnBatchReady initial))).1 in
  let w := (run [OpConfigure (Some 0); OpSetOnBatchReady;
                 OpEnqueueFile "a.ts"; OpEnqueueFile "b.ts"; OpAdvance 0;
                 OpEnqueueFile "a.ts"; OpAdvance 0;
                 OpDiff 0 (DiffValue (Some "diff-a"))] (loaded 0)).1 in
  exactlyOneBatchCallback
    (map snd (flushAlone 0 (gitOf [("a.ts", DiffValue (Some "diff-a"))]) q).2) ∧
  inFlight w = [mkFlush "b.ts" [] ["a.ts"]; mkFlush "a.ts" [] []] ∧
  map snd (step w (OpDiff 0 DiffThrows)).2 = [EvBatchReady ["a.ts"; "b.ts"]] ∧
  map snd (step w (OpDiff 1 (DiffValue (Some "diff-a")))).2 = [].
Proof.
  intros q w.
  assert (Hnd : NoDup (pendingFiles q)) by (vm_compute; repeat constructor; inversion 1).
  assert (Hreach : reachable w) by (by eexists 0, _).
  destruct (flush_invokes_registered_callback 0
              (gitOf [("a.ts", DiffValue (Some "diff-a"))]) q w) as [Halone Hany].
  destruct (Halone Hnd) as (_ & _ & _ & Hone).
  destruct (Hany Hreach) as (_ & _ & Hdiff).
  split; [apply Hone; [discriminate | reflexivity | reflexivity]|].
  split; [reflexivity|]. split.
  - destruct (Hdiff 0%nat DiffThrows (mkFlush "b.ts" [] ["a.ts"]) eq_refl)
      as (_ & _ & Hready & _).
    exact (Hready eq_refl ltac:(discriminate)).
  - destruct (Hdiff 1%nat (DiffValue (Some "diff-a")) (mkFlush "a.ts" [] []) eq_refl)
      as (_ & _ & _ & Hempty).
    exact (Hempty eq_refl eq_refl).
Defined.

(** C3 as the design document states it fails: with [onBatchReady]
    registered and [onBatchEmpty] not, a flush that begins with one pending
    file whose diff is absent runs (it records its time) and invokes neither
    callback. *)
Lemma flush_with_pending_file_invokes_nothing :
  let ops := [OpConfigure (Some 0); OpSetOnBatchReady;
              OpEnqueueFile "src/auth.ts";
              OpAdvance 5; OpDiff 0 (DiffValue None)] in
  let q := (run [OpConfigure (Some 0); OpSetOnBatchReady;
                 OpEnqueueFile "src/auth.ts"] (loaded 7)).1 in
  pendingFiles (queue q) = ["src/auth.ts"] ∧
  (run ops (loaded 7)).2 = [] ∧
  inFlight (run ops (loaded 7)).1 = [] ∧
  lastReviewAt (queue (run ops (loaded 7)).1) = 7 ∧
  ¬ exactlyOneBatchCallback
      (map snd (flushAlone 7 (gitOf [("src/auth.ts", DiffValue None)]) (queue q)).2).
Proof.
  vm_compute. repeat split; try reflexivity.
  intros [[fs Hfs]|Hfs]; discriminate.
Qed.

(** *** Cancelling *)

Lemma dispatched_stamp t evs f :
  f ∈ dispatched (stamp t evs) → ∃ fs, EvBatchReady fs ∈ evs ∧ f ∈ fs.
Proof.
  induction evs as [|e evs IH]; simpl; [by intros ?%elem_of_nil|].
  unfold dispatched. simpl. fold (dispatched (stamp t evs)).
  rewrite elem_of_app. intros [Hf|Hf].
  - destruct e; try (by apply elem_of_nil in Hf). eexists. split; [left|done].
  - destruct (IH Hf) as (fs & ? & ?). exists fs. split; [by right | done].
Qed.

Lemma announce_batch toReview q fs :
  EvBatchReady fs ∈ announce toReview q → fs = toReview.
Proof.
  unfold announce. destruct toReview as [|x l].
  - destruct (onBatchEmpty q); [|by intros ?%elem_of_nil].
    by intros ?%list_elem_of_singleton.
  - destruct (onBatchReady q); [|by intros ?%elem_of_nil].
    intros Hin%list_elem_of_singleton. by injection Hin.
Qed.

Lemma flushStep_batch diff f hashes toReview g :
  g ∈ (flushStep diff f (hashes, toReview)).2 → g ∈ toReview ∨ g = f.
Proof.
  rewrite flushStep_verdict.
  destruct (verdict diff hashes f); cbn [snd];
    rewrite ?elem_of_app, ?list_elem_of_singleton; tauto.
Qed.

(** A flush that has not taken [f] does not take it later and does not
    hand it over. *)
Lemma resumeFlush_not_held f diff fl q :
  ¬ holds f fl →
  pendingFiles (resumeFlush diff fl q).1.1 = pendingFiles q ∧
  (∀ fl', (resumeFlush diff fl q).1.2 = Some fl' → ¬ holds f fl') ∧
  (∀ t, f ∉ dispatched (stamp t (resumeFlush diff fl q).2)).
Proof.
  intros Hnot. unfold resumeFlush.
  pose proof (flushStep_batch diff (awaited fl) (reviewedDiffHash q) (toReview fl) f) as Hb.
  destruct (flushStep _ _ _) as [hashes batch]. cbn [snd] in Hb.
  assert (Hfb : f ∉ batch).
  { intros Hc. apply Hb in Hc. unfold holds in Hnot. tauto. }
  destruct (rest fl) as [|c cs] eqn:Er; cbn [fst snd].
  - split; [done|]. split; [done|].
    intros t Hc. apply dispatched_stamp in Hc as (fs & Hfs & Hin).
    apply announce_batch in Hfs. by subst.
  - split; [done|]. split; [|intros t; apply not_elem_of_nil].
    intros fl' [= <-]. unfold holds in *. cbn [awaited rest toReview].
    rewrite Er in Hnot. rewrite elem_of_cons in Hnot. tauto.
Qed.

Lemma runFlush_not_pending f now q :
  f ∉ pendingFiles q →
  (f ∉ pendingFiles (runFlush now q).1) ∧
  Forall (fun fl => ¬ holds f fl) (option_list (runFlush now q).2).
Proof.
  intros Hf. unfold runFlush. destruct (pendingFiles q) as [|c cs] eqn:E.
  - cbn [fst snd option_list]. split; [by rewrite E | constructor].
  - cbn [fst snd pendingFiles option_list]. split; [apply not_elem_of_nil|].
    apply Forall_singleton. unfold holds. cbn [awaited rest toReview].
    rewrite elem_of_cons in Hf. rewrite elem_of_nil. tauto.
Qed.

Lemma countdownTick_pending q : pendingFiles (countdownTick q).1 = pendingFiles q.
Proof.
  unfold countdownTick. destruct (countdownInterval q) as [[due r]|]; [|done].
  by destruct (0 <? r - 1).
Qed.

Lemma runTimers_untaken f target fuel : ∀ w,
  untaken f w → untaken f (runTimers fuel target w).1.
Proof.
  induction fuel as [|fuel IH]; intros w [Hp Hfl]; simpl; [done|].
  destruct (nextTimer target (queue w)) as [[[|] t]|]; [| |done].
  - pose proof (countdownTick_pending (queue w)) as Hpt.
    destruct (countdownTick (queue w)) as [q evs]. simpl in Hpt.
    specialize (IH (mkWorld t q (inFlight w))).
    destruct (runTimers fuel target (mkWorld t q (inFlight w))) as [w' tr].
    apply IH. split; simpl; [by rewrite Hpt | done].
  - pose proof (runFlush_not_pending f t (stopCountdown (clearFlushTimer (queue w))) Hp)
      as [Hp' Hs].
    fold (flushTimerFired t (queue w)) in Hp', Hs.
    destruct (flushTimerFired t (queue w)) as [q started].
    apply IH. split; simpl; [done|]. apply Forall_app. by split.
Qed.

Lemma set_add_elem f g l : f ∈ set_add g l ↔ f ∈ l ∨ f = g.
Proof.
  unfold set_add. case_bool_decide.
  - split; [tauto|]. intros [?| ->]; done.
  - by rewrite elem_of_app, list_elem_of_singleton.
Qed.

Lemma scheduleFlush_pending now q : pendingFiles (scheduleFlush now q).1 = pendingFiles q.
Proof.
  unfold scheduleFlush. destruct (flushTimer q); [done|]. by destruct (_ && _).
Qed.

Lemma scheduleFlush_dispatches_nothing now q :
  dispatched (stamp now (scheduleFlush now q).2) = [].
Proof.
  unfold scheduleFlush. destruct (flushTimer q); [done|]. by destruct (_ && _).
Qed.

Lemma deliverDiff_untaken f i diff w :
  untaken f w →
  untaken f (deliverDiff i diff w).1 ∧ (f ∉ dispatched (deliverDiff i diff w).2).
Proof.
  intros [Hp Hfl]. unfold deliverDiff.
  destruct (inFlight w !! i) as [fl|] eqn:Ei;
    [|split; [by split | apply not_elem_of_nil]].
  assert (Hnot : ¬ holds f fl) by (eapply Forall_lookup_1 in Hfl; eauto).
  destruct (resumeFlush_not_held f diff fl (queue w) Hnot) as (Hpq & Hnext & Hdisp).
  destruct (resumeFlush diff fl (queue w)) as [[q next] evs]. cbn [fst snd] in *.
  split; [|apply Hdisp]. unfold untaken. cbn [queue inFlight]. rewrite Hpq.
  split; [done|]. destruct next as [fl'|].
  - apply Forall_insert; [done | by apply Hnext].
  - by apply Forall_delete.
Qed.

(** A file that no flush has taken, that is not pending and is not
    enqueued is not dispatched. *)
Lemma step_untaken f w op :
  ¬ isEnqueueOf f op → untaken f w →
  untaken f (step w op).1 ∧ (f ∉ dispatched (step w op).2).
Proof.
  intros Hop [Hp Hfl].
  destruct op as [[m|]| | | |g| | |dt|i diff]; simpl;
    try (split; [by split | apply not_elem_of_nil]).
  - pose proof (scheduleFlush_pending (clock w)
      (mkQueue (minIntervalMs (queue w)) (set_add g (pendingFiles (queue w)))
         (lastReviewAt (queue w)) (reviewedDiffHash (queue w)) (flushTimer (queue w))
         (onBatchReady (queue w)) (onCountdown (queue w)) (onBatchEmpty (queue w))
         (countdownInterval (queue w)))) as Hpq.
    pose proof (scheduleFlush_dispatches_nothing (clock w)
      (mkQueue (minIntervalMs (queue w)) (set_add g (pendingFiles (queue w)))
         (lastReviewAt (queue w)) (reviewedDiffHash (queue w)) (flushTimer (queue w))
         (onBatchReady (queue w)) (onCountdown (queue w)) (onBatchEmpty (queue w))
         (countdownInterval (queue w)))) as Hd.
    unfold enqueueFile. destruct (scheduleFlush _ _) as [q evs]. simpl in *.
    rewrite Hd. split; [|apply not_elem_of_nil]. split; simpl; [|done].
    rewrite Hpq, set_add_elem. intros [?| ->]; [done|]. by apply Hop.
  - split; [|apply not_elem_of_nil]. split; simpl; [apply not_elem_of_nil | done].
  - split; [|apply not_elem_of_nil]. split; simpl; [apply not_elem_of_nil | done].
  - unfold advance.
    pose proof (runTimers_untaken f (clock w + Z.of_N dt)
                  (timerBudget (queue w)) w (conj Hp Hfl)) as Hr.
    pose proof (runTimers_dispatches_nothing (clock w + Z.of_N dt)
                  (timerBudget (queue w)) w) as Hd.
    destruct (runTimers _ _ _) as [w' tr]. simpl in *.
    rewrite Hd. split; [exact Hr | apply not_elem_of_nil].
  - by apply deliverDiff_untaken.
Qed.

Lemma run_untaken f ops : ∀ w,
  Forall (fun op => ¬ isEnqueueOf f op) ops → untaken f w →
  f ∉ dispatched (run ops w).2.
Proof.
  induction ops as [|op ops IH]; intros w Hops Hf; simpl; [apply not_elem_of_nil|].
  apply Forall_cons in Hops as [Hop Hops].
  destruct (step_untaken f w op Hop Hf) as [H1 H2].
  destruct (step w op) as [w1 tr1]. specialize (IH w1 Hops H1).
  destruct (run ops w1) as [w2 tr2]. simpl in *.
  rewrite dispatched_app, elem_of_app. tauto.
Qed.

(** C9, as the code has it. [cancelPending] right after [enqueueFile f]:
    the pending set is empty and neither the flush timer nor the countdown
    ticker is live; the fingerprints and [minIntervalMs] are what they were
    before the enqueue, and so are the flushes in flight; however long one
    waits no timer callback runs, so nothing is invoked and no flush
    starts; and [f] is in no batch of any later run that does not enqueue
    [f] again, unless a flush that was already in flight had taken it. *)
Theorem cancelPending_discards_enqueued_file w f :
  let w1 := (step w (OpEnqueueFile f)).1 in
  let w2 := (step w1 OpCancelPending).1 in
  pendingFiles (queue w2) = [] ∧
  flushTimer (queue w2) = None ∧
  countdownInterval (queue w2) = None ∧
  reviewedDiffHash (queue w2) = reviewedDiffHash (queue w) ∧
  minIntervalMs (queue w2) = minIntervalMs (queue w) ∧
  inFlight w2 = inFlight w ∧
  (∀ dt, step w2 (OpAdvance dt) =
         (mkWorld (clock w + Z.of_N dt) (queue w2) (inFlight w), [])) ∧
  (∀ ops, Forall (fun op => ¬ isEnqueueOf f op) ops →
          Forall (fun fl => ¬ holds f fl) (inFlight w) →
          f ∉ dispatched (run ops w2).2).
Proof.
  cbv zeta. cbn [step].
  assert (Hq : reviewedDiffHash (enqueueFile (clock w) f (queue w)).1 = reviewedDiffHash (queue w) ∧
               minIntervalMs (enqueueFile (clock w) f (queue w)).1 = minIntervalMs (queue w)).
  { unfold enqueueFile, scheduleFlush. simpl.
    destruct (flushTimer (queue w)); [done|]. by destruct (_ && _). }
  destruct (enqueueFile (clock w) f (queue w)) as [q evs].
  cbn [fst snd clock queue inFlight] in *.
  destruct Hq as [Hh Hm].
  split_and!; try done.
  intros ops Hops Hfl. apply run_untaken; [done|].
  split; simpl; [apply not_elem_of_nil | done].
Qed.

Lemma cancelPending_discards_enqueued_file_witness :
  let w := mkWorld 0 (setOnBatchReady (configure (Some 1000) initial)) [] in
  let w2 := (step (step w (OpEnqueueFile "a.ts")).1 OpCancelPending).1 in
  "a.ts" ∉ dispatched
    (run [OpEnqueueFile "b.ts"; OpAdvance 5000;
          OpDiff 0 (DiffValue (Some "diff-b"))] w2).2.
Proof.
  intros w w2.
  destruct (cancelPending_discards_enqueued_file w "a.ts")
    as (_ & _ & _ & _ & _ & _ & _ & Hnever).
  apply Hnever; [|apply Forall_nil_2].
  apply Forall_cons; split; [simpl; discriminate|].
  apply Forall_cons; split; [simpl; tauto|].
  apply Forall_cons; split; [simpl; tauto|]. apply Forall_nil_2.
Defined.

(** C9 as the design document states it fails: a flush that has started
    and waits for the diff of [a.ts] is not cancelled. The file is enqueued
    again and the queue is cancelled at once: nothing is pending or
    scheduled, and still, a minute later, when the diff arrives, [a.ts] is
    handed to [onBatchReady]. *)
Lemma flush_in_flight_survives_cancelPending :
  let w := (run [OpConfigure (Some 0); OpSetOnBatchReady;
                 OpEnqueueFile "a.ts"; OpAdvance 0] (loaded 0)).1 in
  let w2 := (run [OpEnqueueFile "a.ts"; OpCancelPending] w).1 in
  inFlight w = [mkFlush "a.ts" [] []] ∧
  pendingFiles (queue w2) = [] ∧
  flushTimer (queue w2) = None ∧
  (run [OpAdvance 60000; OpDiff 0 (DiffValue (Some "diff-a"))] w2).2 =
    [(60000, EvBatchReady ["a.ts"])].
Proof. vm_compute. repeat split; reflexivity. Qed.

(** *** The countdown *)

Lemma runTimers_after_flush fuel target t q fls :
  (runTimers fuel target
     (mkWorld t (flushTimerFired t q).1 (fls ++ option_list (flushTimerFired t q).2))).2 = [].
Proof.
  destruct (runFlush_timers t (stopCountdown (clearFlushTimer q))) as [E1 E2].
  rewrite runTimers_no_timers; [done| |]; simpl; unfold flushTimerFired;
    by rewrite ?E1, ?E2.
Qed.

(** With the ticker stopped, what is left to run emits nothing. *)
Lemma runTimers_flush_only fuel target w :
  countdownInterval (queue w) = None →
  (runTimers fuel target w).2 = [].
Proof.
  intros Hc. destruct fuel; [done|]. simpl. unfold nextTimer. rewrite Hc.
  destruct (flushTimer (queue w)) as [tf|]; [|done].
  destruct (tf <=? target); [|done].
  pose proof (runTimers_after_flush fuel target tf (queue w) (inFlight w)) as Hafter.
  by destruct (flushTimerFired tf (queue w)) as [q' started].
Qed.

Lemma ticksFrom_countdownTicks k : ∀ t0 n,
  ticksFrom (t0 + 1000) n k = countdownTicks t0 n k.
Proof.
  unfold countdownTicks. induction k as [|k IH]; intros t0 n; [done|].
  cbn [ticksFrom seq map].
  replace (t0 + 1000 * Z.of_nat 1) with (t0 + 1000) by lia.
  replace (n - Z.of_nat 1) with (n - 1) by lia. f_equal.
  rewrite IH. rewrite <- (seq_shift k 1), map_map. apply map_ext. intros i.
  replace (t0 + 1000 + 1000 * Z.of_nat i) with (t0 + 1000 * Z.of_nat (S i)) by lia.
  by replace (n - 1 - Z.of_nat i) with (n - Z.of_nat (S i)) by lia.
Qed.

Lemma ticksDue_step due r target :
  2 ≤ r → due ≤ target →
  ticksDue due r target = S (ticksDue (due + 1000) (r - 1) target).
Proof.
  intros Hr Hd. unfold ticksDue.
  destruct (target <? due) eqn:E1; [apply Z.ltb_lt in E1; lia|].
  destruct (target <? due + 1000) eqn:E2.
  - apply Z.ltb_lt in E2.
    assert ((target - due) / 1000 = 0) as -> by (apply Z.div_small; lia). lia.
  - apply Z.ltb_ge in E2.
    assert ((target - due) / 1000 = (target - (due + 1000)) / 1000 + 1) as ->.
    { replace (target - due) with ((target - (due + 1000)) + 1 * 1000) by lia.
      by rewrite Z.div_add by lia. }
    assert (0 ≤ (target - (due + 1000)) / 1000) by (apply Z.div_pos; lia). lia.
Qed.

Lemma runTimers_countdown target (m : nat) : ∀ fuel c q fls due tf,
  countdownInterval q = Some (due, Z.of_nat m + 1) →
  flushTimer q = Some tf →
  onCountdown q = true →
  (due + 1000 * (Z.of_nat m - 1) < tf ∧ tf ≤ due + 1000 * Z.of_nat m) →
  (timerBudget q ≤ fuel)%nat →
  (runTimers fuel target (mkWorld c q fls)).2 =
  ticksFrom due (Z.of_nat m + 1) (ticksDue due (Z.of_nat m + 1) target).
Proof.
  induction m as [|m IH]; intros fuel c q fls due tf Hc Hf Hon Htf Hfuel.
  - assert (Hk : ticksDue due (Z.of_nat 0 + 1) target = O).
    { unfold ticksDue. destruct (target <? due) eqn:E; [done|].
      apply Z.ltb_ge in E.
      assert (0 ≤ (target - due) / 1000) by (apply Z.div_pos; lia). lia. }
    rewrite Hk. simpl ticksFrom.
    destruct fuel as [|fuel]; [done|]. simpl. unfold nextTimer. rewrite Hc, Hf.
    destruct (due <=? tf) eqn:E1.
    + destruct (due <=? target); [|done].
      unfold countdownTick. rewrite Hc. simpl.
      pose proof (runTimers_flush_only fuel target (mkWorld due (stopCountdown q) fls) eq_refl) as Hrest.
      destruct (runTimers fuel target (mkWorld due (stopCountdown q) fls)) as [w' tr].
      done.
    + destruct (tf <=? target); [|done].
      pose proof (runTimers_after_flush fuel target tf q fls) as Hafter.
      by destruct (flushTimerFired tf q) as [q' started].
  - destruct fuel as [|fuel].
    { unfold timerBudget in Hfuel. rewrite Hf, Hc in Hfuel. lia. }
    cbn [runTimers queue]. unfold nextTimer. rewrite Hc, Hf.
    assert ((due <=? tf) = true) as -> by (apply Z.leb_le; lia).
    destruct (due <=? target) eqn:E.
    + apply Z.leb_le in E.
      rewrite ticksDue_step by lia.
      unfold countdownTick. rewrite Hc. cbv zeta.
      assert (Hr : Z.of_nat (S m) + 1 - 1 = Z.of_nat m + 1) by lia.
      cbn [ticksFrom]. rewrite !Hr.
      assert ((0 <? Z.of_nat m + 1) = true) as -> by (apply Z.ltb_lt; lia).
      rewrite Hon. cbn [inFlight].
      match goal with
      | |- context [runTimers fuel target (mkWorld due ?q' fls)] =>
          specialize (IH fuel due q' fls (due + 1000) tf eq_refl Hf eq_refl)
      end.
      cbn [inFlight].
      destruct (runTimers fuel target _) as [w' tr].
      cbn [snd stamp map app].
      f_equal. apply IH; [lia|].
      unfold timerBudget in *. cbn [flushTimer countdownInterval].
      rewrite Hf, Hc in Hfuel. rewrite Hf. lia.
    + apply Z.leb_gt in E. unfold ticksDue.
      by assert ((target <? due) = true) as -> by (apply Z.ltb_lt; lia).
Qed.

Lemma ceilSeconds_bounds delay :
  0 < delay →
  1000 * (ceilSeconds delay - 1) < delay ∧ delay ≤ 1000 * ceilSeconds delay.
Proof.
  intros Hd. unfold ceilSeconds.
  pose proof (Z.div_mod (delay + 999) 1000 ltac:(lia)) as Hdm.
  pose proof (Z.mod_pos_bound (delay + 999) 1000 ltac:(lia)) as Hmod.
  lia.
Qed.

Lemma countdownTicks_positive t0 n k t v :
  (Z.of_nat k ≤ n - 1) → (t, EvCountdown v) ∈ countdownTicks t0 n k → 0 < v.
Proof.
  intros Hk Hin. unfold countdownTicks in Hin.
  apply list_elem_of_fmap in Hin as (i & Heq & Hi).
  apply list_elem_of_In, in_seq in Hi. injection Heq as _ ->. lia.
Qed.

(** C8, as the code has it. When [enqueueFile] schedules a flush (none was
    scheduled), the computed delay is positive and no more than the host
    timer honours, and a countdown callback is registered, the callback is
    invoked at once with [ceil(delay / 1000)]; after that, what is invoked
    within any waiting time [dt] is exactly one countdown per elapsed
    1000 ms, the [i]-th showing [ceil(delay / 1000) - i], ending with the one
    that shows 1: no invocation shows 0. When the computed delay is 0, or no
    countdown callback is registered when the flush is scheduled, no
    countdown is invoked, at once or later. *)
Theorem countdown_ticks_when_registered w f :
  let q := queue w in
  let t0 := clock w in
  let delay := computeDelay t0 q in
  let n := ceilSeconds delay in
  let w1 := (step w (OpEnqueueFile f)).1 in
  reachable w → flushTimer q = None →
  (0 < delay → delay ≤ Js.TIMEOUT_MAX → onCountdown q = true →
     (step w (OpEnqueueFile f)).2 = [(t0, EvCountdown n)] ∧
     ∀ dt,
       (advance dt w1).2 =
         countdownTicks t0 n (Z.to_nat (Z.min (n - 1) (Z.of_N dt / 1000))) ∧
       ∀ t, (t, EvCountdown 0) ∉ (advance dt w1).2) ∧
  (delay = 0 ∨ onCountdown q = false →
     (step w (OpEnqueueFile f)).2 = [] ∧
     ∀ dt, (advance dt w1).2 = []).
Proof.
  intros q t0 delay n w1 Hreach Hft.
  assert (Hci : countdownInterval q = None).
  { apply reachable_wellFormed in Hreach as [_ Htm].
    destruct (countdownInterval (queue w)) eqn:E; [|done].
    exfalso. by apply Htm. }
  subst w1. cbn [step]. unfold enqueueFile, scheduleFlush. cbn [flushTimer].
  fold q t0. rewrite Hft.
  change (computeDelay t0 (mkQueue _ _ _ _ _ _ _ _ _)) with delay.
  cbn [onCountdown countdownInterval minIntervalMs pendingFiles lastReviewAt
       reviewedDiffHash onBatchReady onBatchEmpty].
  split.
  - intros Hd Hmax Hon. rewrite Hon.
    assert ((0 <? delay) = true) as -> by (by apply Z.ltb_lt).
    assert (Js.timeoutDelay delay = delay) as ->.
    { unfold Js.timeoutDelay.
      by assert ((Js.TIMEOUT_MAX <? delay) = false) as -> by (apply Z.ltb_ge; lia). }
    cbn [andb fst snd stamp map]. fold n. split; [done|].
    intros dt. unfold advance. cbn [clock queue inFlight].
    pose proof (ceilSeconds_bounds delay Hd) as [Hlo Hhi]. fold n in Hlo, Hhi.
    match goal with
    | |- context [runTimers ?fuel ?target (mkWorld t0 ?q1 ?fls)] =>
        pose proof (runTimers_countdown target (Z.to_nat (n - 1)) fuel t0 q1 fls
                      (t0 + 1000) (t0 + delay)) as Hrun;
        destruct (runTimers fuel target (mkWorld t0 q1 fls)) as [w' tr]
    end.
    cbn [snd] in *.
    replace (Z.of_nat (Z.to_nat (n - 1)) + 1) with n in Hrun by lia.
    specialize (Hrun eq_refl eq_refl eq_refl ltac:(lia) ltac:(done)).
    rewrite ticksFrom_countdownTicks in Hrun.
    assert (Hk : ticksDue (t0 + 1000) n (t0 + Z.of_N dt) =
                 Z.to_nat (Z.min (n - 1) (Z.of_N dt / 1000))).
    { unfold ticksDue. destruct (t0 + Z.of_N dt <? t0 + 1000) eqn:E.
      - apply Z.ltb_lt in E.
        assert (Z.of_N dt / 1000 = 0) as -> by (apply Z.div_small; lia). lia.
      - apply Z.ltb_ge in E.
        replace (t0 + Z.of_N dt - (t0 + 1000)) with (Z.of_N dt + (-1) * 1000) by lia.
        rewrite Z.div_add by lia. f_equal. lia. }
    rewrite Hk in Hrun. split; [done|].
    intros t Hin. rewrite Hrun in Hin.
    apply countdownTicks_positive in Hin; lia.
  - intros Hd.
    assert (((0 <? delay) && onCountdown q) = false) as ->.
    { destruct Hd as [Hd|Hd]; [|by rewrite Hd, andb_false_r].
      by assert ((0 <? delay) = false) as -> by (apply Z.ltb_ge; lia). }
    cbn [fst snd stamp map]. split; [done|].
    intros dt. unfold advance. cbn [clock queue inFlight].
    match goal with
    | |- context [runTimers ?fuel ?target ?w1] =>
        pose proof (runTimers_flush_only fuel target w1 Hci) as Hrun;
        destruct (runTimers fuel target w1) as [w' tr]
    end.
    done.
Qed.

Lemma countdown_ticks_when_registered_witness :
  let w := (run [OpConfigure (Some 3000); OpSetOnCountdown] (loaded 0)).1 in
  let w1 := (step w (OpEnqueueFile "src/auth.ts")).1 in
  (step w (OpEnqueueFile "src/auth.ts")).2 = [(0, EvCountdown 3)] ∧
  (advance 2000 w1).2 = [(1000, EvCountdown 2); (2000, EvCountdown 1)].
Proof.
  intros w w1.
  assert (Hreach : reachable w) by (by exists 0, [OpConfigure (Some 3000); OpSetOnCountdown]).
  destruct (countdown_ticks_when_registered w "src/auth.ts" Hreach eq_refl) as [Hpos _].
  destruct (Hpos ltac:(reflexivity) ltac:(by vm_compute) eq_refl) as [Hfirst Hticks].
  split; [exact Hfirst|]. exact (proj1 (Hticks 2000%N)).
Defined.

(** C8 as the design document states it fails, in two ways. A flush
    scheduled with a computed delay of 5000 ms while no countdown callback
    is registered invokes no countdown, at once or during the wait, also
    when a callback is registered right after the flush was scheduled. And
    with a callback registered and an interval of 3000000000 ms, more than
    the host timer honours, the countdown shows 3000000 at once, the timer
    fires after 1 ms, the flush starts and the ticker is stopped: the five
    seconds that follow show nothing. *)
Lemma scheduled_flush_without_countdown :
  let w := (run [OpConfigure (Some 5000); OpSetOnBatchReady] (loaded 0)).1 in
  let v := (run [OpConfigure (Some 3000000000); OpSetOnCountdown] (loaded 0)).1 in
  (flushTimer (queue w) = None ∧
   computeDelay (clock w) (queue w) = 5000 ∧
   (step w (OpEnqueueFile "src/auth.ts")).2 = [] ∧
   (run [OpEnqueueFile "src/auth.ts"; OpSetOnCountdown; OpAdvance 5000;
         OpDiff 0 (DiffValue (Some "diff"))] w).2 =
     [(5000, EvBatchReady ["src/auth.ts"])]) ∧
  (flushTimer (queue v) = None ∧
   computeDelay (clock v) (queue v) = 3000000000 ∧
   (run [OpEnqueueFile "src/auth.ts"; OpAdvance 5000] v).2 =
     [(0, EvCountdown 3000000)] ∧
   inFlight (run [OpEnqueueFile "src/auth.ts"; OpAdvance 5000] v).1 =
     [mkFlush "src/auth.ts" [] []] ∧
   lastReviewAt (queue (run [OpEnqueueFile "src/auth.ts"; OpAdvance 5000] v).1) = 1).
Proof. vm_compute. repeat split; reflexivity. Qed.

(** *** Fingerprints across flushes *)

Lemma lastFingerprint_app f l1 l2 :
  lastFingerprint f (l1 ++ l2) = fold_left (fingerprintStep f) l2 (lastFingerprint f l1).
Proof. unfold lastFingerprint. apply fold_left_app. Qed.

Lemma noRepeatedFingerprint_snoc log o :
  noRepeatedFingerprint log →
  (∀ f diff, o = ObsDispatch f (DiffValue (Some diff)) →
             lastFingerprint f log ≠ Some (hashDiff diff)) →
  noRepeatedFingerprint (log ++ [o]).
Proof.
  intros Hlog Ho i f diff Hi.
  destruct (decide (i < length log)%nat) as [Hlt|Hge].
  - rewrite lookup_app_l in Hi by done.
    rewrite take_app_le by lia. by apply Hlog.
  - rewrite lookup_app_r in Hi by lia.
    apply list_lookup_singleton_Some in Hi as [Hi ->].
    assert (i = length log) as -> by lia.
    rewrite take_app_length. by apply Ho.
Qed.

Lemma noRepeatedFingerprint_prefix l1 l2 :
  noRepeatedFingerprint (l1 ++ l2) → noRepeatedFingerprint l1.
Proof.
  intros Hlog i f diff Hi.
  pose proof (lookup_lt_Some _ _ _ Hi) as Hlt.
  specialize (Hlog i f diff). rewrite lookup_app_l in Hlog by done.
  rewrite take_app_le in Hlog by lia. by apply Hlog.
Qed.

(** What the timers leave alone, and the flushes they start. *)
Lemma runTimers_frame target fuel : ∀ w,
  let w' := (runTimers fuel target w).1 in
  reviewedDiffHash (queue w') = reviewedDiffHash (queue w) ∧
  onBatchReady (queue w') = onBatchReady (queue w) ∧
  ∃ started, inFlight w' = inFlight w ++ started ∧
             Forall (fun fl => toReview fl = []) started.
Proof.
  induction fuel as [|fuel IH]; intros w; cbn [runTimers].
  - split; [done|]. split; [done|]. exists []. by rewrite app_nil_r.
  - destruct (nextTimer target (queue w)) as [[[|] t]|].
    + assert (Hq : reviewedDiffHash (countdownTick (queue w)).1 = reviewedDiffHash (queue w) ∧
                   onBatchReady (countdownTick (queue w)).1 = onBatchReady (queue w)).
      { unfold countdownTick. destruct (countdownInterval (queue w)) as [[due r]|]; [|done].
        by destruct (0 <? r - 1). }
      destruct (countdownTick (queue w)) as [q evs]. cbn [fst] in Hq.
      specialize (IH (mkWorld t q (inFlight w))).
      destruct (runTimers fuel target (mkWorld t q (inFlight w))) as [w' tr].
      cbn [fst queue inFlight] in *. destruct Hq as [Hh Hon].
      destruct IH as (IHh & IHon & IHfl).
      split; [congruence|]. split; [congruence | done].
    + assert (Hq : reviewedDiffHash (flushTimerFired t (queue w)).1 = reviewedDiffHash (queue w) ∧
                   onBatchReady (flushTimerFired t (queue w)).1 = onBatchReady (queue w) ∧
                   Forall (fun fl => toReview fl = [])
                     (option_list (flushTimerFired t (queue w)).2)).
      { unfold flushTimerFired, runFlush. cbn [pendingFiles stopCountdown clearFlushTimer].
        destruct (pendingFiles (queue w)); cbn; [by split_and! | split_and!; try done].
        by apply Forall_singleton. }
      destruct (flushTimerFired t (queue w)) as [q started]. cbn [fst snd] in Hq.
      destruct Hq as (Hh & Hon & Hst).
      specialize (IH (mkWorld t q (inFlight w ++ option_list started))).
      cbn [fst queue inFlight] in *.
      destruct IH as (IHh & IHon & more & IHfl & IHmore).
      split; [congruence|]. split; [congruence|].
      exists (option_list started ++ more). rewrite IHfl, app_assoc. split; [done|].
      by apply Forall_app.
    + split; [done|]. split; [done|]. exists []. by rewrite app_nil_r.
Qed.

Lemma advance_frame dt w :
  let w' := (advance dt w).1 in
  reviewedDiffHash (queue w') = reviewedDiffHash (queue w) ∧
  onBatchReady (queue w') = onBatchReady (queue w) ∧
  ∃ started, inFlight w' = inFlight w ++ started ∧
             Forall (fun fl => toReview fl = []) started.
Proof.
  unfold advance.
  pose proof (runTimers_frame (clock w + Z.of_N dt) (timerBudget (queue w)) w) as Hr.
  by destruct (runTimers _ _ _) as [w' tr].
Qed.

Lemma upcoming_noAnswers answers started :
  upcoming (answers ++ noAnswers started) = upcoming answers.
Proof.
  unfold upcoming. rewrite flat_map_app.
  assert (Hnil : ∀ l r : list Obs, r = [] → l ++ r = l)
    by (intros l r ->; apply app_nil_r).
  apply Hnil. by induction started.
Qed.

Lemma enqueueFile_frame now f q :
  reviewedDiffHash (enqueueFile now f q).1 = reviewedDiffHash q ∧
  onBatchReady (enqueueFile now f q).1 = onBatchReady q.
Proof.
  unfold enqueueFile, scheduleFlush. cbn [flushTimer].
  destruct (flushTimer q); [done|]. by destruct (_ && _).
Qed.

(** One answer more for the flush under way keeps the agreement between
    the fingerprints and the continued log. *)
Lemma answered_agree diff fl hashes a vlog :
  (∀ f h, lastFingerprint f (vlog ++ map (fun e => ObsDispatch e.1 e.2) a) = Some h →
          hashes !! f = Some h) →
  noRepeatedFingerprint (vlog ++ map (fun e => ObsDispatch e.1 e.2) a) →
  map fst a = toReview fl →
  let '(hashes', batch) := flushStep diff (awaited fl) (hashes, toReview fl) in
  let a' := answered diff fl hashes a in
  (∀ f h, lastFingerprint f (vlog ++ map (fun e => ObsDispatch e.1 e.2) a') = Some h →
          hashes' !! f = Some h) ∧
  noRepeatedFingerprint (vlog ++ map (fun e => ObsDispatch e.1 e.2) a') ∧
  map fst a' = batch.
Proof.
  intros Hagree Hno Hfst. rewrite flushStep_verdict. unfold answered.
  destruct (verdict diff hashes (awaited fl)) as [| | |h] eqn:Ev; cbn [included];
    try done.
  - rewrite map_app, app_assoc. cbn [map fst snd].
    assert (Hd : diff = DiffThrows).
    { unfold verdict in Ev. destruct diff as [|[d|]]; try done.
      destruct (Js.falsy_string d); [done|]. by destruct (bool_decide _). }
    subst diff. split_and!.
    + intros f h. rewrite lastFingerprint_app. cbn. apply Hagree.
    + apply noRepeatedFingerprint_snoc; [done|]. intros f d [=].
    + by rewrite map_app, Hfst.
  - rewrite map_app, app_assoc. cbn [map fst snd].
    assert (Hd : ∃ d, diff = DiffValue (Some d) ∧ h = hashDiff d ∧
                      hashes !! awaited fl ≠ Some (hashDiff d)).
    { unfold verdict in Ev. destruct diff as [|[d|]]; try done.
      destruct (Js.falsy_string d); [done|]. case_bool_decide; [done|].
      injection Ev as <-. eauto. }
    destruct Hd as (d & -> & -> & Hnew). split_and!.
    + intros f h. rewrite lastFingerprint_app. cbn [fold_left fingerprintStep].
      destruct (String.eqb_spec (awaited fl) f) as [<-|Hne].
      * intros [= <-]. by rewrite lookup_insert_eq.
      * intros Hl. rewrite lookup_insert_ne by done. by apply Hagree.
    + apply noRepeatedFingerprint_snoc; [done|]. intros f d' [= <- <-].
      intros Hc. by apply Hagree in Hc.
    + by rewrite map_app, Hfst.
Qed.

(** *** The observations are those of the trace *)

Lemma dispatchesOf_app l1 l2 : dispatchesOf (l1 ++ l2) = dispatchesOf l1 ++ dispatchesOf l2.
Proof. unfold dispatchesOf. apply flat_map_app. Qed.

Lemma dispatchesOf_answers (a : Answers) :
  dispatchesOf (map (fun e => ObsDispatch e.1 e.2) a) = map fst a.
Proof. induction a as [|[f d] a IH]; [done|]. cbn. by f_equal. Qed.

Lemma answered_batch diff fl hashes a :
  map fst a = toReview fl →
  map fst (answered diff fl hashes a) =
  (flushStep diff (awaited fl) (hashes, toReview fl)).2.
Proof.
  intros Ha. rewrite flushStep_verdict. unfold answered.
  destruct (verdict diff hashes (awaited fl)); cbn [included snd];
    by rewrite ?map_app, Ha.
Qed.

(** One operation: what the observer sees are the files the trace hands
    to [onBatchReady], and the answers stay those of the batches under
    way. *)
Lemma step_observed w op answers :
  answersAligned w answers →
  dispatchesOf (observe w op answers) = dispatched (step w op).2 ∧
  answersAligned (step w op).1 (record w op answers).
Proof.
  intros Hal.
  destruct op as [[m|]| | | |g| | |dt|i diff]; cbn [step record observe fst snd];
    try (split; [reflexivity | exact Hal]).
  - unfold enqueueFile.
    match goal with |- context [scheduleFlush ?now ?q0] =>
      pose proof (scheduleFlush_dispatches_nothing now q0) as Hd;
      destruct (scheduleFlush now q0) as [q1 evs]
    end.
    cbn [fst snd] in *. by rewrite Hd.
  - destruct (advance_frame dt w) as (_ & _ & started & Hfl & Hst).
    unfold answersAligned. rewrite Hfl, drop_app_length. split.
    + unfold advance.
      pose proof (runTimers_dispatches_nothing (clock w + Z.of_N dt)
                    (timerBudget (queue w)) w) as Hd.
      by destruct (runTimers _ _ w) as [w' tr].
    + apply Forall2_app; [done|]. clear Hfl.
      induction Hst as [|fl started Hfl0 Hst IH]; cbn [noAnswers map]; constructor;
        [by rewrite Hfl0 | done].
  - unfold deliverDiff.
    destruct (inFlight w !! i) as [fl|] eqn:Ei.
    2:{ split; [done|]. by destruct (answers !! i). }
    destruct (Forall2_lookup_l _ _ _ _ _ Hal Ei) as (a & Ea & Ha).
    assert (Ea' : answers !! i = Some (a : Answers)) by exact Ea.
    rewrite Ea'. pose proof (answered_batch diff fl (reviewedDiffHash (queue w)) a Ha) as Hb.
    unfold resumeFlush.
    destruct (flushStep diff (awaited fl) (reviewedDiffHash (queue w), toReview fl))
      as [hashes batch].
    cbn [snd] in Hb. destruct (rest fl) as [|c cs]; cbn [fst snd].
    + split; [|by apply Forall2_delete].
      cbn [onBatchReady setReviewedDiffHash]. unfold announce.
      cbn [onBatchReady onBatchEmpty setReviewedDiffHash].
      destruct (onBatchReady (queue w)).
      * rewrite dispatchesOf_answers, Hb.
        destruct batch as [|b batch]; [by destruct (onBatchEmpty (queue w))|].
        cbn. by rewrite app_nil_r.
      * destruct batch; [by destruct (onBatchEmpty (queue w)) | done].
    + split; [done|]. unfold answersAligned. cbn [inFlight].
      by apply Forall2_insert.
Qed.

(** The observer sees exactly the files that the trace of the run hands
    to [onBatchReady], in order. *)
Lemma history_lists_the_dispatches ops : ∀ w answers,
  answersAligned w answers →
  dispatchesOf (history ops w answers) = dispatched (run ops w).2.
Proof.
  induction ops as [|op ops IH]; intros w answers Hal; [done|].
  cbn [history]. rewrite run_cons. cbn [snd].
  destruct (step_observed w op answers Hal) as [Hobs Hal'].
  by rewrite dispatchesOf_app, dispatched_app, Hobs, (IH _ _ Hal').
Qed.

Lemma fingerprintsAgree_frame w w' answers log :
  fingerprintsAgree w answers log →
  inFlight w' = inFlight w →
  reviewedDiffHash (queue w') = reviewedDiffHash (queue w) →
  (onBatchReady (queue w') = false → onBatchReady (queue w) = false) →
  fingerprintsAgree w' answers (log ++ []).
Proof.
  intros (Hlen & Hans & Hagree & Hno & Hoff) Hfl Hh Hon.
  rewrite app_nil_r. unfold fingerprintsAgree, answersAligned in *. rewrite Hfl, Hh.
  split_and!; try done. intros Hc. by apply Hoff, Hon.
Qed.

Lemma upcoming_singleton a :
  upcoming [a] = map (fun e : string * DiffResult => ObsDispatch e.1 e.2) a.
Proof. unfold upcoming. cbn. apply app_nil_r. Qed.

(** The invariant of a sequential run is kept by every operation that
    leaves the run sequential. *)
Lemma step_fingerprints w op answers log :
  fingerprintsAgree w answers log →
  (op = OpResetQueue → inFlight w = []) →
  (length (inFlight (step w op).1) ≤ 1)%nat →
  fingerprintsAgree (step w op).1 (record w op answers) (log ++ observe w op answers).
Proof.
  intros Hinv Hreset Hseq. unfold fingerprintsAgree, answersAligned in Hinv.
  destruct op as [[m|]| | | |g| | |dt|i diff]; cbn [step record observe fst];
    try (apply (fingerprintsAgree_frame w); done).
  - destruct (enqueueFile_frame (clock w) g (queue w)) as [Hh Hon].
    destruct (enqueueFile (clock w) g (queue w)) as [q evs]. cbn [fst] in *.
    apply (fingerprintsAgree_frame w); cbn [fst queue inFlight]; try done.
    by rewrite Hon.
  - destruct Hinv as (Hlen & Hans & Hagree & Hno & Hoff).
    specialize (Hreset eq_refl). rewrite Hreset in Hans.
    apply Forall2_nil_inv_l in Hans. subst answers.
    change (upcoming []) with (@nil Obs) in *. rewrite app_nil_r in *.
    assert (Hnone : ∀ f, lastFingerprint f (log ++ [ObsReset]) = None).
    { intros f. by rewrite lastFingerprint_app. }
    unfold fingerprintsAgree, answersAligned. cbn [queue inFlight]. rewrite Hreset.
    change (upcoming []) with (@nil Obs). rewrite app_nil_r.
    split_and!; [cbn; lia | constructor | | | done].
    + intros f h. by rewrite Hnone.
    + apply noRepeatedFingerprint_snoc; [done|]. intros f d [=].
  - destruct Hinv as (Hlen & Hans & Hagree & Hno & Hoff).
    destruct (advance_frame dt w) as (Hh & Hon & started & Hfl & Hst).
    cbn [step fst] in Hseq. rewrite app_nil_r.
    unfold fingerprintsAgree, answersAligned. rewrite Hh, Hon, Hfl, upcoming_noAnswers.
    rewrite drop_app_length.
    split_and!; try done.
    + by rewrite <- Hfl.
    + apply Forall2_app; [done|]. unfold noAnswers.
      clear Hfl Hseq.
      induction Hst as [|fl started Hfl0 Hst IH]; cbn [map]; constructor;
        [by rewrite Hfl0 | done].
  - destruct Hinv as (Hlen & Hans & Hagree & Hno & Hoff).
    unfold deliverDiff.
    destruct (inFlight w !! i) as [fl|] eqn:Ei.
    2:{ rewrite app_nil_r. by split_and!. }
    unfold answersAligned in *.
    assert (Hone : inFlight w = [fl] ∧ i = 0%nat).
    { destruct (inFlight w) as [|fl1 [|fl2 fls]]; [done| |cbn in Hlen; lia].
      destruct i; [by injection Ei as -> | done]. }
    destruct Hone as [Efl ->]. clear Ei Hseq. rewrite Efl in Hans. rewrite Efl.
    apply Forall2_cons_inv_l in Hans as (a & rest_a & Ha & Hnil & ->).
    apply Forall2_nil_inv_l in Hnil as ->.
    cbn [lookup list_lookup]. rewrite upcoming_singleton in *.
    pose proof (answered_agree diff fl (reviewedDiffHash (queue w)) a log
                  Hagree Hno Ha) as Hstep.
    unfold resumeFlush.
    destruct (flushStep diff (awaited fl) (reviewedDiffHash (queue w), toReview fl))
      as [hashes batch].
    destruct Hstep as (Hagree' & Hno' & Ha').
    destruct (rest fl) as [|c cs]; cbn [fst snd].
    + cbn [delete list_delete]. unfold fingerprintsAgree, answersAligned.
      cbn [queue inFlight reviewedDiffHash setReviewedDiffHash onBatchReady].
      change (upcoming []) with (@nil Obs). rewrite app_nil_r.
      destruct (onBatchReady (queue w)) eqn:Eon.
      * split_and!; try done; try (cbn; lia); try constructor.
      * rewrite app_nil_r. split_and!; [cbn; lia | constructor | | | done].
        -- intros f h Hl. by rewrite (Hoff eq_refl f) in Hl.
        -- by eapply noRepeatedFingerprint_prefix.
    + cbn [insert list_insert]. rewrite app_nil_r. unfold fingerprintsAgree, answersAligned.
      cbn [queue inFlight reviewedDiffHash setReviewedDiffHash onBatchReady].
      rewrite upcoming_singleton.
      split_and!; try done; try (cbn; lia). by repeat constructor.
Qed.

Lemma run_fingerprints ops : ∀ w answers log,
  fingerprintsAgree w answers log → sequential ops w →
  noRepeatedFingerprint (log ++ history ops w answers).
Proof.
  induction ops as [|op ops IH]; intros w answers log Hinv Hseq; cbn [history].
  - rewrite app_nil_r. destruct Hinv as (_ & _ & _ & Hno & _).
    by eapply noRepeatedFingerprint_prefix.
  - destruct Hseq as (Hreset & Hlen & Hseq). rewrite app_assoc.
    apply IH; [|done]. by apply step_fingerprints.
Qed.

(** C1, as the code has it. In every run of the module from its initial
    state in which no flush starts and the queue is not reset while an
    earlier flush still waits for a diff, the observer sees the files that
    are handed to [onBatchReady], and whenever a file is handed over with a
    diff, the fingerprint of that diff differs from the fingerprint the
    file was last dispatched with since the last [resetQueue]. *)
Theorem no_redispatch_with_same_fingerprint t0 ops :
  sequential ops (loaded t0) →
  dispatchesOf (history ops (loaded t0) []) = dispatched (run ops (loaded t0)).2 ∧
  ∀ l1 f diff l2,
    history ops (loaded t0) [] = l1 ++ ObsDispatch f (DiffValue (Some diff)) :: l2 →
    lastFingerprint f l1 ≠ Some (hashDiff diff).
Proof.
  intros Hseq. split; [apply history_lists_the_dispatches; constructor|].
  intros l1 f diff l2 Hsplit.
  assert (Hno : noRepeatedFingerprint ([] ++ history ops (loaded t0) [])).
  { apply run_fingerprints; [|done].
    split_and!; [cbn; lia | constructor | done | | done].
    intros i ? ? Hi. done. }
  cbn [app] in Hno. rewrite Hsplit in Hno.
  specialize (Hno (length l1) f diff).
  rewrite take_app_length in Hno. apply Hno.
  by rewrite list_lookup_middle.
Qed.

Lemma no_redispatch_with_same_fingerprint_witness :
  lastFingerprint "src/auth.ts" [ObsDispatch "src/auth.ts" (DiffValue (Some "diff v1"))]
  ≠ Some (hashDiff "diff v2").
Proof.
  refine (proj2 (no_redispatch_with_same_fingerprint 0
           [OpConfigure (Some 0); OpSetOnBatchReady;
            OpEnqueueFile "src/auth.ts"; OpAdvance 0;
            OpDiff 0 (DiffValue (Some "diff v1"));
            OpEnqueueFile "src/auth.ts"; OpAdvance 0;
            OpDiff 0 (DiffValue (Some "diff v2"))] _)
           [ObsDispatch "src/auth.ts" (DiffValue (Some "diff v1"))]
           "src/auth.ts" "diff v2" [] _).
  - vm_compute. repeat split; try discriminate; lia.
  - reflexivity.
Defined.

(** C1 as the design document states it fails, in two ways. Flushes can
    overlap: [a.ts] was dispatched with the diff v1; a flush takes [a.ts]
    and [slow.ts], fetches v2 for [a.ts], stores its fingerprint and waits
    for [slow.ts]; [a.ts] is enqueued again and a second flush fetches v1
    for it, which differs from the stored fingerprint, so [a.ts] is handed
    over with the fingerprint of its previous dispatch, and nothing was
    reset. And a reset can come while a flush waits: the flush stored the
    fingerprint of v1 for [a.ts] before the reset and hands [a.ts] over
    after it; the next flush finds no fingerprint and hands [a.ts] over
    with v1 again, with no reset between the two. *)
Lemma overlapping_flushes_repeat_a_fingerprint :
  let v1 := DiffValue (Some "diff v1") in
  let v2 := DiffValue (Some "diff v2") in
  let overlap :=
    [OpConfigure (Some 0); OpSetOnBatchReady;
     OpEnqueueFile "a.ts"; OpAdvance 0; OpDiff 0 v1;
     OpEnqueueFile "a.ts"; OpEnqueueFile "slow.ts"; OpAdvance 0; OpDiff 0 v2;
     OpEnqueueFile "a.ts"; OpAdvance 0; OpDiff 1 v1] in
  let reset :=
    [OpConfigure (Some 0); OpSetOnBatchReady;
     OpEnqueueFile "a.ts"; OpEnqueueFile "slow.ts"; OpAdvance 0; OpDiff 0 v1;
     OpResetQueue; OpConfigure (Some 0); OpSetOnBatchReady;
     OpDiff 0 (DiffValue None);
     OpEnqueueFile "a.ts"; OpAdvance 0; OpDiff 0 v1] in
  ((run overlap (loaded 0)).2 =
     [(0, EvBatchReady ["a.ts"]); (0, EvBatchReady ["a.ts"])] ∧
   history overlap (loaded 0) [] = [ObsDispatch "a.ts" v1] ++ [ObsDispatch "a.ts" v1] ∧
   inFlight (run overlap (loaded 0)).1 = [mkFlush "slow.ts" [] ["a.ts"]]) ∧
  ((run reset (loaded 0)).2 =
     [(0, EvBatchReady ["a.ts"]); (0, EvBatchReady ["a.ts"])] ∧
   history reset (loaded 0) [] =
     [ObsReset; ObsDispatch "a.ts" v1] ++ [ObsDispatch "a.ts" v1]) ∧
  lastFingerprint "a.ts" [ObsDispatch "a.ts" v1] = Some (hashDiff "diff v1") ∧
  lastFingerprint "a.ts" [ObsReset; ObsDispatch "a.ts" v1] = Some (hashDiff "diff v1").
Proof. vm_compute. repeat split; reflexivity. Qed.

(** The scenarios of the unit tests of the queue: an unchanged diff is not
    dispatched again, and it is after [resetQueue]. *)
Example unchanged_diff_is_skipped_until_reset :
  let same := DiffValue (Some "same diff") in
  (run [OpConfigure (Some 0); OpSetOnBatchReady; OpSetOnBatchEmpty;
        OpEnqueueFile "src/auth.ts"; OpAdvance 0; OpDiff 0 same;
        OpEnqueueFile "src/auth.ts"; OpAdvance 0; OpDiff 0 same;
        OpResetQueue; OpConfigure (Some 0); OpSetOnBatchReady;
        OpEnqueueFile "src/auth.ts"; OpAdvance 0; OpDiff 0 same] (loaded 0)).2 =
  [(0, EvBatchReady ["src/auth.ts"]); (0, EvBatchEmpty);
   (0, EvBatchReady ["src/auth.ts"])].
Proof. reflexivity. Qed.

(** *** Scheduling *)

Lemma scheduledIffPending_scheduleFlush now q :
  pendingFiles q ≠ [] → scheduledIffPending (scheduleFlush now q).1.
Proof.
  intros Hne. unfold scheduledIffPending.
  rewrite scheduleFlush_pending. unfold scheduleFlush.
  destruct (flushTimer q) as [d|] eqn:Ed; [cbn [fst]; rewrite Ed; by split|].
  destruct ((0 <? computeDelay now q) && onCountdown q); cbn [fst flushTimer]; by split.
Qed.

Lemma set_add_nonempty f l : set_add f l ≠ [].
Proof.
  unfold set_add. case_bool_decide as Hin.
  - intros ->. by apply not_elem_of_nil in Hin.
  - by destruct l.
Qed.

Lemma scheduledIffPending_flushTimerFired now q :
  scheduledIffPending (flushTimerFired now q).1.
Proof.
  unfold flushTimerFired, scheduledIffPending, runFlush.
  cbn [pendingFiles stopCountdown clearFlushTimer].
  by destruct (pendingFiles q) as [|f fs] eqn:Ep; [cbn; rewrite Ep|].
Qed.

Lemma scheduledIffPending_countdownTick q :
  scheduledIffPending q → scheduledIffPending (countdownTick q).1.
Proof.
  unfold countdownTick. destruct (countdownInterval q) as [[due r]|]; [|done].
  by destruct (0 <? r - 1).
Qed.

Lemma scheduledIffPending_runTimers target fuel : ∀ w,
  scheduledIffPending (queue w) →
  scheduledIffPending (queue (runTimers fuel target w).1).
Proof.
  induction fuel as [|fuel IH]; intros w Hw; [done|].
  cbn [runTimers]. destruct (nextTimer target (queue w)) as [[[|] t]|]; [| |done].
  - pose proof (scheduledIffPending_countdownTick _ Hw) as Hq.
    destruct (countdownTick (queue w)) as [q evs].
    specialize (IH (mkWorld t q (inFlight w)) Hq).
    by destruct (runTimers fuel target (mkWorld t q (inFlight w))).
  - pose proof (scheduledIffPending_flushTimerFired t (queue w)) as Hq.
    destruct (flushTimerFired t (queue w)) as [q started].
    by apply IH.
Qed.

Lemma scheduledIffPending_step w op :
  scheduledIffPending (queue w) → scheduledIffPending (queue (step w op).1).
Proof.
  intros Hw. destruct op as [[m|]| | | |f| | |dt|i diff]; try exact Hw.
  - cbn [step fst queue]. unfold enqueueFile.
    pose proof (scheduledIffPending_scheduleFlush (clock w)
      (mkQueue (minIntervalMs (queue w)) (set_add f (pendingFiles (queue w)))
         (lastReviewAt (queue w)) (reviewedDiffHash (queue w)) (flushTimer (queue w))
         (onBatchReady (queue w)) (onCountdown (queue w)) (onBatchEmpty (queue w))
         (countdownInterval (queue w))) (set_add_nonempty _ _)) as Hq.
    by destruct (scheduleFlush _ _).
  - done.
  - done.
  - cbn [step]. unfold advance.
    pose proof (scheduledIffPending_runTimers (clock w + Z.of_N dt)
                  (timerBudget (queue w)) w Hw) as Hq.
    by destruct (runTimers _ _ w).
  - cbn [step]. unfold deliverDiff. destruct (inFlight w !! i) as [fl|]; [|done].
    unfold resumeFlush. destruct (flushStep _ _ _) as [hashes batch].
    by destruct (rest fl).
Qed.

(** X2. In every state the module can be in, a flush is scheduled exactly when
    files are pending: no enqueued file is left without a timer, and no
    timer is left running with nothing to flush. *)
Theorem flush_scheduled_iff_files_pending w :
  reachable w → (flushTimer (queue w) = None ↔ pendingFiles (queue w) = []).
Proof.
  intros (t0 & ops & <-).
  change (scheduledIffPending (queue (run ops (loaded t0)).1)).
  assert (Hinit : scheduledIffPending (queue (loaded t0))) by done.
  revert Hinit. generalize (loaded t0).
  induction ops as [|op ops IH]; intros w Hw; [done|].
  cbn [run]. pose proof (scheduledIffPending_step w op Hw) as Hw1.
  destruct (step w op) as [w1 tr1]. specialize (IH w1 Hw1).
  by destruct (run ops w1).
Qed.

Lemma flush_scheduled_iff_files_pending_witness :
  let w := (run [OpEnqueueFile "a.ts"; OpCancelPending; OpEnqueueFile "b.ts"]
              (loaded 0)).1 in
  flushTimer (queue w) = Some 30000 ∧ pendingFiles (queue w) = ["b.ts"] ∧
  (flushTimer (queue w) = None ↔ pendingFiles (queue w) = []).
Proof.
  intros w. split; [reflexivity|]. split; [reflexivity|].
  apply (flush_scheduled_iff_files_pending w).
  exists 0, [OpEnqueueFile "a.ts"; OpCancelPending; OpEnqueueFile "b.ts"]. reflexivity.
Defined.

Lemma nextTimer_none_flush target q d :
  nextTimer target q = None → flushTimer q = Some d → target < d.
Proof.
  unfold nextTimer. intros Hnone Hd. rewrite Hd in Hnone.
  destruct (countdownInterval q) as [[ti r]|].
  - destruct (ti <=? d) eqn:E1.
    + destruct (ti <=? target) eqn:E2; [done|]. lia.
    + destruct (d <=? target) eqn:E2; [done|]. lia.
  - destruct (d <=? target) eqn:E2; [done|]. lia.
Qed.

Lemma countdownTick_keeps q :
  flushTimer (countdownTick q).1 = flushTimer q ∧
  onBatchReady (countdownTick q).1 = onBatchReady q ∧
  onBatchEmpty (countdownTick q).1 = onBatchEmpty q ∧
  reviewedDiffHash (countdownTick q).1 = reviewedDiffHash q.
Proof.
  unfold countdownTick. destruct (countdownInterval q) as [[due r]|]; [|done].
  by destruct (0 <? r - 1).
Qed.

(** Once the clock reaches the due time of the scheduled flush, the flush
    starts: it takes the pending files, records the time and waits for the
    diff of the first of them. *)
Lemma runTimers_starts target d c cs fuel : ∀ w,
  (timerBudget (queue w) ≤ fuel)%nat → flushTimer (queue w) = Some d → d ≤ target →
  pendingFiles (queue w) = c :: cs →
  let w' := (runTimers fuel target w).1 in
  inFlight w' = inFlight w ++ [mkFlush c cs []] ∧
  lastReviewAt (queue w') = d ∧
  onBatchReady (queue w') = onBatchReady (queue w) ∧
  reviewedDiffHash (queue w') = reviewedDiffHash (queue w).
Proof.
  induction fuel as [|fuel IH]; intros w Hfuel Hd Hdue Hp.
  { unfold timerBudget in Hfuel. rewrite Hd in Hfuel. lia. }
  cbn [runTimers]. destruct (nextTimer target (queue w)) as [[[|] t]|] eqn:Enext.
  - destruct (nextTimer_interval _ _ _ Enext) as (r & Hint & _).
    pose proof (timerBudget_countdownTick _ _ _ Hint) as Hbudget.
    pose proof (countdownTick_keeps (queue w)) as (Hk1 & Hk2 & _ & Hk3).
    pose proof (countdownTick_pending (queue w)) as Hk4.
    destruct (countdownTick (queue w)) as [q evs]. cbn [fst] in *.
    specialize (IH (mkWorld t q (inFlight w))). cbn [queue inFlight] in IH.
    destruct (runTimers fuel target (mkWorld t q (inFlight w))) as [w' tr].
    cbn [fst] in *. rewrite <- Hk2, <- Hk3.
    apply IH; [lia | congruence | done | congruence].
  - apply nextTimer_flush in Enext as [Ht _].
    assert (t = d) as -> by congruence.
    unfold flushTimerFired, runFlush.
    cbn [pendingFiles stopCountdown clearFlushTimer]. rewrite Hp.
    rewrite runTimers_no_timers by done. done.
  - pose proof (nextTimer_none_flush _ _ _ Enext Hd). lia.
Qed.

Lemma timeoutDelay_honoured delay :
  delay ≤ Js.TIMEOUT_MAX → Js.timeoutDelay delay = delay.
Proof.
  intros Hd. unfold Js.timeoutDelay.
  by assert ((Js.TIMEOUT_MAX <? delay) = false) as -> by (apply Z.ltb_ge; lia).
Qed.

(** X3. Liveness of the queue. With [onBatchReady] registered, a file is
    enqueued whose diff will be new or cannot be fetched. Once the clock
    reaches the due time [d] of the scheduled flush, the flush starts, at
    [d]; and when the diffs it asks for have arrived (here at the end of
    the wait, with nothing in between), [onBatchReady] receives a batch
    with that file. For an idle queue the due time is the delay
    [max(0, minIntervalMs - (now - lastReviewAt))] after the enqueue, as the
    host timer honours it. *)
Theorem enqueued_file_is_dispatched w f dt git d :
  let w1 := (step w (OpEnqueueFile f)).1 in
  let w2 := (step w1 (OpAdvance dt)).1 in
  let arrivals := deliveries git (length (inFlight w)) (pendingFiles (queue w1)) in
  onBatchReady (queue w) = true →
  included (classify git (reviewedDiffHash (queue w)) f) = true →
  flushTimer (queue w1) = Some d → d ≤ clock w + Z.of_N dt →
  lastReviewAt (queue w2) = d ∧
  (∃ batch, (run arrivals w2).2 = [(clock w + Z.of_N dt, EvBatchReady batch)] ∧
            f ∈ batch) ∧
  (flushTimer (queue w) = None →
   d = clock w + Js.timeoutDelay (computeDelay (clock w) (queue w))).
Proof.
  intros w1 w2 arrivals Hon Hincl Hd Hdue.
  assert (Hw1 : clock w1 = clock w ∧ inFlight w1 = inFlight w ∧
                f ∈ pendingFiles (queue w1) ∧
                onBatchReady (queue w1) = onBatchReady (queue w) ∧
                reviewedDiffHash (queue w1) = reviewedDiffHash (queue w) ∧
                (flushTimer (queue w) = None →
                 flushTimer (queue w1) =
                   Some (clock w + Js.timeoutDelay (computeDelay (clock w) (queue w))))).
  { subst w1. cbn [step]. unfold enqueueFile.
    match goal with |- context [scheduleFlush ?now ?q0] =>
      pose proof (scheduleFlush_pending now q0) as Hp;
      assert (Hs : onBatchReady (scheduleFlush now q0).1 = onBatchReady q0 ∧
                   reviewedDiffHash (scheduleFlush now q0).1 = reviewedDiffHash q0 ∧
                   (flushTimer q0 = None →
                    flushTimer (scheduleFlush now q0).1 =
                      Some (now + Js.timeoutDelay (computeDelay now q0))));
      [unfold scheduleFlush; destruct (flushTimer q0);
       [done | by destruct ((0 <? computeDelay now q0) && onCountdown q0)]|];
      destruct (scheduleFlush now q0) as [q1 evs]
    end.
    cbn [fst snd queue clock inFlight pendingFiles onBatchReady reviewedDiffHash
         flushTimer] in *.
    destruct Hs as (Hs1 & Hs2 & Hs3). split_and!; [done | done | | done | done | exact Hs3].
    rewrite Hp. apply set_add_elem. by right. }
  destruct Hw1 as (Hc & Hfl & Hf & Hon1 & Hh & Hidle).
  destruct (pendingFiles (queue w1)) as [|c cs] eqn:Ep; [by apply not_elem_of_nil in Hf|].
  destruct (runTimers_starts (clock w1 + Z.of_N dt) d c cs (timerBudget (queue w1)) w1)
    as (Hstart & Hlast & Hon2 & Hh2); [lia | done | lia | done |].
  assert (Hw2 : w2 = mkWorld (clock w + Z.of_N dt) (queue w2)
                       (inFlight w ++ [mkFlush c cs []]) ∧
                lastReviewAt (queue w2) = d ∧ onBatchReady (queue w2) = true ∧
                reviewedDiffHash (queue w2) = reviewedDiffHash (queue w)).
  { subst w2. cbn [step]. unfold advance.
    destruct (runTimers _ _ w1) as [w' tr]. cbn [fst queue inFlight] in *.
    rewrite Hc, Hstart, Hfl. split_and!; [done | done | congruence | congruence]. }
  destruct Hw2 as (Hw2 & Hlast2 & Hon3 & Hh3).
  split; [done|]. split.
  - subst arrivals. rewrite Hw2, run_deliveries.
    pose proof (flushLoop_spec git (c :: cs) (reviewedDiffHash (queue w))) as Hspec.
    unfold flushLoop in Hspec. rewrite Hh3.
    destruct (fold_left _ (c :: cs) _) as [hashes batch].
    destruct Hspec as [Hmem _]. cbn [snd].
    assert (Hin : f ∈ batch) by by apply Hmem.
    exists batch. split; [|done]. unfold announce. rewrite Hon3.
    by destruct batch; [apply not_elem_of_nil in Hin|].
  - intros Hnone. specialize (Hidle Hnone). congruence.
Qed.

Lemma enqueued_file_is_dispatched_witness :
  let w := mkWorld 1000 (setOnBatchReady (configure (Some 5000) initial)) [] in
  let w2 := (run [OpEnqueueFile "src/auth.ts"; OpAdvance 4500] w).1 in
  lastReviewAt (queue w2) = 5000 ∧
  ∃ batch,
    (run [OpDiff 0 DiffThrows] w2).2 = [(5500, EvBatchReady batch)] ∧
    "src/auth.ts" ∈ batch.
Proof.
  intros w w2.
  destruct (enqueued_file_is_dispatched w "src/auth.ts" 4500
              (gitOf [("src/auth.ts", DiffThrows)]) 5000
              eq_refl eq_refl eq_refl ltac:(simpl; lia)) as (Hstart & Hbatch & _).
  split; [exact Hstart | exact Hbatch].
Defined.

(** X4. [resetQueue] forgets what was dispatched, the interval and the
    callbacks. Whatever the queue went through, flushes still in flight
    included, after a reset and with [onBatchReady] registered again a file
    that is enqueued is taken by a new flush once the remainder of the
    default 30 s, counted from the epoch, is over, and if its diff is not
    empty it is handed over alone when that diff arrives, provided nothing
    else happened meanwhile. *)
Theorem reset_forgets_fingerprints w f diff dt :
  diff ≠ EmptyString → 0 ≤ clock w →
  Z.max 0 (30000 - clock w) ≤ Z.of_N dt →
  (run [OpResetQueue; OpSetOnBatchReady; OpEnqueueFile f; OpAdvance dt;
        OpDiff (length (inFlight w)) (DiffValue (Some diff))] w).2 =
    [(clock w + Z.of_N dt, EvBatchReady [f])].
Proof.
  intros Hne Hclock Hdt. cbn [run step app].
  change (resetQueue (queue w)) with initial.
  unfold enqueueFile. cbn -[Z.max Z.add Z.sub Z.of_N Z.ltb Js.timeoutDelay].
  rewrite andb_false_r. cbn -[Z.max Z.add Z.sub Z.of_N Z.ltb Js.timeoutDelay].
  unfold advance. cbn -[Z.max Z.add Z.sub Z.of_N Z.ltb Z.leb runTimers Js.timeoutDelay].
  unfold computeDelay. cbn [minIntervalMs lastReviewAt]. rewrite Z.sub_0_r.
  rewrite timeoutDelay_honoured by (unfold Js.TIMEOUT_MAX; lia).
  assert (Hset : set_add f [] = [f]).
  { unfold set_add. rewrite bool_decide_eq_false_2; [done | apply not_elem_of_nil]. }
  rewrite Hset. cbn [runTimers nextTimer queue countdownInterval flushTimer].
  destruct (clock w + Z.max 0 (30000 - clock w) <=? clock w + Z.of_N dt) eqn:E;
    [|apply Z.leb_gt in E; lia].
  unfold flushTimerFired, runFlush. cbn [pendingFiles stopCountdown clearFlushTimer].
  unfold deliverDiff.
  cbn [fst snd queue inFlight clock]. unfold option_list. cbn [option_rect].
  rewrite list_lookup_middle by done.
  unfold resumeFlush. cbn [awaited rest toReview flushStep reviewedDiffHash
    stopCountdown clearFlushTimer].
  destruct (Js.falsy_string diff) eqn:Ef; [by destruct diff|].
  rewrite lookup_empty. rewrite bool_decide_eq_false_2 by done. reflexivity.
Qed.

Lemma reset_forgets_fingerprints_witness :
  let same := DiffValue (Some "same diff") in
  let w := (run [OpConfigure (Some 0); OpSetOnBatchReady; OpEnqueueFile "src/auth.ts";
                 OpAdvance 0; OpDiff 0 same] (loaded 40000)).1 in
  reviewedDiffHash (queue w) !! "src/auth.ts" = Some (hashDiff "same diff") ∧
  (run [OpResetQueue; OpSetOnBatchReady; OpEnqueueFile "src/auth.ts"; OpAdvance 0;
        OpDiff 0 same] w).2 =
    [(40000, EvBatchReady ["src/auth.ts"])].
Proof.
  intros same w. split; [reflexivity|].
  exact (reset_forgets_fingerprints w "src/auth.ts" "same diff" 0
           ltac:(discriminate) ltac:(by vm_compute) ltac:(by vm_compute)).
Defined.

(** A flush that was in flight when the queue was reset is not forgotten:
    it goes on after the reset, writes its fingerprint into the cleared map
    and uses the callback registered since. Here its diff arrives after the
    file was enqueued again, and the new flush then finds the diff
    unchanged. *)
Example stale_flush_outlives_reset :
  let same := DiffValue (Some "same diff") in
  (run [OpConfigure (Some 0); OpSetOnBatchReady; OpSetOnBatchEmpty;
        OpEnqueueFile "src/auth.ts"; OpAdvance 0;
        OpResetQueue; OpConfigure (Some 0); OpSetOnBatchReady; OpSetOnBatchEmpty;
        OpEnqueueFile "src/auth.ts"; OpAdvance 0;
        OpDiff 0 same; OpDiff 0 same] (loaded 40000)).2 =
  [(40000, EvBatchReady ["src/auth.ts"]); (40000, EvBatchEmpty)].
Proof. reflexivity. Qed.

(** *** Pacing *)

Lemma spaced_snoc m ts t :
  spaced m ts → (∀ t', last ts = Some t' → t' + m ≤ t) → spaced m (ts ++ [t]).
Proof.
  induction ts as [|t1 ts IH]; intros Hsp Hlast; [done|].
  destruct ts as [|t2 ts].
  - cbn. split; [|done]. by apply Hlast.
  - destruct Hsp as [H12 Hsp]. change ((t1 :: t2 :: ts) ++ [t]) with (t1 :: (t2 :: ts) ++ [t]).
    cbn [app]. split; [done|]. apply IH; [done|]. intros t' Ht'. by apply Hlast.
Qed.

Lemma paced_countdownTick m now q ts :
  paced m now q ts → paced m now (countdownTick q).1 ts.
Proof.
  unfold countdownTick. destruct (countdownInterval q) as [[due r]|]; [|done].
  by destruct (0 <? r - 1).
Qed.

(** When the flush timer fires the flush starts at the due time, which is
    at least [m] after the start of the flush before; with nothing pending
    no flush starts and nothing changes. *)
Lemma paced_flushTimerFired m now q ts d :
  0 ≤ m → paced m now q ts → flushTimer q = Some d → d ≤ now →
  let '(q', started) := flushTimerFired d q in
  match started with
  | Some _ => lastReviewAt q' = d ∧ paced m now q' (ts ++ [d])
  | None => paced m now q' ts
  end.
Proof.
  intros Hm (Hmin & Hnow & Htimer & Hsp & Hlast) Hd Hdue.
  unfold flushTimerFired, runFlush. cbn [pendingFiles stopCountdown clearFlushTimer].
  specialize (Htimer d Hd).
  destruct (pendingFiles q) as [|c cs].
  - by split_and!.
  - split; [done|]. split_and!; cbn; try done.
    + apply spaced_snoc; [done|]. intros t' Ht'. specialize (Hlast t' Ht'). lia.
    + intros t. rewrite last_snoc. by intros [= ->].
Qed.

Lemma paced_runTimers m target fuel : ∀ w ts,
  0 ≤ m → paced m target (queue w) ts →
  let w' := (runTimers fuel target w).1 in
  (inFlight w' = inFlight w ∧ paced m target (queue w') ts) ∨
  (∃ fl, inFlight w' = inFlight w ++ [fl] ∧
         paced m target (queue w') (ts ++ [lastReviewAt (queue w')])).
Proof.
  induction fuel as [|fuel IH]; intros w ts Hm Hp; cbn [runTimers]; [by left|].
  destruct (nextTimer target (queue w)) as [[[|] t]|] eqn:Enext; [| |by left].
  - pose proof (paced_countdownTick m target _ ts Hp) as Hp'.
    destruct (countdownTick (queue w)) as [q evs]. cbn [fst] in Hp'.
    specialize (IH (mkWorld t q (inFlight w)) ts Hm Hp').
    by destruct (runTimers fuel target (mkWorld t q (inFlight w))) as [w' tr].
  - apply nextTimer_flush in Enext as [Ht Hdue].
    pose proof (paced_flushTimerFired m target (queue w) ts t Hm Hp Ht Hdue) as Hp'.
    pose proof (runFlush_timers t (stopCountdown (clearFlushTimer (queue w)))) as [E1 E2].
    fold (flushTimerFired t (queue w)) in E1, E2.
    destruct (flushTimerFired t (queue w)) as [q started]. cbn [fst] in E1, E2.
    rewrite runTimers_no_timers by (cbn [queue]; by rewrite ?E1, ?E2).
    cbn [fst queue inFlight]. destruct started as [fl|].
    + right. exists fl. destruct Hp' as [-> Hp']. by split.
    + left. cbn [option_list]. by rewrite app_nil_r.
Qed.

Lemma paced_scheduleFlush m now q ts :
  0 ≤ m ≤ Js.TIMEOUT_MAX → paced m now q ts → paced m now (scheduleFlush now q).1 ts.
Proof.
  intros Hm (Hmin & Hnow & Htimer & Hsp & Hlast). unfold scheduleFlush.
  destruct (flushTimer q) as [d|] eqn:Ed.
  { cbn [fst]. split_and!; try done. by rewrite Ed. }
  assert (Hdelay : lastReviewAt q + m ≤ now + Js.timeoutDelay (computeDelay now q)).
  { unfold computeDelay. rewrite Hmin. rewrite timeoutDelay_honoured; lia. }
  destruct (_ && _); (split_and!; cbn; try done; by intros d' [= <-]).
Qed.

Lemma length_deliverDiff i diff w :
  (length (inFlight (deliverDiff i diff w).1) ≤ length (inFlight w))%nat.
Proof.
  unfold deliverDiff. destruct (inFlight w !! i) as [fl|] eqn:Ei; [|done].
  destruct (resumeFlush diff fl (queue w)) as [[q next] evs]. cbn [fst inFlight].
  destruct next.
  - by rewrite length_insert.
  - rewrite length_delete; [lia | by rewrite Ei].
Qed.

Lemma paced_resumeFlush m now diff fl q ts :
  paced m now q ts → paced m now (resumeFlush diff fl q).1.1 ts.
Proof.
  intros Hp. unfold resumeFlush. destruct (flushStep _ _ _) as [hashes batch].
  by destruct (rest fl).
Qed.

Lemma paced_later m now now' q ts : now ≤ now' → paced m now q ts → paced m now' q ts.
Proof. intros Hle (? & ? & ? & ? & ?). split_and!; try done. lia. Qed.

Lemma paced_step m w op ts :
  0 ≤ m ≤ Js.TIMEOUT_MAX → keepsInterval op → paced m (clock w) (queue w) ts →
  paced m (clock (step w op).1) (queue (step w op).1) (ts ++ flushStarts [op] w).
Proof.
  intros Hm Hop Hp. cbn [flushStarts]. rewrite app_nil_r.
  destruct op as [[c|]| | | |f| | |dt|i diff]; try done; cbn [step].
  1-3: by rewrite Nat.ltb_irrefl, app_nil_r.
  - unfold enqueueFile.
    match goal with |- context [scheduleFlush ?now ?q0] =>
      pose proof (paced_scheduleFlush m now q0 ts Hm) as Hq;
      destruct (scheduleFlush now q0) as [q1 evs]
    end.
    cbn [fst clock queue inFlight]. rewrite Nat.ltb_irrefl, app_nil_r. by apply Hq.
  - cbn [fst clock queue inFlight]. rewrite Nat.ltb_irrefl, app_nil_r.
    destruct Hp as (? & ? & ? & ? & ?). by split_and!.
  - unfold advance.
    assert (Hpt : paced m (clock w + Z.of_N dt) (queue w) ts)
      by (apply (paced_later m (clock w)); [lia | done]).
    pose proof (paced_runTimers m (clock w + Z.of_N dt) (timerBudget (queue w)) w ts
                  ltac:(lia) Hpt) as Hr.
    destruct (runTimers _ _ w) as [w' tr]. cbn [fst clock queue inFlight] in *.
    destruct Hr as [[-> Hr]|(fl & -> & Hr)].
    + by rewrite Nat.ltb_irrefl, app_nil_r.
    + rewrite length_app. cbn [length].
      by assert ((length (inFlight w) <? length (inFlight w) + 1)%nat = true) as ->
        by (apply Nat.ltb_lt; lia).
  - pose proof (length_deliverDiff i diff w) as Hlen.
    assert ((length (inFlight w) <? length (inFlight (deliverDiff i diff w).1))%nat = false)
      as -> by (apply Nat.ltb_ge; lia).
    rewrite app_nil_r. unfold deliverDiff.
    destruct (inFlight w !! i) as [fl|]; [|done].
    pose proof (paced_resumeFlush m (clock w) diff fl _ ts Hp) as Hq.
    by destruct (resumeFlush diff fl (queue w)) as [[q next] evs].
Qed.

Lemma flushStarts_cons op ops w :
  flushStarts (op :: ops) w = flushStarts [op] w ++ flushStarts ops (step w op).1.
Proof. cbn [flushStarts]. by rewrite app_nil_r. Qed.

Lemma paced_run m ops : ∀ w ts,
  0 ≤ m ≤ Js.TIMEOUT_MAX → Forall keepsInterval ops →
  paced m (clock w) (queue w) ts →
  spaced m (ts ++ flushStarts ops w).
Proof.
  induction ops as [|op ops IH]; intros w ts Hm Hops Hp.
  - rewrite app_nil_r. by destruct Hp as (_ & _ & _ & ? & _).
  - apply Forall_cons in Hops as [Hop Hops].
    rewrite flushStarts_cons, app_assoc. apply IH; [done | done |].
    by apply paced_step.
Qed.

(** X1. Rate limiting. After [resetQueue] and
    [configure({ minIntervalMs: m })], for an interval the host timer
    honours and as long as the host only registers callbacks, enqueues
    files, cancels and lets time pass, while diffs arrive in any order, any
    two consecutive flushes start at least [m] milliseconds apart. *)
Theorem flushes_start_minInterval_apart q fls t0 m ops :
  0 ≤ t0 → 0 ≤ m ≤ Js.TIMEOUT_MAX → Forall keepsInterval ops →
  spaced m (flushStarts ops (mkWorld t0 (configure (Some m) (resetQueue q)) fls)).
Proof.
  intros Ht0 Hm Hops.
  apply (paced_run m ops _ [] Hm Hops).
  split_and!; cbn; try done.
Qed.

Lemma flushes_start_minInterval_apart_witness :
  let ops := [OpSetOnBatchReady; OpEnqueueFile "a.ts"; OpAdvance 1000;
              OpEnqueueFile "b.ts"; OpAdvance 900;
              OpDiff 0 (DiffValue (Some "diff-a"));
              OpAdvance 110; OpDiff 0 (DiffValue (Some "diff-b"))] in
  let w := mkWorld 0 (configure (Some 1000) (resetQueue initial)) [] in
  flushStarts ops w = [1000; 2000] ∧
  (run ops w).2 = [(1900, EvBatchReady ["a.ts"]); (2010, EvBatchReady ["b.ts"])] ∧
  spaced 1000 (flushStarts ops w).
Proof.
  intros ops w. split; [reflexivity|]. split; [reflexivity|].
  apply (flushes_start_minInterval_apart initial [] 0 1000 ops);
    [lia | by vm_compute |].
  repeat (apply Forall_cons; split; [exact I|]). apply Forall_nil_2.
Defined.

(** The interval is between the starts of the flushes, not between the
    batches, and only for an interval the host timer honours: with
    3000000000 ms configured a flush that starts at 1 is followed by one
    that starts at 2. *)
Example interval_beyond_the_host_timer :
  let ops := [OpEnqueueFile "a.ts"; OpAdvance 1; OpEnqueueFile "b.ts"; OpAdvance 1] in
  flushStarts ops (mkWorld 0 (configure (Some 3000000000) (resetQueue initial)) []) =
    [1; 2].
Proof. reflexivity. Qed.

(** *** Fingerprints *)

Lemma value36_digit36 d : 0 ≤ d < 36 → value36 (Js.digit36 d) = d.
Proof.
  intros Hd. rewrite <- (Z2Nat.id d) by lia.
  assert (Hn : (Z.to_nat d < 36)%nat) by lia. revert Hn. generalize (Z.to_nat d).
  intros n Hn. do 36 (destruct n as [|n]; [reflexivity|]). lia.
Qed.

Lemma parse36_digits36 fuel : ∀ n acc,
  0 ≤ n < 36 ^ Z.of_nat fuel →
  ∃ k, 0 ≤ k ∧ ∀ a, parse36 (Js.digits36 fuel n acc) a = parse36 acc (a * 36 ^ k + n).
Proof.
  induction fuel as [|fuel IH]; intros n acc Hn.
  { exists 0. split; [lia|]. intros a. cbn [Js.digits36]. f_equal.
    change (36 ^ Z.of_nat 0) with 1 in Hn. lia. }
  cbn [Js.digits36]. destruct (n <=? 0) eqn:E.
  { apply Z.leb_le in E. exists 0. split; [lia|]. intros a. f_equal. lia. }
  apply Z.leb_gt in E. rewrite Nat2Z.inj_succ, Z.pow_succ_r in Hn by lia.
  pose proof (Z.mod_pos_bound n 36 ltac:(lia)) as Hmod.
  pose proof (Z.div_mod n 36 ltac:(lia)) as Hdm.
  destruct (IH (n / 36) (String (Js.digit36 (n mod 36)) acc)) as (k & Hk & Hparse).
  { split; [apply Z.div_pos; lia | apply Z.div_lt_upper_bound; lia]. }
  exists (k + 1). split; [lia|]. intros a. rewrite Hparse. cbn [parse36].
  rewrite value36_digit36 by done. f_equal. rewrite Z.pow_add_r by lia. lia.
Qed.

Lemma parse36_toString36 n : 0 ≤ n < 4294967296 → parse36 (Js.toString36 n) 0 = n.
Proof.
  intros Hn. unfold Js.toString36. destruct (n <=? 0) eqn:E.
  { apply Z.leb_le in E. assert (n = 0) as -> by lia. reflexivity. }
  destruct (parse36_digits36 7 n EmptyString) as (k & _ & Hparse).
  { change (36 ^ Z.of_nat 7) with 78364164096. lia. }
  rewrite Hparse. cbn [parse36]. lia.
Qed.

Lemma length_digits36 fuel : ∀ n acc,
  (String.length (Js.digits36 fuel n acc) ≤ fuel + String.length acc)%nat ∧
  (0 < n → (0 < fuel)%nat →
   (String.length acc < String.length (Js.digits36 fuel n acc))%nat).
Proof.
  induction fuel as [|fuel IH]; intros n acc; [cbn; lia|].
  cbn [Js.digits36]. destruct (n <=? 0) eqn:E.
  { apply Z.leb_le in E. lia. }
  destruct (IH (n / 36) (String (Js.digit36 (n mod 36)) acc)) as [Hle _].
  cbn [String.length] in Hle. split; [lia|]. intros _ _.
  assert (Hmono : ∀ f m a, (String.length a ≤ String.length (Js.digits36 f m a))%nat).
  { clear. induction f as [|f IHf]; intros m a; [done|]. cbn [Js.digits36].
    destruct (m <=? 0); [done|].
    specialize (IHf (m / 36) (String (Js.digit36 (m mod 36)) a)).
    cbn [String.length] in IHf. lia. }
  specialize (Hmono fuel (n / 36) (String (Js.digit36 (n mod 36)) acc)).
  cbn [String.length] in Hmono. lia.
Qed.

(** X5. The fingerprint of a diff is its unsigned 32-bit hash printed in base
    36, which loses nothing: two diffs have the same fingerprint exactly
    when their hashes are equal; and a fingerprint has between 1 and 7
    characters. *)
Theorem fingerprints_agree_iff_hashes_agree a b :
  (hashDiff a = hashDiff b ↔ hash32 a = hash32 b) ∧
  (1 ≤ String.length (hashDiff a) ≤ 7)%nat.
Proof.
  assert (Hrange : ∀ s, 0 ≤ hash32 s < 4294967296).
  { intros s. unfold hash32, Js.ushr0. apply Z.mod_pos_bound. lia. }
  split.
  - split; [|by intros Heq; unfold hashDiff; fold (hash32 a); fold (hash32 b); rewrite Heq].
    intros Heq. unfold hashDiff in Heq. fold (hash32 a) in Heq. fold (hash32 b) in Heq.
    rewrite <- (parse36_toString36 (hash32 a)), <- (parse36_toString36 (hash32 b)) by done.
    by rewrite Heq.
  - unfold hashDiff. fold (hash32 a). unfold Js.toString36.
    destruct (hash32 a <=? 0) eqn:E; [cbn; lia|]. apply Z.leb_gt in E.
    destruct (length_digits36 7 (hash32 a) EmptyString) as [Hle Hlt].
    specialize (Hlt E ltac:(lia)). cbn [String.length] in *. lia.
Qed.

Example fingerprint_of_the_empty_diff : hashDiff EmptyString = "45h" ∧ hash32 EmptyString = 5381.
Proof. split; reflexivity. Qed.

End QueueFacts.

(** * JSON.parse inverts JSON.stringify *)

Module JsonFacts.

Import Json JsonSpec.

(** *** Strings *)

Lemma append_cons x (a b : string) : String x a +:+ b = String x (a +:+ b).
Proof. reflexivity. Qed.

Lemma append_nil_l (b : string) : EmptyString +:+ b = b.
Proof. reflexivity. Qed.

Lemma append_assoc (a b c : string) : (a +:+ b) +:+ c = a +:+ (b +:+ c).
Proof.
  induction a as [|x a IH]; [done|]. rewrite !append_cons. by rewrite IH.
Qed.

Lemma append_nil_r (a : string) : a +:+ EmptyString = a.
Proof. induction a as [|x a IH]; [done|]. rewrite append_cons. by rewrite IH. Qed.

Lemma length_append (a b : string) :
  String.length (a +:+ b) = (String.length a + String.length b)%nat.
Proof.
  induction a as [|x a IH]; [done|]. rewrite append_cons. simpl. by rewrite IH.
Qed.

(** One quoted character reads back as itself. *)
Lemma parseStringBody_quoteChar c rest :
  parseStringBody (quoteChar c +:+ rest) =
  match parseStringBody rest with
  | Some (t, rest') => Some (String c t, rest')
  | None => None
  end.
Proof.
  destruct c as [[|] [|] [|] [|] [|] [|] [|] [|]]; reflexivity.
Qed.

Lemma parseStringBody_quoteBody s rest :
  parseStringBody (quoteBody s +:+ String dquote rest) = Some (s, rest).
Proof.
  induction s as [|c s IH]; [done|].
  cbn [quoteBody]. rewrite append_assoc, parseStringBody_quoteChar. by rewrite IH.
Qed.

Lemma quoteString_unfold s rest :
  quoteString s +:+ rest = String dquote (quoteBody s +:+ String dquote rest).
Proof. unfold quoteString, str1. by rewrite append_cons, append_assoc. Qed.

(** *** Numbers *)

Lemma digit_cases (d : N) :
  (d < 10)%N →
  d = 0%N ∨ d = 1%N ∨ d = 2%N ∨ d = 3%N ∨ d = 4%N ∨ d = 5%N ∨ d = 6%N ∨
  d = 7%N ∨ d = 8%N ∨ d = 9%N.
Proof. lia. Qed.

Lemma readDigits_digitChar d rest a c :
  (d < 10)%N →
  readDigits (String (digitChar d) rest) a c = readDigits rest (10 * a + d)%N (S c).
Proof.
  intros Hd. destruct (digit_cases d Hd) as [->|[->|[->|[->|[->|[->|[->|[->|[->| ->]]]]]]]]];
    reflexivity.
Qed.

Lemma digitsOf_acc fuel : ∀ n acc,
  digitsOf fuel n acc = digitsOf fuel n EmptyString +:+ acc.
Proof.
  induction fuel as [|fuel IH]; intros n acc; [done|].
  cbn [digitsOf]. destruct (n <? 10)%N; [done|].
  rewrite IH. rewrite (IH _ (String _ EmptyString)).
  by rewrite append_assoc.
Qed.

Lemma padDigits_acc k : ∀ n acc,
  padDigits k n acc = padDigits k n EmptyString +:+ acc.
Proof.
  induction k as [|k IH]; intros n acc; [done|].
  cbn [padDigits]. rewrite IH. rewrite (IH _ (String _ EmptyString)).
  by rewrite append_assoc.
Qed.

Lemma readDigits_digitsOf fuel : ∀ n,
  (n < 10 ^ N.of_nat fuel)%N →
  ∃ k j, ∀ acc a c,
    readDigits (digitsOf fuel n acc) a c = readDigits acc (a * 10 ^ k + n)%N (j + c)%nat.
Proof.
  induction fuel as [|fuel IH]; intros n Hn.
  - exists 0%N, O. intros acc a c. simpl in Hn. assert (n = 0%N) as -> by lia.
    cbn [digitsOf]. f_equal. lia.
  - rewrite Nat2N.inj_succ, N.pow_succ_r' in Hn.
    pose proof (N.mod_lt n 10 ltac:(lia)) as Hmod.
    pose proof (N.div_mod n 10 ltac:(lia)) as Hdm.
    cbn [digitsOf]. destruct (n <? 10)%N eqn:E.
    + apply N.ltb_lt in E. exists 1%N, 1%nat. intros acc a c.
      rewrite readDigits_digitChar by done. f_equal.
      rewrite N.mod_small by done. lia.
    + apply N.ltb_ge in E.
      destruct (IH (n / 10)%N) as (k & j & Hk).
      { apply N.Div0.div_lt_upper_bound. lia. }
      exists (N.succ k), (S j). intros acc a c.
      rewrite Hk, readDigits_digitChar by done.
      f_equal; rewrite ?N.pow_succ_r'; lia.
Qed.

Lemma readDigits_padDigits k : ∀ n acc a c,
  readDigits (padDigits k n acc) a c =
  readDigits acc (a * 10 ^ N.of_nat k + n mod 10 ^ N.of_nat k)%N (k + c)%nat.
Proof.
  induction k as [|k IH]; intros n acc a c.
  - cbn [padDigits]. f_equal. change (10 ^ N.of_nat 0)%N with 1%N.
    rewrite N.mod_1_r. lia.
  - cbn [padDigits]. rewrite IH.
    pose proof (N.mod_lt n 10 ltac:(lia)) as Hmod.
    rewrite readDigits_digitChar by done.
    f_equal; rewrite ?Nat2N.inj_succ, ?N.pow_succ_r', ?(N.Div0.mod_mul_r n 10); lia.
Qed.

Lemma digitsOf_head fuel : ∀ n acc,
  (0 < n)%N → (n < 10 ^ N.of_nat fuel)%N →
  ∃ c r, digitsOf fuel n acc = String c r ∧ isDigit c = true ∧ Ascii.eqb c "0" = false.
Proof.
  induction fuel as [|fuel IH]; intros n acc Hpos Hn.
  - simpl in Hn. lia.
  - rewrite Nat2N.inj_succ, N.pow_succ_r' in Hn.
    cbn [digitsOf]. destruct (n <? 10)%N eqn:E.
    + apply N.ltb_lt in E. rewrite N.mod_small by done.
      exists (digitChar n), acc. split; [done|].
      destruct (digit_cases n E) as [->|[->|[->|[->|[->|[->|[->|[->|[->| ->]]]]]]]]];
        try lia; by split.
    + apply N.ltb_ge in E. apply IH.
      * apply N.div_str_pos. lia.
      * apply N.Div0.div_lt_upper_bound. lia.
Qed.

Lemma natToString_fuel n : (0 < n)%N → (n < 10 ^ N.of_nat (S (N.to_nat (N.log2 n))))%N.
Proof.
  intros Hn. rewrite Nat2N.inj_succ, N2Nat.id.
  destruct (N.log2_spec n Hn) as [_ Hlt].
  eapply N.lt_le_trans; [exact Hlt|].
  apply N.pow_le_mono_l. lia.
Qed.

Lemma natToString_head n : ∃ c r, natToString n = String c r ∧ isDigit c = true.
Proof.
  destruct n as [|p].
  - by exists "0"%char, EmptyString.
  - assert (Hpos : (0 < N.pos p)%N) by done.
    destruct (digitsOf_head _ (Npos p) EmptyString Hpos (natToString_fuel _ Hpos))
      as (c & r & Hhead & Hdig & _).
    by exists c, r.
Qed.

Lemma endsValue_cases rest :
  endsValue rest = true →
  rest = EmptyString ∨ ∃ c r, rest = String c r ∧ (c = "," ∨ c = "]" ∨ c = "}")%char.
Proof.
  destruct rest as [|c r]; [by left|]. cbn [endsValue]. intros Hc. right.
  exists c, r. split; [done|].
  apply orb_true_iff in Hc as [Hc|Hc]; [apply orb_true_iff in Hc as [Hc|Hc]|];
    apply Ascii.eqb_eq in Hc; tauto.
Qed.

Lemma endsValue_stopsDigits rest : endsValue rest = true → stopsDigits rest = true.
Proof.
  intros [->|(c & r & -> & [->|[->| ->]])]%endsValue_cases; reflexivity.
Qed.

Lemma readDigits_stops rest a c :
  stopsDigits rest = true → readDigits rest a c = (a, c, rest).
Proof.
  destruct rest as [|d r]; [done|]. cbn [stopsDigits readDigits].
  by intros ->%negb_true_iff.
Qed.

Lemma parseFraction_ends n rest :
  endsValue rest = true → parseFraction n rest = Some (n, O, rest).
Proof.
  intros [->|(c & r & -> & [->|[->| ->]])]%endsValue_cases; reflexivity.
Qed.

Lemma parseExponent_ends rest :
  endsValue rest = true → parseExponent rest = Some (0, rest).
Proof.
  intros [->|(c & r & -> & [->|[->| ->]])]%endsValue_cases; reflexivity.
Qed.

Lemma isDigit_not_minus c : isDigit c = true → Ascii.eqb c "-" = false.
Proof.
  destruct c as [[|] [|] [|] [|] [|] [|] [|] [|]]; try discriminate; reflexivity.
Qed.

Lemma parseInt_natToString n rest :
  stopsDigits rest = true → parseInt (natToString n +:+ rest) = Some (n, rest).
Proof.
  intros Hrest. destruct n as [|p].
  - change (natToString 0) with "0". rewrite append_cons, append_nil_l.
    cbn [parseInt]. change (Ascii.eqb "0" "0") with true. cbv iota.
    destruct rest as [|d r]; [done|]. cbn [stopsDigits] in Hrest.
    apply negb_true_iff in Hrest. by rewrite Hrest.
  - assert (Hn : (0 < N.pos p)%N) by done.
    unfold natToString. rewrite <- digitsOf_acc.
    pose proof (natToString_fuel _ Hn) as Hfuel.
    destruct (digitsOf_head _ _ rest Hn Hfuel) as (c & r & Hhead & Hdig & Hnz).
    destruct (readDigits_digitsOf _ _ Hfuel) as (k & j & Hk).
    specialize (Hk rest 0%N O). rewrite (readDigits_stops rest) in Hk by done.
    unfold parseInt. rewrite Hhead in *. rewrite Hnz, Hdig, Hk.
    do 2 f_equal.
Qed.

(** The literal of an integer and the literal of a decimal with [k + 1]
    fraction digits. *)
Lemma parseUnsigned_integer n rest :
  endsValue rest = true →
  parseUnsigned (natToString n +:+ rest) = Some (n, 0, rest).
Proof.
  intros Hrest. unfold parseUnsigned.
  rewrite parseInt_natToString by by apply endsValue_stopsDigits.
  by rewrite parseFraction_ends, parseExponent_ends.
Qed.

Lemma parseUnsigned_decimal i f k rest :
  endsValue rest = true →
  parseUnsigned
    ((natToString i +:+ String "." (padDigits (S k) f EmptyString)) +:+ rest) =
  Some ((i * 10 ^ N.of_nat (S k) + f mod 10 ^ N.of_nat (S k))%N, - Z.of_nat (S k), rest).
Proof.
  intros Hrest. unfold parseUnsigned.
  rewrite append_assoc, append_cons, <- padDigits_acc.
  rewrite parseInt_natToString by done.
  cbn [parseFraction]. change (Ascii.eqb "." ".") with true. cbv iota.
  rewrite readDigits_padDigits, readDigits_stops by by apply endsValue_stopsDigits.
  rewrite Nat.add_0_r. rewrite parseExponent_ends by done. done.
Qed.

(** Scientific notation: the digits, and the exponent. *)
Lemma readDigits_allDigits digits : ∀ a c rest,
  allDigits digits = true → stopsDigits rest = true →
  readDigits (digits +:+ rest) a c =
  (digitsValue digits a, (String.length digits + c)%nat, rest).
Proof.
  induction digits as [|d digits IH]; intros a c rest Hall Hrest.
  - rewrite append_nil_l. cbn [digitsValue String.length]. by apply readDigits_stops.
  - cbn [allDigits] in Hall. apply andb_true_iff in Hall as [Hd Hall].
    rewrite append_cons. cbn [readDigits digitsValue String.length]. rewrite Hd.
    rewrite IH by done. do 2 f_equal. lia.
Qed.

Lemma allDigits_digitsOf fuel : ∀ n acc,
  allDigits acc = true → allDigits (digitsOf fuel n acc) = true.
Proof.
  induction fuel as [|fuel IH]; intros n acc Hacc; [done|].
  pose proof (N.mod_lt n 10 ltac:(lia)) as Hmod.
  assert (Hd : isDigit (digitChar (n mod 10)) = true).
  { destruct (digit_cases _ Hmod) as [->|[->|[->|[->|[->|[->|[->|[->|[->| ->]]]]]]]]];
      reflexivity. }
  cbn [digitsOf]. destruct (n <? 10)%N; [|apply IH]; cbn [allDigits]; by rewrite Hd.
Qed.

Lemma allDigits_natToString n : allDigits (natToString n) = true.
Proof. by apply allDigits_digitsOf. Qed.

Lemma natToString_fuel' n : (n < 10 ^ N.of_nat (S (N.to_nat (N.log2 n))))%N.
Proof.
  destruct n as [|p]; [done|]. by apply natToString_fuel.
Qed.

Lemma digitsValue_natToString n : digitsValue (natToString n) 0 = n.
Proof.
  pose proof (readDigits_allDigits (natToString n) 0 0 EmptyString
                (allDigits_natToString n) eq_refl) as Hread.
  rewrite append_nil_r in Hread.
  destruct (readDigits_digitsOf _ n (natToString_fuel' n)) as (k & j & Hk).
  specialize (Hk EmptyString 0%N O). fold (natToString n) in Hk.
  rewrite Hread in Hk. cbn [readDigits] in Hk. injection Hk as Hv _. lia.
Qed.

Lemma readDigits_natToString n rest :
  stopsDigits rest = true →
  readDigits (natToString n +:+ rest) 0 0 =
  (n, String.length (natToString n), rest).
Proof.
  intros Hrest. rewrite readDigits_allDigits by (done || apply allDigits_natToString).
  by rewrite digitsValue_natToString, Nat.add_0_r.
Qed.

Lemma parseExponent_exponent (e : Z) rest :
  stopsDigits rest = true →
  parseExponent
    (String "e" (String (if e <? 0 then "-" else "+")
                   (natToString (Z.to_N (Z.abs e)) +:+ rest))) = Some (e, rest).
Proof.
  intros Hrest. cbn [parseExponent].
  change (Ascii.eqb "e" "e") with true. cbv iota. cbn [orb].
  assert (Hread : readDigits (natToString (Z.to_N (Z.abs e)) +:+ rest) 0 0 =
                  (Z.to_N (Z.abs e), String.length (natToString (Z.to_N (Z.abs e))), rest))
    by by apply readDigits_natToString.
  destruct (natToString_head (Z.to_N (Z.abs e))) as (c & r & Hhead & _).
  rewrite Hhead in Hread at 2. cbn [String.length] in Hread.
  destruct (e <? 0) eqn:Hsign.
  - change (Ascii.eqb "-" "-") with true. cbv iota. rewrite Hread.
    apply Z.ltb_lt in Hsign. do 2 f_equal. lia.
  - change (Ascii.eqb "+" "-") with false. change (Ascii.eqb "+" "+") with true.
    cbv iota. rewrite Hread. apply Z.ltb_ge in Hsign. do 2 f_equal. lia.
Qed.

Lemma parseUnsigned_exponential s n rest :
  (0 < s)%N → endsValue rest = true →
  parseUnsigned (exponential s n +:+ rest) =
  Some (s, n - Z.of_nat (String.length (natToString s)), rest).
Proof.
  intros Hs Hrest. unfold exponential.
  pose proof (allDigits_natToString s) as Hall.
  pose proof (digitsValue_natToString s) as Hval.
  destruct (digitsOf_head _ s EmptyString Hs (natToString_fuel _ Hs))
    as (d & more & Hhead & Hd & Hnz).
  fold (natToString s) in Hhead. rewrite Hhead in *.
  cbn [allDigits] in Hall. rewrite Hd in Hall. cbn [andb] in Hall.
  cbn [digitsValue] in Hval. cbn [String.length].
  pose proof (endsValue_stopsDigits _ Hrest) as Hstop.
  set (tail := String (if n - 1 <? 0 then "-" else "+")
                 (natToString (Z.to_N (Z.abs (n - 1))) +:+ rest)).
  assert (Hexp : parseExponent (String "e" tail) = Some (n - 1, rest))
    by by apply parseExponent_exponent.
  unfold parseUnsigned. destruct more as [|m more].
  - rewrite !append_cons, append_nil_l, !append_cons. fold tail. clearbody tail.
    cbn [parseInt]. rewrite Hnz, Hd. cbn [readDigits]. rewrite Hd.
    change (isDigit "e") with false. cbv iota.
    cbn [parseFraction]. change (Ascii.eqb "e" ".") with false. cbv iota.
    rewrite Hexp. cbn [digitsValue] in Hval. rewrite Hval.
    cbn [String.length]. do 3 f_equal. lia.
  - rewrite !append_cons, append_assoc, !append_cons. fold tail. clearbody tail.
    cbn [parseInt]. rewrite Hnz, Hd. cbn [readDigits]. rewrite Hd.
    change (isDigit ".") with false. cbv iota.
    cbn [parseFraction]. change (Ascii.eqb "." ".") with true. cbv iota.
    rewrite <- append_cons.
    rewrite (readDigits_allDigits (String m more)) by done.
    cbn [String.length Nat.add]. rewrite Hexp, Hval.
    do 3 f_equal. lia.
Qed.

Lemma stripTrailingZeros_spec fuel : ∀ n zeros s zeros',
  stripTrailingZeros fuel n zeros = (s, zeros') →
  (zeros ≤ zeros')%nat ∧ n = (s * 10 ^ N.of_nat (zeros' - zeros))%N ∧
  ((0 < n)%N → (0 < s)%N).
Proof.
  induction fuel as [|fuel IH]; intros n zeros s zeros' Hstrip; cbn [stripTrailingZeros] in Hstrip.
  - injection Hstrip as <- <-. rewrite Nat.sub_diag. split; [done|]. split; [|done].
    cbn. lia.
  - destruct ((0 <? n) && (n mod 10 =? 0))%N eqn:E.
    + apply andb_true_iff in E as [Hpos Hz].
      apply N.ltb_lt in Hpos. apply N.eqb_eq in Hz.
      destruct (IH _ _ _ _ Hstrip) as (Hle & Hn & Hs).
      pose proof (N.div_mod' n 10) as Hdm.
      split; [lia|]. split.
      * replace (zeros' - zeros)%nat with (S (zeros' - S zeros)) by lia.
        rewrite Nat2N.inj_succ, N.pow_succ_r'. lia.
      * intros _. apply Hs. apply N.div_str_pos. lia.
    + injection Hstrip as <- <-. rewrite Nat.sub_diag. split; [done|]. split; [|done].
      cbn. lia.
Qed.

Lemma decimal_normalForm x :
  normalForm x → decimal (Js.mantissa x) (- Z.of_nat (Js.scale x)) = x.
Proof.
  destruct x as [m [|k]]; cbn [Js.mantissa Js.scale]; intros Hx.
  - unfold decimal. cbn. f_equal. lia.
  - destruct Hx as [Hx|Hx]; [done|]. cbn [Js.mantissa] in Hx.
    unfold decimal. destruct (0 <=? - Z.of_nat (S k)) eqn:E; [apply Z.leb_le in E; lia|].
    rewrite Z.opp_involutive, Nat2Z.id. cbn [stripZeros].
    by apply Z.eqb_neq in Hx as ->.
Qed.

Lemma printable_normalForm x : printable x → normalForm x.
Proof.
  unfold printable, normalForm. destruct (Js.scale x); [by left | by right].
Qed.

Lemma opp_mod10 m : - m mod 10 = 0 ↔ m mod 10 = 0.
Proof.
  split; intros Hz; apply Z.mod_divide in Hz; try lia; apply Z.mod_divide; try lia;
    by apply Z.divide_opp_r.
Qed.

Lemma abs_mod10 m : Z.abs m mod 10 = 0 ↔ m mod 10 = 0.
Proof.
  destruct (Z.abs_spec m) as [[_ ->]|[_ ->]]; [done | apply opp_mod10].
Qed.

(** The magnitude of a number is its digits times the power of ten. *)
Lemma significand_spec x s e :
  normalForm x → significand x = (s, e) →
  decimal (Z.of_N s) e = Js.mkNumber (Z.abs (Js.mantissa x)) (Js.scale x) ∧
  (Js.mantissa x ≠ 0 → (0 < s)%N).
Proof.
  intros Hx. unfold significand. destruct x as [m [|k]]; cbn [Js.mantissa Js.scale] in *.
  - destruct (stripTrailingZeros _ _ _) as [s' zeros] eqn:Hstrip.
    intros [= <- <-]. apply stripTrailingZeros_spec in Hstrip as (_ & Hn & Hs).
    rewrite Nat.sub_0_r in Hn. split; [|intros Hm; apply Hs; lia].
    unfold decimal. destruct (0 <=? Z.of_nat zeros) eqn:E; [|apply Z.leb_gt in E; lia].
    f_equal. apply (f_equal Z.of_N) in Hn.
    rewrite N2Z.inj_mul, N2Z.inj_pow, nat_N_Z in Hn. lia.
  - intros [= <- <-]. destruct Hx as [Hx|Hx]; [done|]. cbn [Js.mantissa] in Hx.
    split; [|lia].
    rewrite Z2N.id by lia.
    apply (decimal_normalForm (Js.mkNumber (Z.abs m) (S k))). right.
    cbn [Js.mantissa]. by rewrite abs_mod10.
Qed.

Lemma decimal_opp m e : decimal (- m) e =
  Js.mkNumber (- Js.mantissa (decimal m e)) (Js.scale (decimal m e)).
Proof.
  unfold decimal. destruct (0 <=? e); [cbn; f_equal; lia|].
  generalize (Z.to_nat (- e)). intros k. revert m.
  induction k as [|k IH]; intros m; cbn [stripZeros]; [done|].
  assert (Hmod : (- m mod 10 =? 0) = (m mod 10 =? 0)).
  { destruct (m mod 10 =? 0) eqn:E.
    - apply Z.eqb_eq in E. apply Z.eqb_eq. by apply opp_mod10.
    - apply Z.eqb_neq in E. apply Z.eqb_neq. by rewrite opp_mod10. }
  rewrite Hmod. destruct (m mod 10 =? 0) eqn:E; [|done].
  apply Z.eqb_eq in E.
  replace (- m / 10) with (- (m / 10)); [apply IH|].
  apply Z.mod_divide in E as [q ->]; [|lia].
  rewrite <- Z.mul_opp_l, !Z.div_mul by lia. done.
Qed.

Lemma parseNumber_numberToString x rest :
  normalForm x → endsValue rest = true →
  parseNumber (numberToString x +:+ rest) = Some (x, rest).
Proof.
  intros Hx Hrest. pose proof (decimal_normalForm x Hx) as Hdec.
  unfold numberToString.
  destruct (significand x) as [s e] eqn:Hsig.
  destruct (significand_spec x s e Hx Hsig) as [Hmag Hpos].
  set (a := Z.to_N (Z.abs (Js.mantissa x))).
  set (n := Z.of_nat (String.length (natToString s)) + e).
  set (body := if (-6 <? n) && (n <=? 21) then positional x else exponential s n).
  assert (Hbody : ∃ a' e', parseUnsigned (body +:+ rest) = Some (a', e', rest) ∧
                    decimal (Z.of_N a') e' =
                    Js.mkNumber (Z.abs (Js.mantissa x)) (Js.scale x) ∧
                    ∃ c r, body = String c r ∧ isDigit c = true).
  { subst body. destruct ((-6 <? n) && (n <=? 21)) eqn:Hcond.
    - exists a, (- Z.of_nat (Js.scale x)). unfold positional. fold a.
      destruct x as [m [|k]]; cbn [Js.mantissa Js.scale] in *.
      + split; [by apply parseUnsigned_integer|]. split; [|apply natToString_head].
        unfold decimal. cbn. f_equal. lia.
      + set (p := (10 ^ N.of_nat (S k))%N).
        split; [|split].
        * rewrite parseUnsigned_decimal by done. do 3 f_equal. fold p.
          pose proof (N.mod_lt a p ltac:(subst p; apply N.pow_nonzero; lia)) as Hlt.
          rewrite (N.mod_small (a mod p)) by done.
          pose proof (N.div_mod' a p). lia.
        * destruct Hx as [Hx|Hx]; [done|]. cbn [Js.mantissa] in Hx.
          subst a. rewrite Z2N.id by lia.
          apply (decimal_normalForm (Js.mkNumber (Z.abs m) (S k))). right.
          cbn [Js.mantissa]. by rewrite abs_mod10.
        * destruct (natToString_head (a / p)) as (c & r & -> & Hc).
          exists c. eexists. by rewrite append_cons.
    - assert (Hs : (0 < s)%N).
      { destruct (decide (Js.mantissa x = 0)) as [Hz|Hnz]; [|by apply Hpos].
        exfalso. unfold significand in Hsig. destruct x as [m [|k]];
          cbn [Js.mantissa Js.scale] in *; subst m.
        - cbn in Hsig. injection Hsig as <- <-. subst n. by cbn in Hcond.
        - destruct Hx as [Hx|Hx]; [done | by cbn in Hx]. }
      exists s, e. split; [|split; [done|]].
      + rewrite parseUnsigned_exponential by done. do 3 f_equal. subst n. lia.
      + unfold exponential.
        destruct (digitsOf_head _ s EmptyString Hs (natToString_fuel _ Hs))
          as (d & more & Hhead & Hd & _).
        fold (natToString s) in Hhead. rewrite Hhead.
        exists d. eexists. rewrite append_cons. by split. }
  destruct Hbody as (a' & e' & Hparse & Hval & c & r & Hhead & Hdig).
  destruct (Js.mantissa x <? 0) eqn:Hsign.
  - rewrite append_cons. unfold parseNumber.
    change (Ascii.eqb "-" "-") with true. cbv iota. rewrite Hparse.
    do 2 f_equal. rewrite decimal_opp, Hval. cbn [Js.mantissa Js.scale].
    apply Z.ltb_lt in Hsign. destruct x as [m k]. cbn [Js.mantissa Js.scale] in *.
    f_equal. lia.
  - rewrite Hhead in *. rewrite append_cons in *. unfold parseNumber.
    rewrite (isDigit_not_minus c Hdig), Hparse.
    do 2 f_equal. rewrite Hval.
    apply Z.ltb_ge in Hsign. destruct x as [m k]. cbn [Js.mantissa Js.scale] in *.
    f_equal. lia.
Qed.

(** *** Values *)

Lemma joinComma_fold ps : ∀ a b,
  fold_left (fun acc x => acc +:+ "," +:+ x) ps (a +:+ b) =
  a +:+ fold_left (fun acc x => acc +:+ "," +:+ x) ps b.
Proof.
  induction ps as [|p ps IH]; intros a b; [done|].
  cbn [fold_left]. rewrite <- IH. by rewrite append_assoc.
Qed.

Lemma joinComma_cons p q ps :
  joinComma (p :: q :: ps) = p +:+ "," +:+ joinComma (q :: ps).
Proof.
  unfold joinComma. cbn [fold_left].
  rewrite joinComma_fold. f_equal.
  change ("," +:+ q) with (String "," q).
  change (String "," q) with (str1 "," +:+ q).
  rewrite joinComma_fold. done.
Qed.

Lemma wellFormed_array l : wellFormedJSON (JArray l) ↔ Forall wellFormedJSON l.
Proof.
  induction l as [|x l IH]; [by split|].
  rewrite Forall_cons, <- IH. done.
Qed.

Lemma wellFormed_object ms :
  wellFormedJSON (JObject ms) ↔ NoDup (map fst ms) ∧ Forall (fun kv => wellFormedJSON kv.2) ms.
Proof.
  cbn [wellFormedJSON]. apply and_iff_compat_l.
  induction ms as [|kv ms IH]; [by split|].
  rewrite Forall_cons, <- IH. done.
Qed.

Lemma setMember_fresh k v acc :
  k ∉ map fst acc → setMember k v acc = acc ++ [(k, v)].
Proof.
  induction acc as [|[k' v'] acc IH]; [done|].
  cbn [map fst]. rewrite not_elem_of_cons. intros [Hne Hnot].
  cbn [setMember app]. apply String.eqb_neq in Hne. rewrite Hne.
  by rewrite IH.
Qed.

Lemma numberToString_head x :
  ∃ c r, numberToString x = String c r ∧ (isDigit c = true ∨ c = "-"%char).
Proof.
  unfold numberToString. destruct (significand x) as [s e].
  destruct (Js.mantissa x <? 0).
  { eexists _, _. split; [done | by right]. }
  destruct (_ && _).
  - unfold positional. destruct (Js.scale x).
    + destruct (natToString_head (Z.to_N (Z.abs (Js.mantissa x)))) as (c & r & -> & Hc).
      exists c, r. split; [done | by left].
    + match goal with |- context [natToString ?n] =>
        destruct (natToString_head n) as (c & r & -> & Hc) end.
      exists c. eexists. rewrite append_cons. split; [done | by left].
  - unfold exponential. destruct (natToString_head s) as (c & r & -> & Hc).
    exists c. eexists. rewrite append_cons. split; [done | by left].
Qed.

Lemma stringify_head v : ∃ c r, stringify v = String c r ∧ headChar (headOf v) c.
Proof.
  destruct v as [|[|]|n|s|l|ms]; cbn [stringify headOf headChar];
    try (eexists _, _; split; [reflexivity | done]).
  apply numberToString_head.
Qed.

Lemma head_not_space h c : headChar h c → isJsonWs c = false.
Proof.
  destruct h; cbn [headChar]; try (intros ->; reflexivity).
  intros [Hd| ->]; [|reflexivity].
  destruct c as [[|] [|] [|] [|] [|] [|] [|] [|]]; try discriminate; reflexivity.
Qed.

Lemma head_not_close h c :
  headChar h c → Ascii.eqb c "]" = false ∧ Ascii.eqb c "}" = false.
Proof.
  destruct h; cbn [headChar]; try (intros ->; by split).
  intros [Hd| ->]; [|by split].
  destruct c as [[|] [|] [|] [|] [|] [|] [|] [|]]; try discriminate; by split.
Qed.

Lemma skipWs_stringify v rest : skipWs (stringify v +:+ rest) = stringify v +:+ rest.
Proof.
  destruct (stringify_head v) as (c & r & -> & Hc).
  rewrite append_cons. cbn [skipWs]. by rewrite (head_not_space _ _ Hc).
Qed.

Lemma skipWs_ends rest : endsValue rest = true → skipWs rest = rest.
Proof.
  intros [->|(c & r & -> & [->|[->| ->]])]%endsValue_cases; reflexivity.
Qed.

(** A number, once the other kinds of value are ruled out by the first
    character. *)
Lemma parseValue_number fuel x rest :
  normalForm x → endsValue rest = true →
  parseValue (S fuel) (numberToString x +:+ rest) = Some (JNumber x, rest).
Proof.
  intros Hx Hrest. pose proof (parseNumber_numberToString x rest Hx Hrest) as Hnum.
  destruct (numberToString_head x) as (c & r & Hhead & Hc).
  rewrite Hhead in *. rewrite append_cons in *.
  cbn [parseValue skipWs].
  assert (Htests : isJsonWs c = false ∧ Ascii.eqb c "[" = false ∧
                   Ascii.eqb c "{" = false ∧ (code c =? 34)%N = false ∧
                   Ascii.eqb c "n" = false ∧ Ascii.eqb c "t" = false ∧
                   Ascii.eqb c "f" = false).
  { destruct Hc as [Hd| ->]; [|by repeat split].
    destruct c as [[|] [|] [|] [|] [|] [|] [|] [|]]; try discriminate; by repeat split. }
  destruct Htests as (-> & -> & -> & -> & -> & -> & ->). by rewrite Hnum.
Qed.

Section Descent.

(** The parser is known to invert the printer below some amount of fuel. *)
Variable bound : nat.
Hypothesis parseValue_below : ∀ fuel v rest,
  (fuel < bound)%nat → (size v ≤ fuel)%nat → wellFormedJSON v → endsValue rest = true →
  parseValue fuel (stringify v +:+ rest) = Some (v, rest).

Lemma parseElements_stringify l : ∀ x acc fuel rest,
  (fuel < bound)%nat → (elemsFuel (x :: l) ≤ fuel)%nat →
  Forall wellFormedJSON (x :: l) →
  parseElements fuel (joinComma (map stringify (x :: l)) +:+ String "]" rest) acc =
  Some (JArray (acc ++ x :: l), rest).
Proof.
  induction l as [|y l IH]; intros x acc fuel rest Hlt Hfuel Hwf;
    apply Forall_cons in Hwf as [Hx Hl];
    unfold elemsFuel in Hfuel; cbn [fold_right] in Hfuel;
    (destruct fuel as [|fuel]; [lia|]); cbn [parseElements map].
  - cbn [joinComma fold_left].
    rewrite parseValue_below by (done || lia). reflexivity.
  - rewrite joinComma_cons, !append_assoc.
    change ("," +:+ ?s) with (String "," s).
    rewrite parseValue_below by (done || lia).
    cbn [skipWs isJsonWs]. change (Ascii.eqb "," ",") with true. cbv iota.
    change (isJsonWs ",") with false. cbv iota.
    change (Ascii.eqb "," ",") with true. cbv iota.
    change (stringify y :: map stringify l) with (map stringify (y :: l)).
    rewrite (IH y (acc ++ [x]) fuel rest)
      by (done || lia || (unfold elemsFuel; cbn [fold_right]; lia)).
    by rewrite <- app_assoc.
Qed.

Lemma parseMembers_stringify ms : ∀ kv acc fuel rest,
  (fuel < bound)%nat → (membersFuel (kv :: ms) ≤ fuel)%nat →
  NoDup (map fst (acc ++ kv :: ms)) →
  Forall (fun kv => wellFormedJSON kv.2) (kv :: ms) →
  parseMembers fuel (joinComma (map member (kv :: ms)) +:+ String "}" rest) acc =
  Some (JObject (acc ++ kv :: ms), rest).
Proof.
  induction ms as [|kv' ms IH]; intros [k v] acc fuel rest Hlt Hfuel Hnd Hwf;
    apply Forall_cons in Hwf as [Hv Hms];
    unfold membersFuel in Hfuel; cbn [fold_right snd] in Hfuel;
    (destruct fuel as [|fuel]; [lia|]);
    assert (Hfresh : setMember k v acc = acc ++ [(k, v)])
      by (apply setMember_fresh; rewrite map_app in Hnd;
          apply NoDup_app in Hnd as (_ & Hdisj & _); intros Hin;
          apply (Hdisj k Hin); cbn [map fst]; left);
    cbn [parseMembers map].
  - cbn [joinComma fold_left]. unfold member at 1. cbn [fst snd].
    rewrite !append_assoc, quoteString_unfold.
    cbn [skipWs]. change (isJsonWs dquote) with false. cbv iota.
    change (code dquote =? 34)%N with true. cbv iota.
    rewrite parseStringBody_quoteBody.
    change (":" +:+ ?s) with (String ":" s).
    cbn [skipWs]. change (isJsonWs ":") with false. cbv iota.
    change (Ascii.eqb ":" ":") with true. cbv iota.
    rewrite parseValue_below by (done || lia).
    cbn [skipWs]. change (isJsonWs "}") with false. cbv iota.
    change (Ascii.eqb "}" ",") with false. change (Ascii.eqb "}" "}") with true.
    cbv iota. by rewrite Hfresh.
  - rewrite joinComma_cons. unfold member at 1. cbn [fst snd].
    rewrite !append_assoc, quoteString_unfold.
    cbn [skipWs]. change (isJsonWs dquote) with false. cbv iota.
    change (code dquote =? 34)%N with true. cbv iota.
    rewrite parseStringBody_quoteBody.
    change (":" +:+ ?s) with (String ":" s).
    cbn [skipWs]. change (isJsonWs ":") with false. cbv iota.
    change (Ascii.eqb ":" ":") with true. cbv iota.
    change ("," +:+ ?s) with (String "," s).
    rewrite parseValue_below by (done || lia).
    cbn [skipWs]. change (isJsonWs ",") with false. cbv iota.
    change (Ascii.eqb "," ",") with true. cbv iota.
    rewrite Hfresh.
    change (member kv' :: map member ms) with (map member (kv' :: ms)).
    rewrite (IH kv' (acc ++ [(k, v)]) fuel rest); try done; try lia;
      try (unfold membersFuel; cbn [fold_right]; lia).
    + by rewrite <- app_assoc.
    + by rewrite <- app_assoc.
Qed.

End Descent.

(** [parseValue] inverts [stringify] in front of whatever may follow a
    value, given fuel for the size of the value. *)
Lemma parseValue_stringify fuel : ∀ v rest,
  (size v ≤ fuel)%nat → wellFormedJSON v → endsValue rest = true →
  parseValue fuel (stringify v +:+ rest) = Some (v, rest).
Proof.
  induction fuel as [fuel IH] using lt_wf_ind. intros v rest Hsize Hwf Hrest.
  destruct fuel as [|fuel]; [destruct v; cbn [size] in Hsize; lia|].
  assert (Hbelow : ∀ fuel' v rest,
            (fuel' < S fuel)%nat → (size v ≤ fuel')%nat → wellFormedJSON v →
            endsValue rest = true →
            parseValue fuel' (stringify v +:+ rest) = Some (v, rest)).
  { intros fuel' v' rest' Hlt. by apply IH. }
  destruct v as [|[|]|n|s|l|ms].
  - reflexivity.
  - reflexivity.
  - reflexivity.
  - apply parseValue_number; [by apply printable_normalForm | done].
  - cbn [stringify]. rewrite quoteString_unfold. cbn [parseValue skipWs].
    change (isJsonWs dquote) with false. cbv iota.
    change (Ascii.eqb dquote "[") with false. change (Ascii.eqb dquote "{") with false.
    change (code dquote =? 34)%N with true. cbv iota.
    by rewrite parseStringBody_quoteBody.
  - cbn [stringify]. rewrite append_cons, append_nil_l, append_cons, append_assoc.
    change ("]" +:+ rest) with (String "]" rest).
    destruct l as [|x l]; [reflexivity|].
    cbn [parseValue skipWs]. change (isJsonWs "[") with false. cbv iota.
    change (Ascii.eqb "[" "[") with true. cbv iota.
    cbn [size] in Hsize. fold (elemsFuel (x :: l)) in Hsize.
    apply wellFormed_array in Hwf.
    assert (Hhead : ∃ c r, joinComma (map stringify (x :: l)) +:+ String "]" rest = String c r ∧
                           isJsonWs c = false ∧ Ascii.eqb c "]" = false).
    { destruct (stringify_head x) as (c & r & Hx & Hc).
      destruct l as [|y l].
      - cbn [map joinComma fold_left]. rewrite Hx, append_cons.
        eexists _, _. split; [done|].
        split; [by eapply head_not_space | by eapply head_not_close].
      - cbn [map]. rewrite joinComma_cons, Hx, !append_cons.
        eexists _, _. split; [done|].
        split; [by eapply head_not_space | by eapply head_not_close]. }
    destruct Hhead as (c & r & Hs & Hws & Hclose).
    pose proof (parseElements_stringify (S fuel) Hbelow l x [] fuel rest
                  ltac:(lia) ltac:(lia) Hwf) as Helems.
    rewrite Hs in *. cbn [skipWs]. rewrite Hws, Hclose. exact Helems.
  - cbn [stringify]. rewrite append_cons, append_nil_l, append_cons, append_assoc.
    change ("}" +:+ rest) with (String "}" rest).
    destruct ms as [|kv ms]; [reflexivity|].
    cbn [parseValue skipWs]. change (isJsonWs "{") with false. cbv iota.
    change (Ascii.eqb "{" "[") with false. change (Ascii.eqb "{" "{") with true.
    cbv iota.
    cbn [size] in Hsize. fold (membersFuel (kv :: ms)) in Hsize.
    apply wellFormed_object in Hwf as [Hnd Hwf].
    fold (member) in *.
    assert (Hhead : ∃ r, joinComma (map member (kv :: ms)) +:+ String "}" rest =
                         String dquote r).
    { destruct ms as [|kv' ms].
      - cbn [map joinComma fold_left]. unfold member. rewrite !append_assoc.
        rewrite quoteString_unfold. by eexists.
      - cbn [map]. rewrite joinComma_cons. unfold member at 1.
        rewrite !append_assoc, quoteString_unfold. by eexists. }
    destruct Hhead as (r & Hs).
    pose proof (parseMembers_stringify (S fuel) Hbelow ms kv [] fuel rest
                  ltac:(lia) ltac:(lia) Hnd Hwf) as Hmembers.
    change (map (fun kv0 => quoteString kv0.1 +:+ ":" +:+ stringify kv0.2) (kv :: ms))
      with (map member (kv :: ms)).
    rewrite Hs in *. cbn [skipWs]. change (isJsonWs dquote) with false. cbv iota.
    change (Ascii.eqb dquote "}") with false. cbv iota. exact Hmembers.
Qed.

Lemma JSON_nested_ind (P : JSON → Prop) :
  P JNull → (∀ b, P (JBool b)) → (∀ n, P (JNumber n)) → (∀ s, P (JString s)) →
  (∀ l, Forall P l → P (JArray l)) →
  (∀ ms, Forall (fun kv => P kv.2) ms → P (JObject ms)) →
  ∀ v, P v.
Proof.
  intros Hnull Hbool Hnum Hstr Harr Hobj. fix IH 1.
  intros [|b|n|s|l|ms]; [done..| |].
  - apply Harr. induction l as [|x l IHl]; constructor; [apply IH | exact IHl].
  - apply Hobj. induction ms as [|[k x] ms IHms]; constructor; [apply IH | exact IHms].
Qed.

Lemma length_joinComma_cons p q ps :
  String.length (joinComma (p :: q :: ps)) =
  (String.length p + S (String.length (joinComma (q :: ps))))%nat.
Proof. rewrite joinComma_cons, !length_append. done. Qed.

(** The serialization of a value is at least as long as the fuel its
    parsing needs. *)
Lemma size_le_length v : (size v ≤ String.length (stringify v))%nat.
Proof.
  induction v as [|b|n|s|l IH|ms IH] using JSON_nested_ind.
  - cbn. lia.
  - destruct b; cbn; lia.
  - destruct (numberToString_head n) as (c & r & Hn & _).
    cbn [stringify size]. rewrite Hn. cbn. lia.
  - cbn. lia.
  - cbn [stringify size]. fold (elemsFuel l).
    rewrite append_cons, append_nil_l. cbn [String.length]. rewrite length_append.
    cbn [String.length].
    assert (elemsFuel l ≤ S (String.length (joinComma (map stringify l))))%nat; [|lia].
    induction IH as [|x l Hx Hl IHl]; [cbn; lia|].
    unfold elemsFuel. cbn [fold_right]. fold (elemsFuel l).
    destruct l as [|y l]; [cbn in *; lia|].
    cbn [map] in *. rewrite length_joinComma_cons. lia.
  - cbn [stringify size]. fold (membersFuel ms). fold member.
    rewrite append_cons, append_nil_l. cbn [String.length]. rewrite length_append.
    cbn [String.length].
    assert (membersFuel ms ≤ S (String.length (joinComma (map member ms))))%nat; [|lia].
    induction IH as [|[k x] ms Hx Hl IHl]; [cbn; lia|].
    unfold membersFuel. cbn [fold_right snd]. fold (membersFuel ms).
    assert (Hmem : (size x ≤ String.length (member (k, x)))%nat).
    { unfold member. rewrite !length_append. cbn [snd] in *. lia. }
    destruct ms as [|kv' ms]; [cbn [map joinComma fold_left membersFuel fold_right] in *; lia|].
    cbn [map] in *. rewrite length_joinComma_cons. lia.
Qed.

(** [JSON.parse(JSON.stringify(v))] gives [v] back. *)
Theorem parse_stringify v : wellFormedJSON v → parse (stringify v) = Some v.
Proof.
  intros Hwf. unfold parse.
  pose proof (parseValue_stringify (S (String.length (stringify v))) v EmptyString
                ltac:(pose proof (size_le_length v); lia) Hwf eq_refl) as Hp.
  rewrite append_nil_r in Hp. by rewrite Hp.
Qed.

End JsonFacts.

(** * Properties of the review engine *)

Module EngineFacts.

Import Json ReviewEngine EngineSpec.

Section Loop.

Context `{Utils}.
Variable host : Host.

Lemma countSend_app l1 l2 : countSend (l1 ++ l2) = (countSend l1 + countSend l2)%nat.
Proof. unfold countSend. by rewrite List.filter_app, length_app. Qed.

Lemma countSend_toolCallsOf parts : countSend (toolCallsOf parts) = O.
Proof.
  induction parts as [|c parts IH]; [done|].
  unfold toolCallsOf. cbn [flat_map]. fold (toolCallsOf parts).
  rewrite countSend_app, IH. by destruct c.
Qed.

(** When every tool call resolves the tool loop resolves; it records one
    call per tool call part. *)
Lemma executeTools_ok parts : ∀ acc log,
  toolsResolve host →
  ∃ results,
    executeTools host parts acc log = (Ok results, log ++ toolCallsOf parts).
Proof.
  induction parts as [|c parts IH]; intros acc log Htools.
  - exists acc. simpl. by rewrite app_nil_r.
  - destruct c as [v|name callId input|]; cbn [executeTools].
    + by apply IH.
    + unfold bind, perform.
      destruct (Htools log name input) as [result ->].
      destruct (IH (acc ++ [mkToolResult callId [TextPart result]])
                   (log ++ [CallExecuteTool name input]) Htools) as [results Hres].
      exists results. rewrite Hres. unfold toolCallsOf. cbn [flat_map].
      by rewrite <- app_assoc.
    + by apply IH.
Qed.

(** In any case the tool loop records the calls of the tool call parts up
    to the one that rejects, if one does. *)
Lemma executeTools_calls parts : ∀ acc log,
  ∃ outcome calls,
    executeTools host parts acc log = (outcome, log ++ calls) ∧
    calls `prefix_of` toolCallsOf parts ∧
    (∀ results, outcome = Ok results → calls = toolCallsOf parts).
Proof.
  induction parts as [|c parts IH]; intros acc log.
  - exists (Ok acc), []. cbn. by rewrite app_nil_r.
  - destruct c as [v|name callId input|]; cbn [executeTools]; [apply IH | | apply IH].
    unfold bind, perform. unfold toolCallsOf. cbn [flat_map]. fold (toolCallsOf parts).
    destruct (executeToolCall host log name input) as [result|error].
    + destruct (IH (acc ++ [mkToolResult callId [TextPart result]])
                   (log ++ [CallExecuteTool name input]))
        as (outcome & calls & Hrun & Hpre & Hall).
      exists outcome, (CallExecuteTool name input :: calls).
      rewrite Hrun, <- app_assoc. split; [done|]. split.
      * by apply prefix_cons.
      * intros results Hok. cbn [app]. f_equal. by eapply Hall.
    + exists (Throw error), [CallExecuteTool name input]. split; [done|]. split; [|done].
      apply prefix_cons, prefix_nil.
Qed.

(** C4, as the code has it. A model that answers its first request with
    one tool call and its second with a response free of tool calls, with
    no cancellation requested and with a tool call that resolves: the loop
    executes that tool once with the requested input, makes two model
    requests, sends with the second request the assistant turn and one
    user turn that carries the tool result under the call identifier, and
    returns what [parseResponse] makes of the text of the second
    response. *)
Theorem agent_loop_one_tool_call model userPrompt token log0
    chunks1 chunks2 name callId input result :
  respondsOnInvocation host model 0 chunks1 →
  List.filter isToolCallPart chunks1 = [ToolCallPart name callId input] →
  respondsOnInvocation host model 1 chunks2 →
  List.filter isToolCallPart chunks2 = [] →
  neverCancelled token →
  countSend log0 = O →
  let messages1 := [User (buildSystemPrompt host log0); User userPrompt] in
  let log1 := log0 ++ [CallBuildSystemPrompt; CallSendRequest model messages1] in
  executeToolCall host log1 name input = Ok result →
  let messages2 :=
    messages1 ++
    [Assistant (List.filter isTextPart chunks1 ++ [ToolCallPart name callId input]);
     UserToolResults [mkToolResult callId [TextPart result]]] in
  let log2 := log1 ++ [CallExecuteTool name input; CallSendRequest model messages2] in
  runAgentLoop host model userPrompt token log0 =
    (Ok (parseResponse (joinText (List.filter isTextPart chunks2))), log2) ∧
  countSend log2 = 2%nat ∧
  toolExecutions log2 = toolExecutions log0 ++ [(name, input)].
Proof.
  intros Hfirst Htool Hsecond Hterminal Hcancel Hcount.
  assert (Htok : ∀ log, match token with Some t => t | None => freshToken end log = false).
  { destruct token as [t|]; [exact Hcancel | done]. }
  cbv zeta. intros Hresult. split; [|split].
  - unfold runAgentLoop, bind, perform. cbn [MAX_AGENT_ITERATIONS agentIterations].
    rewrite Htok. unfold bind, perform.
    rewrite Hfirst by (by rewrite countSend_app, Hcount).
    rewrite Htool. cbn [executeTools]. unfold bind, perform, ret.
    rewrite <- app_assoc. cbn [app]. rewrite Hresult.
    rewrite Htok. unfold bind, perform.
    rewrite Hsecond by (rewrite !countSend_app, Hcount; done).
    rewrite Hterminal. unfold ret.
    repeat rewrite <- app_assoc. done.
  - rewrite !countSend_app, Hcount. done.
  - unfold toolExecutions. rewrite !flat_map_app. cbn [flat_map app].
    by rewrite !app_nil_r.
Qed.

(** The iterations left never end early when every answer holds a tool
    call and every tool call resolves: each makes one model request. *)
Lemma agentIterations_exhausts model cancelToken (n : nat) : ∀ messages log,
  alwaysCallsTools host model → toolsResolve host →
  (∀ log, cancelToken log = false) →
  ∃ log', agentIterations host n model cancelToken messages log = (Ok [], log') ∧
          countSend log' = (countSend log + n)%nat.
Proof.
  induction n as [|n IH]; intros messages log Htools Hresolve Hcancel.
  - exists log. split; [done | lia].
  - cbn [agentIterations]. rewrite Hcancel. unfold bind, perform.
    destruct (Htools log messages) as (chunks & -> & Hne).
    destruct (List.filter isToolCallPart chunks) as [|c cs] eqn:Ecs; [done|].
    destruct (executeTools_ok (c :: cs) [] (log ++ [CallSendRequest model messages])
                Hresolve) as [results ->].
    destruct (IH ((messages ++ [Assistant (List.filter isTextPart chunks ++ c :: cs)])
                    ++ [UserToolResults results])
                 ((log ++ [CallSendRequest model messages]) ++ toolCallsOf (c :: cs))
                 Htools Hresolve Hcancel) as (log' & -> & Hcount).
    exists log'. split; [done|].
    rewrite Hcount, !countSend_app, countSend_toolCallsOf.
    change (countSend [CallSendRequest model messages]) with 1%nat. lia.
Qed.

(** C5, as the code has it. A model that puts a tool call in every answer
    and never gives a final one, with no cancellation requested and with
    tool calls that all resolve: the loop makes exactly 10 model requests,
    one per iteration, and then returns the empty list; it does not
    reject. *)
Theorem agent_loop_gives_up_after_ten_iterations model userPrompt token log0 :
  alwaysCallsTools host model →
  toolsResolve host →
  neverCancelled token →
  ∃ log', runAgentLoop host model userPrompt token log0 = (Ok [], log') ∧
          countSend log' = (countSend log0 + 10)%nat.
Proof.
  intros Htools Hresolve Hcancel.
  assert (Htok : ∀ log, match token with Some t => t | None => freshToken end log = false).
  { destruct token as [t|]; [exact Hcancel | done]. }
  unfold runAgentLoop, bind, perform.
  destruct (agentIterations_exhausts model _ MAX_AGENT_ITERATIONS
              [User (buildSystemPrompt host log0); User userPrompt]
              (log0 ++ [CallBuildSystemPrompt]) Htools Hresolve Htok)
    as (log' & Hrun & Hcount).
  exists log'. split; [exact Hrun|].
  rewrite Hcount, countSend_app. unfold MAX_AGENT_ITERATIONS.
  change (countSend [CallBuildSystemPrompt]) with O. lia.
Qed.

End Loop.

Lemma agent_loop_one_tool_call_witness :
  let model := mkModel "gpt-4o" 0 in
  let tool := ToolCallPart "readFile" "call-001" (pathInput "src/utils.ts") in
  let host := scriptedHost (Ok (Some "diff")) [model] []
                [[tool]; [TextPart oneIssueText]] [] "export function login() {}" in
  (runAgentLoop host model "prompt" None []).1 =
    Ok [mkIssue "high" EmptyString 12 "Unchecked token" "The token is used as it comes."] ∧
  countSend (runAgentLoop host model "prompt" None []).2 = 2%nat ∧
  toolExecutions (runAgentLoop host model "prompt" None []).2 =
    [("readFile", (pathInput "src/utils.ts"))].
Proof.
  intros model tool host.
  assert (H0 : respondsOnInvocation host model 0 [tool]).
  { intros log messages Hc. simpl. by rewrite Hc. }
  assert (H1 : respondsOnInvocation host model 1 [TextPart oneIssueText]).
  { intros log messages Hc. simpl. by rewrite Hc. }
  destruct (agent_loop_one_tool_call host model "prompt" None []
              [tool] [TextPart oneIssueText]
              "readFile" "call-001" (pathInput "src/utils.ts")
              "export function login() {}"
              H0 eq_refl H1 eq_refl I eq_refl eq_refl) as (Hrun & Hcount & Htools).
  rewrite Hrun. split; [by vm_compute|]. split; [exact Hcount | exact Htools].
Defined.

(** C4 as the design document states it fails, in two ways. The model asks
    for [searchCode] and would then report one issue. When the file search
    fails, the tool call rejects and the agent loop rejects with it, after
    one model invocation. And when cancellation is requested while the
    tool runs, the loop ends before the second invocation and returns the
    empty list. *)
Lemma agent_loop_tool_call_can_reject :
  let model := mkModel "gpt-4o" 0 in
  let search := ToolCallPart "searchCode" "call-001" (queryInput "login") in
  let host := scriptedHost (Ok (Some "diff")) [model] []
                [[search]; [TextPart oneIssueText]] [] "src/auth.ts:3: login()" in
  let failing := withFailingSearch "Error: search failed" host in
  respondsOnInvocation failing model 0 [search] ∧
  respondsOnInvocation failing model 1 [TextPart oneIssueText] ∧
  parseResponse oneIssueText =
    [mkIssue "high" EmptyString 12 "Unchecked token" "The token is used as it comes."] ∧
  (runAgentLoop failing model "prompt" None []).1 = Throw "Error: search failed" ∧
  countSend (runAgentLoop failing model "prompt" None []).2 = 1%nat ∧
  (runAgentLoop host model "prompt" (Some (cancelAfter 1)) []).1 = Ok [] ∧
  countSend (runAgentLoop host model "prompt" (Some (cancelAfter 1)) []).2 = 1%nat ∧
  toolExecutions (runAgentLoop host model "prompt" (Some (cancelAfter 1)) []).2 =
    [("searchCode", queryInput "login")].
Proof.
  intros model search host failing.
  split; [intros log messages Hc; simpl; by rewrite Hc|].
  split; [intros log messages Hc; simpl; by rewrite Hc|].
  split; [by vm_compute|]. repeat split; reflexivity.
Qed.

Lemma agent_loop_gives_up_after_ten_iterations_witness :
  let model := mkModel "gpt-4o" 0 in
  let tool := ToolCallPart "listDirectory" "call-x" (pathInput ".") in
  let host := scriptedHost (Ok (Some "diff")) [model] [] [] [tool] "src/" in
  ∃ log', runAgentLoop host model "prompt" None [] = (Ok [], log') ∧
          countSend log' = 10%nat.
Proof.
  intros model tool host.
  assert (Htools : alwaysCallsTools host model).
  { intros log messages. exists [tool]. split; [|done].
    simpl. by destruct (countSend log). }
  assert (Hresolve : toolsResolve host).
  { intros log name input. unfold executeToolCall.
    repeat (destruct (String.eqb name _); [by eexists|]). by eexists. }
  exact (agent_loop_gives_up_after_ten_iterations host model "prompt" None []
           Htools Hresolve I).
Defined.

(** C5 as the design document states it fails, in two ways. The model puts
    a [searchCode] call in every answer. When the file search fails, the
    first tool call rejects and the agent loop rejects with it after one
    iteration: it throws. And when cancellation is requested after three
    requests, the loop returns the empty list after three iterations, not
    ten. *)
Lemma agent_loop_can_end_before_ten_iterations :
  let model := mkModel "gpt-4o" 0 in
  let search := ToolCallPart "searchCode" "call-x" (queryInput "login") in
  let host := scriptedHost (Ok (Some "diff")) [model] [] [] [search] "src/" in
  let failing := withFailingSearch "Error: search failed" host in
  alwaysCallsTools host model ∧
  alwaysCallsTools failing model ∧
  (runAgentLoop failing model "prompt" None []).1 = Throw "Error: search failed" ∧
  countSend (runAgentLoop failing model "prompt" None []).2 = 1%nat ∧
  (runAgentLoop host model "prompt" (Some (cancelAfter 3)) []).1 = Ok [] ∧
  countSend (runAgentLoop host model "prompt" (Some (cancelAfter 3)) []).2 = 3%nat.
Proof.
  intros model search host failing.
  assert (Htools : ∀ h, sendRequest h = sendRequest host → alwaysCallsTools h model).
  { intros h Hh log messages. exists [search]. split; [|done].
    rewrite Hh. simpl. by destruct (countSend log). }
  split; [by apply Htools|]. split; [by apply Htools|].
  repeat split; reflexivity.
Qed.

Section Review.

Context `{Utils}.
Variable host : Host.
Variable config : Config.

(** C6, as the code has it. With no model available, reviewing a file that
    has a diff rejects, with the no-model error when the history fetch
    succeeds; reviewing a file without a diff returns the empty list and
    asks for no model; and a failed diff fetch makes [reviewFile] reject with
    that failure, whatever models there are. *)
Theorem reviewFile_rejections filePath token log0 :
  (∀ diff, getFileDiff host log0 filePath = Ok (Some diff) → diff ≠ EmptyString →
     (∀ log filter, selectChatModels host log filter = []) →
     ∃ error log', reviewFile host config filePath token log0 = (Throw error, log') ∧
       (∀ history, getRecentHistory host (log0 ++ [CallGetFileDiff filePath]) filePath
                     = Ok history → error = noModelError)) ∧
  (getFileDiff host log0 filePath = Ok None ∨
   getFileDiff host log0 filePath = Ok (Some EmptyString) →
     reviewFile host config filePath token log0 = (Ok [], log0 ++ [CallGetFileDiff filePath])) ∧
  (∀ error, getFileDiff host log0 filePath = Throw error →
     reviewFile host config filePath token log0 =
       (Throw error, log0 ++ [CallGetFileDiff filePath])).
Proof.
  split; [|split].
  - intros diff Hdiff Hne Hnone. unfold reviewFile, bind, perform. rewrite Hdiff.
    destruct (Js.falsy_string diff) eqn:Ef; [by destruct diff|].
    destruct (getRecentHistory host (log0 ++ [CallGetFileDiff filePath]) filePath)
      as [history|e] eqn:Eh.
    + unfold callLLM, bind, perform. rewrite !Hnone. unfold throw.
      eexists _, _. split; [reflexivity|]. done.
    + eexists _, _. split; [reflexivity|]. done.
  - intros [Hd|Hd]; unfold reviewFile, bind, perform; by rewrite Hd.
  - intros error Hd. unfold reviewFile, bind, perform. by rewrite Hd.
Qed.

(** The loop of [reviewFiles] from any accumulated list: it resolves, with
    the accumulated issues followed by those of the files whose review
    resolved. *)
Lemma reviewFilesLoop_resolves onProgress token filePaths : ∀ allIssues log0,
  ∃ attempted outcomes log',
    reviewFilesLoop host config filePaths onProgress token allIssues log0 =
      (Ok (allIssues ++ flat_map issuesOf outcomes), log') ∧
    attempted `prefix_of` filePaths ∧
    (neverCancelled token → attempted = filePaths) ∧
    Forall2 (outcomeOfReview host config token) attempted outcomes.
Proof.
  induction filePaths as [|filePath rest IH]; intros allIssues log0.
  - exists [], [], log0. cbn [reviewFilesLoop flat_map]. rewrite app_nil_r.
    split; [done|]. split; [done|]. split; [done | constructor].
  - cbn [reviewFilesLoop].
    destruct (match token with Some t => t log0 | None => false end) eqn:Ecancel.
    + exists [], [], log0. cbn [flat_map]. rewrite app_nil_r.
      split; [done|]. split; [apply prefix_nil|]. split; [|constructor].
      intros Hnever. destruct token as [t|]; [|done].
      simpl in Hnever. by rewrite Hnever in Ecancel.
    + unfold bind at 1. unfold attempt at 1.
      destruct (reviewFile host config filePath token log0) as [outcome log1] eqn:Erev.
      destruct outcome as [fileIssues|error].
      * unfold bind at 1. unfold attempt at 1.
        destruct (match onProgress with
                  | Some callback =>
                      perform (CallOnProgress (allIssues ++ fileIssues) filePath)
                        (fun log => callback log (allIssues ++ fileIssues) filePath)
                  | None => ret tt
                  end log1) as [r log2].
        destruct (IH (allIssues ++ fileIssues) log2)
          as (attempted & outcomes & log' & -> & Hpre & Hall & Hout).
        exists (filePath :: attempted), (Ok fileIssues :: outcomes), log'.
        cbn [flat_map issuesOf]. rewrite app_assoc.
        split; [done|]. split; [by apply prefix_cons|].
        split; [intros Hn; by rewrite Hall|].
        constructor; [by exists log0, log1 | done].
      * destruct (IH allIssues log1)
          as (attempted & outcomes & log' & -> & Hpre & Hall & Hout).
        exists (filePath :: attempted), (Throw error :: outcomes), log'.
        cbn [flat_map issuesOf app].
        split; [done|]. split; [by apply prefix_cons|].
        split; [intros Hn; by rewrite Hall|].
        constructor; [by exists log0, log1 | done].
Qed.

(** C10. [reviewFiles] resolves on every input. What it returns is the
    concatenation, in order, of the issues of the reviews that resolved among
    the files it attempted; a review that rejects, for whatever reason,
    contributes nothing and does not stop the sweep: the attempted files are
    a prefix of the list, and all of it when no cancellation is requested. *)
Theorem reviewFiles_never_rejects filePaths onProgress token log0 :
  ∃ attempted outcomes log',
    reviewFiles host config filePaths onProgress token log0 =
      (Ok (flat_map issuesOf outcomes), log') ∧
    attempted `prefix_of` filePaths ∧
    (neverCancelled token → attempted = filePaths) ∧
    Forall2 (outcomeOfReview host config token) attempted outcomes.
Proof.
  unfold reviewFiles.
  destruct (reviewFilesLoop_resolves onProgress token filePaths [] log0)
    as (attempted & outcomes & log' & Hrun & Hrest).
  by exists attempted, outcomes, log'.
Qed.

End Review.

(** C6 as the design document states it fails on both counts: with no model
    at all, reviewing a file that has no diff returns the empty list instead
    of rejecting; and with a model available, a failed diff fetch makes the
    review reject. *)
Lemma review_outcomes_beyond_no_model :
  let model := mkModel "gpt-4o" 0 in
  let noModels := scriptedHost (Ok (Some EmptyString)) [] [] [] [] EmptyString in
  let noDiffFetch := scriptedHost (Throw "git error") [model] [model]
                       [[TextPart "[]"]] [] EmptyString in
  (reviewFile noModels defaultConfig "src/unchanged.ts" None []).1 = Ok [] ∧
  (reviewFile noDiffFetch defaultConfig "src/auth.ts" None []).1 = Throw "git error".
Proof. split; reflexivity. Qed.

Lemma reviewFile_rejections_witness :
  let noModels := scriptedHost (Ok (Some "@@ -1 +1 @@")) [] [] [] [] EmptyString in
  ∃ log', reviewFile noModels defaultConfig "src/auth.ts" None [] =
            (Throw noModelError, log').
Proof.
  intros noModels.
  destruct (reviewFile_rejections noModels defaultConfig "src/auth.ts" None [])
    as (Hreject & _ & _).
  destruct (Hreject "@@ -1 +1 @@" eq_refl ltac:(discriminate) ltac:(by intros ? [?|]))
    as (error & log' & Hrun & Herr).
  exists log'. rewrite Hrun. by rewrite (Herr "abc123 fix auth" eq_refl).
Defined.

Lemma reviewFiles_never_rejects_witness :
  let noModels := scriptedHost (Ok (Some "@@ -1 +1 @@")) [] [] [] [] EmptyString in
  ∃ log', reviewFiles noModels defaultConfig ["a.ts"; "b.ts"] None None [] = (Ok [], log').
Proof.
  intros noModels.
  destruct (reviewFiles_never_rejects noModels defaultConfig ["a.ts"; "b.ts"] None None [])
    as (attempted & outcomes & log' & Hrun & _ & Hall & Hout).
  exists log'. rewrite Hrun. f_equal.
  rewrite (Hall I) in Hout.
  assert (Hthrow : ∀ f o, outcomeOfReview noModels defaultConfig None f o → issuesOf o = []).
  { intros f o (l1 & l2 & Ho). by injection Ho as <- _. }
  inversion Hout as [|? o1 ? rest1 Ho1 Hrest1]; subst.
  inversion Hrest1 as [|? o2 ? rest2 Ho2 Hrest2]; subst.
  inversion Hrest2; subst. cbn [flat_map].
  by rewrite (Hthrow _ _ Ho1), (Hthrow _ _ Ho2).
Defined.

(** *** The response parser *)

Lemma trimEnd_keep c s :
  isJsSpace c = false → trimEnd (s +:+ str1 c) = s +:+ str1 c.
Proof.
  intros Hc. induction s as [|x s IH].
  - rewrite JsonFacts.append_nil_l. unfold str1. cbn [trimEnd]. by rewrite Hc.
  - rewrite JsonFacts.append_cons. cbn [trimEnd]. rewrite IH.
    destruct s as [|y s]; reflexivity.
Qed.

Lemma uptoLast_snoc c s : uptoLast c (s +:+ str1 c) = Some (s +:+ str1 c).
Proof.
  induction s as [|x s IH].
  - rewrite JsonFacts.append_nil_l. unfold str1. cbn [uptoLast].
    by rewrite Ascii.eqb_refl.
  - rewrite JsonFacts.append_cons. cbn [uptoLast]. by rewrite IH.
Qed.

Lemma stringify_array_shape l :
  ∃ body, stringify (JArray l) = String "[" (body +:+ str1 "]").
Proof.
  exists (joinComma (map stringify l)). cbn [stringify].
  by rewrite JsonFacts.append_cons, JsonFacts.append_nil_l.
Qed.

Lemma trim_stringify_array l : trim (stringify (JArray l)) = stringify (JArray l).
Proof.
  destruct (stringify_array_shape l) as [body ->].
  unfold trim. cbn [trimStart]. change (isJsSpace "[") with false. cbv iota.
  change (String "[" (body +:+ str1 "]")) with ((String "[" body) +:+ str1 "]").
  by apply trimEnd_keep.
Qed.

Lemma arrayMatch_stringify_array l :
  arrayMatch (stringify (JArray l)) = Some (stringify (JArray l)).
Proof.
  destruct (stringify_array_shape l) as [body ->].
  unfold arrayMatch. cbn [findSub Js.startsWith String.length Js.dropChars].
  change (Ascii.eqb "[" "[") with true. cbn [andb].
  by rewrite uptoLast_snoc.
Qed.

Lemma filter_all {A} (f : A → bool) l :
  Forall (fun x => f x = true) l → List.filter f l = l.
Proof.
  induction 1 as [|x l Hx Hl IH]; [done|]. cbn [List.filter]. by rewrite Hx, IH.
Qed.

Section RoundTrip.

Context `{Utils}.

(** A serialized array of valid issue objects, free of code fences, is
    parsed into the normalisation of each object. *)
Lemma parseResponse_stringify (objects : list JSON) :
  Forall (fun o => isValidIssue o = true) objects →
  JsonSpec.wellFormedJSON (JArray objects) →
  fenceMatch (stringify (JArray objects)) = None →
  parseResponse (stringify (JArray objects)) = map normalizeIssue objects.
Proof.
  intros Hvalid Hwf Hfence. unfold parseResponse.
  rewrite trim_stringify_array, Hfence, arrayMatch_stringify_array.
  rewrite (JsonFacts.parse_stringify _ Hwf). by rewrite filter_all.
Qed.

Lemma isValidIssue_toJSON i : isTier (ioTier i) = true → isValidIssue (toJSON i) = true.
Proof. intros Ht. unfold toJSON. by destruct (ioFile i). Qed.

Lemma normalizeIssue_toJSON i : normalizeIssue (toJSON i) = normalized i.
Proof. unfold toJSON, normalized. by destruct (ioFile i). Qed.

Lemma wellFormed_toJSON i :
  JsonSpec.printable (ioLine i) → JsonSpec.wellFormedJSON (toJSON i).
Proof.
  intros Hn. unfold toJSON. apply JsonFacts.wellFormed_object.
  destruct (ioFile i); (split; [|by repeat constructor]);
    cbn [map fst app]; by apply (bool_decide_unpack _).
Qed.

(** C7, as the code has it. A list of valid issue objects, serialized with
    [JSON.stringify] and given to [parseResponse], comes back as the list of
    their normalisations (tier as it was, file or the empty string, line
    rounded and at least 1, title and explanation truncated by
    [truncateText] to 80 and to 500 characters), provided the line of each
    object is a finite number and the serialized text holds no pair of code
    fences. *)
Theorem parseResponse_roundtrip (issues : list IssueObject) :
  Forall validIssueObject issues →
  fenceMatch (stringify (JArray (map toJSON issues))) = None →
  parseResponse (stringify (JArray (map toJSON issues))) = map normalized issues.
Proof.
  intros Hvalid Hfence.
  rewrite parseResponse_stringify; [| | |done].
  - rewrite map_map. apply map_ext. intros i. apply normalizeIssue_toJSON.
  - apply Forall_map. eapply Forall_impl; [exact Hvalid|].
    intros i [Ht _]. by apply isValidIssue_toJSON.
  - apply JsonFacts.wellFormed_array, Forall_map.
    eapply Forall_impl; [exact Hvalid|].
    intros i [_ Hn]. by apply wellFormed_toJSON.
Qed.

End RoundTrip.

Lemma parseResponse_roundtrip_witness :
  let issues := [mkIssueObject "high" (Some "src/auth.ts") (Js.int 47)
                   "Token used without validation" "The token is used as it comes.";
                 mkIssueObject "medium" (Some "src/db.ts") (Js.mkNumber 125 1)
                   "Fractional line" "12.5 is rounded up.";
                 mkIssueObject "low" None (Js.int (-5)) "Negative line" "Desc"] in
  parseResponse (stringify (JArray (map toJSON issues))) =
  [mkIssue "high" "src/auth.ts" 47 "Token used without validation"
     "The token is used as it comes.";
   mkIssue "medium" "src/db.ts" 13 "Fractional line" "12.5 is rounded up.";
   mkIssue "low" EmptyString 1 "Negative line" "Desc"].
Proof.
  intros issues.
  assert (Hvalid : Forall validIssueObject issues).
  { repeat (apply Forall_cons; split; [split; [reflexivity | by vm_compute] |]).
    apply Forall_nil_2. }
  exact (parseResponse_roundtrip issues Hvalid eq_refl).
Defined.

(** C7 as the design document states it fails, in two ways. A valid issue
    object whose title holds two code fences is serialized to a text in
    which the fence pattern matches inside the title, and the parser
    returns no issue. And an issue object whose line is [NaN], which is of
    type number, is serialized with [null] for its line, fails the check
    of the line in [isValidIssue] and is dropped. *)
Lemma fence_or_NaN_line_loses_the_issue :
  let issue :=
    mkIssueObject "high" (Some "src/auth.ts") (Js.int 1) "Use of ```eval```" "x" in
  let lineless :=
    JObject [("tier", JString "high"); ("line", ofNumber Js.NaN);
             ("title", JString "Unchecked token"); ("explanation", JString "x")] in
  (validIssueObject issue ∧
   stringify (JArray [toJSON issue]) =
     "[{" +:+ quoteString "tier" +:+ ":" +:+ quoteString "high" +:+ "," +:+
     quoteString "file" +:+ ":" +:+ quoteString "src/auth.ts" +:+ "," +:+
     quoteString "line" +:+ ":1," +:+
     quoteString "title" +:+ ":" +:+ quoteString "Use of ```eval```" +:+ "," +:+
     quoteString "explanation" +:+ ":" +:+ quoteString "x" +:+ "}]" ∧
   fenceMatch (stringify (JArray [toJSON issue])) = Some "eval" ∧
   parseResponse (stringify (JArray [toJSON issue])) = [] ∧
   map normalized [issue] =
     [mkIssue "high" "src/auth.ts" 1 "Use of ```eval```" "x"]) ∧
  (stringify (JArray [lineless]) =
     "[{" +:+ quoteString "tier" +:+ ":" +:+ quoteString "high" +:+ "," +:+
     quoteString "line" +:+ ":null," +:+
     quoteString "title" +:+ ":" +:+ quoteString "Unchecked token" +:+ "," +:+
     quoteString "explanation" +:+ ":" +:+ quoteString "x" +:+ "}]" ∧
   fenceMatch (stringify (JArray [lineless])) = None ∧
   parse (stringify (JArray [lineless])) = Some (JArray [lineless]) ∧
   isValidIssue lineless = false ∧
   parseResponse (stringify (JArray [lineless])) = []).
Proof.
  split.
  - split; [split; [reflexivity | cbn; lia]|]. repeat split; reflexivity.
  - repeat split; reflexivity.
Qed.

(** A line that [String] prints in scientific notation comes back as
    well: 1.5e-7, which is rounded to 0 and raised to 1, and 1e21. *)
Example line_in_scientific_notation :
  let small := mkIssueObject "low" None (Js.mkNumber 15 8) "Tiny line" "x" in
  let large := mkIssueObject "low" None (Js.int (10 ^ 21)) "Huge line" "y" in
  stringify (JArray [toJSON small; toJSON large]) =
    "[{" +:+ quoteString "tier" +:+ ":" +:+ quoteString "low" +:+ "," +:+
    quoteString "line" +:+ ":1.5e-7," +:+
    quoteString "title" +:+ ":" +:+ quoteString "Tiny line" +:+ "," +:+
    quoteString "explanation" +:+ ":" +:+ quoteString "x" +:+ "},{" +:+
    quoteString "tier" +:+ ":" +:+ quoteString "low" +:+ "," +:+
    quoteString "line" +:+ ":1e+21," +:+
    quoteString "title" +:+ ":" +:+ quoteString "Huge line" +:+ "," +:+
    quoteString "explanation" +:+ ":" +:+ quoteString "y" +:+ "}]" ∧
  parseResponse (stringify (JArray [toJSON small; toJSON large])) =
    [mkIssue "low" EmptyString 1 "Tiny line" "x";
     mkIssue "low" EmptyString (10 ^ 21) "Huge line" "y"].
Proof. split; reflexivity. Qed.

(** *** What the response parser returns on any text *)

Section ParserFacts.

Context `{Utils}.

Lemma isValidIssue_tier obj :
  isValidIssue obj = true →
  ∃ t, prop obj "tier" = Some (JString t) ∧ isTier t = true.
Proof.
  unfold isValidIssue. intros Hv.
  assert (Hm : match prop obj "tier", prop obj "line", prop obj "title",
                     prop obj "explanation" with
               | Some (JString t), Some (JNumber _), Some (JString _), Some (JString _) =>
                   isTier t
               | _, _, _, _ => false
               end = true) by by destruct obj.
  destruct (prop obj "tier") as [[| | |t| |]|]; try done.
  exists t. split; [done|].
  destruct (prop obj "line") as [[| |x| | |]|]; try done.
  destruct (prop obj "title") as [[| | |t1| |]|]; try done.
  by destruct (prop obj "explanation") as [[| | |t2| |]|].
Qed.

Lemma parseResponse_elem responseText issue :
  issue ∈ parseResponse responseText →
  isTier (tier issue) = true ∧ 1 ≤ line issue.
Proof.
  unfold parseResponse. intros Hin.
  destruct (arrayMatch _) as [arr|]; [|by apply not_elem_of_nil in Hin].
  destruct (parse arr) as [[| | | |parsed|]|]; try by apply not_elem_of_nil in Hin.
  apply list_elem_of_fmap in Hin as (obj & -> & Hobj).
  apply list_elem_of_In, filter_In in Hobj as [_ Hvalid].
  destruct (isValidIssue_tier obj Hvalid) as (t & Ht & Htier).
  unfold normalizeIssue. cbn [tier line]. rewrite Ht. split; [done | lia].
Qed.

(** X6. Whatever the model answers, every issue [parseResponse] returns has one
    of the three tiers and a line number of at least 1. *)
Theorem parseResponse_issues_are_normalised responseText issue :
  issue ∈ parseResponse responseText →
  isTier (tier issue) = true ∧ 1 ≤ line issue.
Proof. apply parseResponse_elem. Qed.

Lemma occurs_trimStart c s : occurs c (trimStart s) = true → occurs c s = true.
Proof.
  induction s as [|x s IH]; [done|]. cbn [trimStart].
  destruct (isJsSpace x); [|done]. intros Hc. cbn [occurs]. rewrite (IH Hc).
  apply orb_true_r.
Qed.

Lemma occurs_trimEnd c s : occurs c (trimEnd s) = true → occurs c s = true.
Proof.
  induction s as [|x s IH]; [done|]. cbn [trimEnd occurs].
  destruct (trimEnd s) as [|y r].
  - destruct (isJsSpace x); [done|]. cbn [str1 occurs]. rewrite orb_false_r.
    intros ->. done.
  - cbn [occurs]. intros [->|Hr]%orb_true_iff; [done|].
    rewrite (IH Hr). apply orb_true_r.
Qed.

Lemma occurs_trim c s : occurs c (trim s) = true → occurs c s = true.
Proof. intros Hc. by apply occurs_trimStart, occurs_trimEnd. Qed.

Lemma occurs_dropChars c n : ∀ s, occurs c (Js.dropChars n s) = true → occurs c s = true.
Proof.
  induction n as [|n IH]; intros [|x s]; cbn [Js.dropChars]; try done.
  intros Hc. cbn [occurs]. rewrite (IH s Hc). apply orb_true_r.
Qed.

Lemma occurs_findSub c pat : ∀ s before after,
  findSub pat s = Some (before, after) →
  (occurs c before = true → occurs c s = true) ∧
  (occurs c after = true → occurs c s = true).
Proof.
  induction s as [|x s IH]; intros before after.
  - cbn [findSub]. destruct (Js.startsWith pat EmptyString); [|done].
    intros [= <- <-]. split; [done|]. apply occurs_dropChars.
  - cbn [findSub]. destruct (Js.startsWith pat (String x s)).
    + intros [= <- <-]. split; [done|]. apply occurs_dropChars.
    + destruct (findSub pat s) as [[b a]|]; [|done]. intros [= <- <-].
      destruct (IH b a eq_refl) as [Hb Ha]. cbn [occurs]. split.
      * intros [->|Hc]%orb_true_iff; [done|]. rewrite (Hb Hc). apply orb_true_r.
      * intros Hc. rewrite (Ha Hc). apply orb_true_r.
Qed.

Lemma occurs_fenceMatch c text inner :
  fenceMatch text = Some inner → occurs c inner = true → occurs c text = true.
Proof.
  unfold fenceMatch.
  destruct (findSub fence text) as [[before afterOpen]|] eqn:E1; [|done].
  destruct (findSub fence (trimStart _)) as [[inner' rest]|] eqn:E2; [|done].
  intros [= <-] Hc.
  apply (occurs_findSub c _ _ _ _ E1).
  apply (occurs_findSub c) in E2 as [Hb _]. specialize (Hb Hc).
  apply occurs_trimStart in Hb.
  destruct (Js.startsWith "json" afterOpen); [by apply (occurs_dropChars c 4)|done].
Qed.

Lemma findSub_char_none c s : occurs c s = false → findSub (str1 c) s = None.
Proof.
  induction s as [|x s IH]; [done|]. cbn [occurs]. intros [Hx Hs]%orb_false_iff.
  cbn [findSub Js.startsWith str1]. rewrite Ascii.eqb_sym, Hx. cbn [andb].
  by rewrite (IH Hs).
Qed.

Lemma uptoLast_none c s : occurs c s = false → uptoLast c s = None.
Proof.
  induction s as [|x s IH]; [done|]. cbn [occurs]. intros [Hx Hs]%orb_false_iff.
  cbn [uptoLast]. by rewrite (IH Hs), Hx.
Qed.

Lemma arrayMatch_none text :
  occurs "[" text = false ∨ occurs "]" text = false → arrayMatch text = None.
Proof.
  unfold arrayMatch. intros [Ho|Hc].
  - change "["%string with (str1 "["). by rewrite findSub_char_none.
  - destruct (findSub "[" text) as [[before afterOpen]|] eqn:E; [|done].
    rewrite uptoLast_none; [done|].
    destruct (occurs "]" afterOpen) eqn:Ea; [|done].
    apply (occurs_findSub "]") in E as [_ Ha]. by rewrite (Ha Ea) in Hc.
Qed.

(** X7. A response that lacks an opening or a closing square bracket holds no
    array: [parseResponse] returns the empty list. *)
Theorem parseResponse_without_brackets responseText :
  occurs "[" responseText = false ∨ occurs "]" responseText = false →
  parseResponse responseText = [].
Proof.
  intros Hno. unfold parseResponse.
  assert (Hsub : ∀ c, occurs c responseText = false →
            occurs c (match fenceMatch (trim responseText) with
                      | Some inner => trim inner
                      | None => trim responseText
                      end) = false).
  { intros c Hc. apply not_true_is_false. intros Hin.
    destruct (fenceMatch (trim responseText)) as [inner|] eqn:Ef.
    - apply occurs_trim in Hin. apply (occurs_fenceMatch c _ _ Ef) in Hin.
      apply occurs_trim in Hin. congruence.
    - apply occurs_trim in Hin. congruence. }
  rewrite arrayMatch_none; [done|].
  destruct Hno as [Ho|Hc]; [left | right]; by apply Hsub.
Qed.

(** X8. A serialized array is looked at element by element: those that fail
    [isValidIssue] are dropped, the others are normalised, in order. *)
Theorem parseResponse_drops_invalid_elements (elements : list JSON) :
  JsonSpec.wellFormedJSON (JArray elements) →
  fenceMatch (stringify (JArray elements)) = None →
  parseResponse (stringify (JArray elements)) =
    map normalizeIssue (List.filter isValidIssue elements).
Proof.
  intros Hwf Hfence. unfold parseResponse.
  rewrite trim_stringify_array, Hfence, arrayMatch_stringify_array.
  by rewrite (JsonFacts.parse_stringify _ Hwf).
Qed.

Lemma findSub_fence_closing : ∀ s,
  findSub fence s = None →
  findSub fence (s +:+ nl +:+ fence) = Some (s +:+ nl, EmptyString).
Proof.
  induction s as [|c s IH]; [reflexivity|].
  cbn [findSub]. destruct (Js.startsWith fence (String c s)) eqn:Es; [done|].
  destruct (findSub fence s) as [[b a]|]; [done|]. intros _.
  rewrite JsonFacts.append_cons. cbn [findSub]. rewrite (IH eq_refl).
  assert (Hno : Js.startsWith fence (String c (s +:+ nl +:+ fence)) = false).
  { unfold fence in *. cbn [Js.startsWith] in *.
    destruct (Ascii.eqb "`" c); [|done]. cbn [andb] in *.
    destruct s as [|c2 s]; [done|]. rewrite JsonFacts.append_cons.
    destruct (Ascii.eqb "`" c2); [|done]. cbn [andb] in *.
    destruct s as [|c3 s]; [done|]. rewrite JsonFacts.append_cons.
    by destruct (Ascii.eqb "`" c3). }
  by rewrite Hno.
Qed.

Lemma trimEnd_strip c s : isJsSpace c = true → trimEnd (s +:+ str1 c) = trimEnd s.
Proof.
  intros Hc. induction s as [|x s IH].
  - rewrite JsonFacts.append_nil_l. unfold str1. cbn [trimEnd]. by rewrite Hc.
  - rewrite JsonFacts.append_cons. cbn [trimEnd]. by rewrite IH.
Qed.

Lemma findSub_none_fenceMatch text : findSub fence text = None → fenceMatch text = None.
Proof. unfold fenceMatch. by intros ->. Qed.

Lemma fenceMatch_fenced tagged text :
  (∀ rest, trimStart (text +:+ rest) = text +:+ rest) →
  findSub fence text = None →
  fenceMatch (fenced tagged text) = Some (text +:+ nl).
Proof.
  intros Hstart Hno.
  assert (Hopen : fenceMatch (fenced tagged text) =
            match findSub fence (trimStart (text +:+ nl +:+ fence)) with
            | Some (inner, _) => Some inner
            | None => None
            end) by (destruct tagged; reflexivity).
  by rewrite Hopen, Hstart, findSub_fence_closing.
Qed.

Lemma trim_fenced tagged text : trim (fenced tagged text) = fenced tagged text.
Proof.
  assert (Hshape : ∃ body, fenced tagged text = String "`" (body +:+ str1 "`")).
  { exists ("``" +:+ (if tagged then "json" else EmptyString) +:+ nl +:+ text +:+ nl +:+ "``").
    unfold fenced, fence. rewrite !JsonFacts.append_assoc. reflexivity. }
  destruct Hshape as [body ->]. unfold trim. cbn [trimStart].
  change (isJsSpace "`") with false. cbv iota.
  change (String "`" (body +:+ str1 "`")) with (String "`" body +:+ str1 "`").
  by apply trimEnd_keep.
Qed.

(** X9. A serialized array wrapped in a code fence, tagged [json] or not, is
    parsed as the bare array is, when the array itself holds no fence. *)
Theorem parseResponse_fenced (elements : list JSON) (tagged : bool) :
  findSub fence (stringify (JArray elements)) = None →
  parseResponse (fenced tagged (stringify (JArray elements))) =
  parseResponse (stringify (JArray elements)).
Proof.
  intros Hno. unfold parseResponse at 2.
  rewrite trim_stringify_array, (findSub_none_fenceMatch _ Hno).
  unfold parseResponse.
  pose proof (trim_stringify_array elements) as Htrim.
  destruct (stringify_array_shape elements) as [body Hshape].
  set (json := stringify (JArray elements)) in *.
  assert (Hstart : ∀ rest, trimStart (json +:+ rest) = json +:+ rest).
  { intros rest. by rewrite Hshape, JsonFacts.append_cons. }
  rewrite trim_fenced, (fenceMatch_fenced tagged json Hstart Hno).
  assert (Hinner : trim (json +:+ nl) = json).
  { unfold trim. rewrite Hstart. unfold nl. rewrite trimEnd_strip by done.
    pose proof Htrim as Ht. unfold trim in Ht.
    rewrite <- (JsonFacts.append_nil_r json) in Ht at 1.
    by rewrite Hstart, JsonFacts.append_nil_r in Ht. }
  by rewrite Hinner.
Qed.

End ParserFacts.

Lemma parseResponse_issues_are_normalised_witness :
  let text := stringify (JArray [toJSON (mkIssueObject "low" None (Js.int (-3)) "T" "E")]) in
  let issue := mkIssue "low" EmptyString 1 "T" "E" in
  issue ∈ parseResponse text ∧ isTier (tier issue) = true ∧ 1 ≤ line issue.
Proof.
  intros text issue.
  assert (Hin : issue ∈ parseResponse text).
  { change (parseResponse text) with [issue]. apply list_elem_of_singleton. reflexivity. }
  split; [exact Hin|].
  exact (parseResponse_issues_are_normalised text issue Hin).
Defined.

Lemma parseResponse_without_brackets_witness :
  parseResponse "I found no risk in this change." = [].
Proof. apply parseResponse_without_brackets. left. reflexivity. Defined.

Lemma parseResponse_drops_invalid_elements_witness :
  let good := toJSON (mkIssueObject "high" None (Js.int 7) "Valid" "Kept") in
  let bad := JObject [("tier", JString "critical"); ("line", JNumber (Js.int 1));
                      ("title", JString "Invalid"); ("explanation", JString "Dropped")] in
  parseResponse (stringify (JArray [bad; good; JNull])) =
    [mkIssue "high" EmptyString 7 "Valid" "Kept"].
Proof.
  intros good bad.
  assert (Hwf : JsonSpec.wellFormedJSON (JArray [bad; good; JNull])).
  { cbn. split_and!; try done; try lia; by apply (bool_decide_unpack _). }
  exact (parseResponse_drops_invalid_elements [bad; good; JNull] Hwf eq_refl).
Defined.

Lemma parseResponse_fenced_witness :
  let elements := [toJSON (mkIssueObject "medium" (Some "a.ts") (Js.int 2) "T" "E")] in
  parseResponse (fenced true (stringify (JArray elements))) =
    [mkIssue "medium" "a.ts" 2 "T" "E"].
Proof.
  intros elements.
  rewrite (parseResponse_fenced elements true eq_refl). reflexivity.
Defined.

(** *** The calls a review makes *)

Lemma requestsOf_app l1 l2 : requestsOf (l1 ++ l2) = requestsOf l1 ++ requestsOf l2.
Proof. unfold requestsOf. by rewrite flat_map_app. Qed.

Lemma progressOf_app l1 l2 : progressOf (l1 ++ l2) = progressOf l1 ++ progressOf l2.
Proof. unfold progressOf. by rewrite flat_map_app. Qed.

Lemma quiet_toolCallsOf parts : Forall quiet (toolCallsOf parts).
Proof.
  induction parts as [|c parts IH]; [constructor|].
  unfold toolCallsOf. cbn [flat_map]. fold (toolCallsOf parts).
  apply Forall_app. split; [|done]. destruct c; by repeat constructor.
Qed.

Lemma quiet_prefix tools parts :
  tools `prefix_of` toolCallsOf parts → Forall quiet tools.
Proof.
  intros [more Hmore]. pose proof (quiet_toolCallsOf parts) as Hq.
  rewrite Hmore in Hq. by apply Forall_app in Hq as [? _].
Qed.

Lemma quiet_countSend calls : Forall quiet calls → countSend calls = O.
Proof.
  induction 1 as [|c calls Hc _ IH]; [done|].
  change (c :: calls) with ([c] ++ calls). rewrite countSend_app, IH. by destruct c.
Qed.

Lemma quiet_requestsOf calls : Forall quiet calls → requestsOf calls = [].
Proof.
  induction 1 as [|c calls Hc _ IH]; [done|].
  change (c :: calls) with ([c] ++ calls). rewrite requestsOf_app, IH. by destruct c.
Qed.

Lemma quiet_progressOf calls : Forall quiet calls → progressOf calls = [].
Proof.
  induction 1 as [|c calls Hc _ IH]; [done|].
  change (c :: calls) with ([c] ++ calls). rewrite progressOf_app, IH. by destruct c.
Qed.

Lemma sentWhileLive_refl t log : sentWhileLive t log log.
Proof.
  intros i model messages Hi Hlen. apply lookup_lt_Some in Hi. lia.
Qed.

Lemma sentWhileLive_trans t log0 log1 log2 :
  log0 `prefix_of` log1 → log1 `prefix_of` log2 →
  sentWhileLive t log0 log1 → sentWhileLive t log1 log2 →
  sentWhileLive t log0 log2.
Proof.
  intros [c1 ->] [c2 ->] H01 H12 i model messages Hi Hlen.
  destruct (decide (i < length (log0 ++ c1))%nat) as [Hlt|Hge].
  - rewrite lookup_app_l in Hi by done.
    rewrite take_app_le by lia. by apply (H01 i model messages).
  - apply (H12 i model messages); [done | lia].
Qed.

Lemma sentWhileLive_quiet t log calls :
  Forall quiet calls → sentWhileLive t log (log ++ calls).
Proof.
  intros Hq i model messages Hi Hlen.
  rewrite lookup_app_r in Hi by done.
  apply list_elem_of_lookup_2 in Hi.
  rewrite Forall_forall in Hq. by apply Hq in Hi.
Qed.

Lemma sentWhileLive_send t log model messages :
  t log = false → sentWhileLive t log (log ++ [CallSendRequest model messages]).
Proof.
  intros Ht i m msgs Hi Hlen.
  assert (i = length log) as ->.
  { apply lookup_lt_Some in Hi. rewrite length_app in Hi. simpl in Hi. lia. }
  by rewrite take_app_length.
Qed.

Lemma agentCalls_countSend model tok n log calls :
  agentCalls model tok n log calls → (countSend calls ≤ n)%nat.
Proof.
  induction 1 as [|n log messages parts rest Htok _ IH
                  |n log messages parts tools Htok Hpre]; [cbn; lia| |].
  - change (CallSendRequest model messages :: toolCallsOf parts ++ rest)
      with ([CallSendRequest model messages] ++ toolCallsOf parts ++ rest).
    rewrite !countSend_app, countSend_toolCallsOf.
    change (countSend [CallSendRequest model messages]) with 1%nat. lia.
  - change (CallSendRequest model messages :: tools)
      with ([CallSendRequest model messages] ++ tools).
    rewrite countSend_app, (quiet_countSend _ (quiet_prefix _ _ Hpre)).
    change (countSend [CallSendRequest model messages]) with 1%nat. lia.
Qed.

Lemma agentCalls_requests model tok n log calls :
  agentCalls model tok n log calls → Forall (eq model) (requestsOf calls).
Proof.
  induction 1 as [|n log messages parts rest Htok _ IH
                  |n log messages parts tools Htok Hpre]; [constructor| |].
  - change (CallSendRequest model messages :: toolCallsOf parts ++ rest)
      with ([CallSendRequest model messages] ++ toolCallsOf parts ++ rest).
    rewrite !requestsOf_app, (quiet_requestsOf _ (quiet_toolCallsOf parts)).
    by constructor.
  - change (CallSendRequest model messages :: tools)
      with ([CallSendRequest model messages] ++ tools).
    rewrite requestsOf_app, (quiet_requestsOf _ (quiet_prefix _ _ Hpre)).
    by repeat constructor.
Qed.

Lemma agentCalls_progress model tok n log calls :
  agentCalls model tok n log calls → progressOf calls = [].
Proof.
  induction 1 as [|n log messages parts rest Htok _ IH
                  |n log messages parts tools Htok Hpre]; [done| |].
  - change (CallSendRequest model messages :: toolCallsOf parts ++ rest)
      with ([CallSendRequest model messages] ++ toolCallsOf parts ++ rest).
    by rewrite !progressOf_app, (quiet_progressOf _ (quiet_toolCallsOf parts)), IH.
  - change (CallSendRequest model messages :: tools)
      with ([CallSendRequest model messages] ++ tools).
    by rewrite progressOf_app, (quiet_progressOf _ (quiet_prefix _ _ Hpre)).
Qed.

Lemma agentCalls_live model tok n log calls :
  agentCalls model tok n log calls → sentWhileLive tok log (log ++ calls).
Proof.
  induction 1 as [n log|n log messages parts rest Htok _ IH
                  |n log messages parts tools Htok Hpre].
  { rewrite app_nil_r. apply sentWhileLive_refl. }
  2:{ change (CallSendRequest model messages :: tools)
        with ([CallSendRequest model messages] ++ tools).
      rewrite app_assoc.
      eapply sentWhileLive_trans;
        [by apply prefix_app_r | by apply prefix_app_r
        | by apply sentWhileLive_send
        | apply sentWhileLive_quiet, (quiet_prefix _ _ Hpre)]. }
  replace (log ++ CallSendRequest model messages :: toolCallsOf parts ++ rest)
    with ((log ++ CallSendRequest model messages :: toolCallsOf parts) ++ rest)
    by by rewrite <- app_assoc.
  eapply sentWhileLive_trans; [| |  | exact IH].
  - by apply prefix_app_r.
  - by apply prefix_app_r.
  - change (CallSendRequest model messages :: toolCallsOf parts)
      with ([CallSendRequest model messages] ++ toolCallsOf parts).
    rewrite app_assoc.
    eapply sentWhileLive_trans;
      [by apply prefix_app_r | by apply prefix_app_r
      | by apply sentWhileLive_send
      | apply sentWhileLive_quiet, quiet_toolCallsOf].
Qed.

Section Calls.

Context `{Utils}.
Variable host : Host.
Variable config : Config.

(** The log of the agent loop, iteration by iteration. *)
Lemma agentIterations_calls model tok n : ∀ messages log,
  ∃ calls,
    (agentIterations host n model tok messages log).2 = log ++ calls ∧
    agentCalls model tok n log calls.
Proof.
  induction n as [|n IH]; intros messages log.
  { exists []. cbn. rewrite app_nil_r. split; [done | constructor]. }
  cbn [agentIterations]. destruct (tok log) eqn:Etok.
  { exists []. cbn. rewrite app_nil_r. split; [done | constructor]. }
  assert (Hone : agentCalls model tok (S n) log [CallSendRequest model messages]).
  { apply (agentCalls_round model tok n log messages [] []); [done | constructor]. }
  unfold bind at 1. unfold perform at 1.
  destruct (sendRequest host log model messages) as [chunks|error];
    [|by exists [CallSendRequest model messages]].
  destruct (List.filter isToolCallPart chunks) as [|p ps] eqn:Eparts;
    [by exists [CallSendRequest model messages]|].
  unfold bind at 1.
  destruct (executeTools_calls host (p :: ps) [] (log ++ [CallSendRequest model messages]))
    as (outcome & tools & Hres & Hpre & Hall).
  rewrite Hres. destruct outcome as [results|error].
  - rewrite (Hall results eq_refl).
    match goal with |- context [agentIterations host n model tok ?msgs ?lg] =>
      destruct (IH msgs lg) as (calls & Hcalls & Hac) end.
    exists (CallSendRequest model messages :: toolCallsOf (p :: ps) ++ calls). split.
    + rewrite Hcalls. by rewrite <- !app_assoc.
    + apply agentCalls_round; [done|]. by rewrite <- app_assoc in Hac.
  - exists (CallSendRequest model messages :: tools). split.
    + cbn [snd]. by rewrite <- app_assoc.
    + by apply (agentCalls_abort model tok n log messages (p :: ps)).
Qed.

(** What the agent loop resolves with is the empty list or what
    [parseResponse] made of a response. *)
Lemma agentIterations_result model tok n : ∀ messages log issues log',
  agentIterations host n model tok messages log = (Ok issues, log') →
  issues = [] ∨ ∃ text, issues = parseResponse text.
Proof.
  induction n as [|n IH]; intros messages log issues log'.
  { cbn. intros [= <- _]. by left. }
  cbn [agentIterations]. destruct (tok log).
  { cbn. intros [= <- _]. by left. }
  unfold bind at 1. unfold perform at 1.
  destruct (sendRequest host log model messages) as [chunks|error]; [|done].
  destruct (List.filter isToolCallPart chunks) as [|p ps].
  { cbn. intros [= <- _]. right. by eexists. }
  unfold bind at 1.
  destruct (executeTools host (p :: ps) [] (log ++ [CallSendRequest model messages]))
    as [[results|error] log1]; [apply IH | done].
Qed.

Lemma runAgentLoop_calls model userPrompt token log :
  ∃ agent,
    (runAgentLoop host model userPrompt token log).2 =
      log ++ CallBuildSystemPrompt :: agent ∧
    agentCalls model (tokenOf token) MAX_AGENT_ITERATIONS
      (log ++ [CallBuildSystemPrompt]) agent.
Proof.
  unfold runAgentLoop, bind, perform. fold (tokenOf token).
  match goal with |- context [agentIterations host ?n model ?tok ?msgs ?lg] =>
    destruct (agentIterations_calls model tok n msgs lg) as (agent & Hlog & Hac) end.
  exists agent. split; [|done]. rewrite Hlog. by rewrite <- app_assoc.
Qed.

(** X10. Which model a review talks to. [callLLM] asks for the models of the
    configured family first. If there is one, every request of the review
    goes to the first of them and no other selection is made; if there is
    none, it asks for the models of any family and every request goes to
    the first of those; if there is none either, nothing more is called. *)
Theorem callLLM_requests_go_to_first_model userPrompt token log0 :
  let log1 := log0 ++ [CallSelectChatModels (Some (modelFamily config))] in
  ∃ calls,
    (callLLM host config userPrompt token log0).2 = log1 ++ calls ∧
    match selectChatModels host log0 (Some (modelFamily config)),
          selectChatModels host log1 None with
    | model :: _, _ =>
        Forall (eq model) (requestsOf calls) ∧ CallSelectChatModels None ∉ calls
    | [], model :: _ =>
        ∃ calls', calls = CallSelectChatModels None :: calls' ∧
                  Forall (eq model) (requestsOf calls')
    | [], [] => calls = [CallSelectChatModels None]
    end.
Proof.
  intros log1. unfold callLLM. unfold bind at 1. unfold perform at 1. fold log1.
  destruct (selectChatModels host log0 (Some (modelFamily config))) as [|model models].
  - unfold bind at 1. unfold perform at 1.
    destruct (selectChatModels host log1 None) as [|model models].
    + by exists [CallSelectChatModels None].
    + destruct (runAgentLoop_calls model userPrompt token
                  (log1 ++ [CallSelectChatModels None])) as (agent & Hlog & Hac).
      exists (CallSelectChatModels None :: CallBuildSystemPrompt :: agent). split.
      * rewrite Hlog. by rewrite <- app_assoc.
      * eexists. split; [done|]. apply (agentCalls_requests _ _ _ _ _ Hac).
  - destruct (runAgentLoop_calls model userPrompt token log1) as (agent & Hlog & Hac).
    exists (CallBuildSystemPrompt :: agent). split; [done|]. split.
    + apply (agentCalls_requests _ _ _ _ _ Hac).
    + intros Hin. apply elem_of_cons in Hin as [?|Hin]; [done|].
      clear Hlog.
      assert (Htools : ∀ parts, CallSelectChatModels None ∉ toolCallsOf parts).
      { intros parts Hc.
        induction parts as [|c parts IHp]; [by apply not_elem_of_nil in Hc|].
        unfold toolCallsOf in Hc. cbn [flat_map] in Hc.
        apply elem_of_app in Hc as [Hc|Hc]; [|by apply IHp].
        destruct c; try by apply not_elem_of_nil in Hc.
        by apply list_elem_of_singleton in Hc. }
      induction Hac as [|n log messages parts rest Htok _ IH
                        |n log messages parts tools Htok Hpre];
        [by apply not_elem_of_nil in Hin| |].
      * apply elem_of_cons in Hin as [?|Hin]; [done|].
        apply elem_of_app in Hin as [Hin|Hin]; [by apply Htools in Hin | by apply IH].
      * apply elem_of_cons in Hin as [?|Hin]; [done|].
        destruct Hpre as [more Hmore]. apply (Htools parts).
        rewrite Hmore. apply elem_of_app. by left.
Qed.

Lemma callLLM_calls userPrompt token log :
  ∃ setup model agent,
    (callLLM host config userPrompt token log).2 = log ++ setup ++ agent ∧
    Forall quiet setup ∧
    agentCalls model (tokenOf token) MAX_AGENT_ITERATIONS (log ++ setup) agent.
Proof.
  unfold callLLM. unfold bind at 1. unfold perform at 1.
  set (log1 := log ++ [CallSelectChatModels (Some (modelFamily config))]).
  destruct (selectChatModels host log (Some (modelFamily config))) as [|model models].
  - unfold bind at 1. unfold perform at 1.
    destruct (selectChatModels host log1 None) as [|model models].
    + exists [CallSelectChatModels (Some (modelFamily config)); CallSelectChatModels None],
        (mkModel EmptyString 0), [].
      split; [subst log1; by rewrite app_nil_r, <- app_assoc|].
      split; [by repeat constructor | constructor].
    + destruct (runAgentLoop_calls model userPrompt token
                  (log1 ++ [CallSelectChatModels None])) as (agent & Hlog & Hac).
      exists [CallSelectChatModels (Some (modelFamily config)); CallSelectChatModels None;
              CallBuildSystemPrompt], model, agent.
      split; [rewrite Hlog; subst log1; by rewrite <- !app_assoc|].
      split; [by repeat constructor|].
      subst log1. by rewrite <- !app_assoc in Hac.
  - destruct (runAgentLoop_calls model userPrompt token log1) as (agent & Hlog & Hac).
    exists [CallSelectChatModels (Some (modelFamily config)); CallBuildSystemPrompt],
      model, agent.
    split; [rewrite Hlog; subst log1; by rewrite <- !app_assoc|].
    split; [by repeat constructor|].
    subst log1. by rewrite <- !app_assoc in Hac.
Qed.

Lemma bind_ret_log {A B} (m : M A) (f : A → B) log :
  (bind m (fun a => ret (f a)) log).2 = (m log).2.
Proof. unfold bind. by destruct (m log) as [[a|e] log']. Qed.

(** The calls of one review: some calls that are neither model requests
    nor progress reports, then the calls of the agent loop with one model. *)
Lemma reviewFile_calls filePath token log0 :
  ∃ setup model agent,
    (reviewFile host config filePath token log0).2 = log0 ++ setup ++ agent ∧
    Forall quiet setup ∧
    agentCalls model (tokenOf token) MAX_AGENT_ITERATIONS (log0 ++ setup) agent.
Proof.
  unfold reviewFile. unfold bind at 1. unfold perform at 1.
  destruct (getFileDiff host log0 filePath) as [[diff|]|error];
    [|exists [CallGetFileDiff filePath], (mkModel EmptyString 0), [];
      (split; [by rewrite app_nil_r | split; [by repeat constructor | constructor]])..].
  destruct (Js.falsy_string diff);
    [exists [CallGetFileDiff filePath], (mkModel EmptyString 0), [];
     (split; [by rewrite app_nil_r | split; [by repeat constructor | constructor]])|].
  unfold bind at 1. unfold perform at 1.
  destruct (getRecentHistory host (log0 ++ [CallGetFileDiff filePath]) filePath)
    as [history|error];
    [|exists [CallGetFileDiff filePath; CallGetRecentHistory filePath],
        (mkModel EmptyString 0), [];
      (split; [by rewrite app_nil_r, <- app_assoc
              | split; [by repeat constructor | constructor]])].
  rewrite bind_ret_log.
  match goal with |- context [callLLM host config ?prompt token ?lg] =>
    destruct (callLLM_calls prompt token lg) as (setup & model & agent & Hlog & Hq & Hac)
  end.
  exists ([CallGetFileDiff filePath; CallGetRecentHistory filePath] ++ setup), model, agent.
  split; [rewrite Hlog; by rewrite <- !app_assoc|].
  split; [apply Forall_app; split; [by repeat constructor | done]|].
  rewrite <- !app_assoc in Hac. exact Hac.
Qed.

Lemma reviewFile_log filePath token log0 :
  let log1 := (reviewFile host config filePath token log0).2 in
  log0 `prefix_of` log1 ∧
  (countSend log1 ≤ countSend log0 + MAX_AGENT_ITERATIONS)%nat ∧
  sentWhileLive (tokenOf token) log0 log1 ∧
  progressOf log1 = progressOf log0.
Proof.
  intros log1. subst log1.
  destruct (reviewFile_calls filePath token log0)
    as (setup & model & agent & -> & Hq & Hac).
  split_and!.
  - by apply prefix_app_r.
  - rewrite !countSend_app, (quiet_countSend _ Hq).
    pose proof (agentCalls_countSend _ _ _ _ _ Hac). lia.
  - rewrite app_assoc.
    eapply sentWhileLive_trans;
      [by apply prefix_app_r | by apply prefix_app_r
      | by apply sentWhileLive_quiet | by apply (agentCalls_live _ _ _ _ _ Hac)].
  - rewrite !progressOf_app, (quiet_progressOf _ Hq), (agentCalls_progress _ _ _ _ _ Hac).
    by rewrite !app_nil_r.
Qed.

(** X11. Every issue a review of one file resolves with carries the path of the
    reviewed file, one of the three tiers and a line number of at least 1. *)
Theorem reviewFile_issues_are_stamped filePath token log0 issues log' issue :
  reviewFile host config filePath token log0 = (Ok issues, log') →
  issue ∈ issues →
  file issue = filePath ∧ isTier (tier issue) = true ∧ 1 ≤ line issue.
Proof.
  unfold reviewFile. unfold bind at 1. unfold perform at 1.
  destruct (getFileDiff host log0 filePath) as [[diff|]|error];
    [|by intros [= <- _] Hin%not_elem_of_nil|done].
  destruct (Js.falsy_string diff); [by intros [= <- _] Hin%not_elem_of_nil|].
  unfold bind at 1. unfold perform at 1.
  destruct (getRecentHistory host (log0 ++ [CallGetFileDiff filePath]) filePath)
    as [history|error]; [|done].
  unfold bind at 1.
  match goal with |- context [callLLM host config ?prompt token ?lg] =>
    destruct (callLLM host config prompt token lg) as [[found|error] log1] eqn:Ecall
  end; [|done].
  intros [= <- _] Hin. apply list_elem_of_fmap in Hin as (raw & -> & Hraw).
  split; [done|]. cbn [withFile tier line].
  assert (Hfound : found = [] ∨ ∃ text, found = parseResponse text).
  { revert Ecall. unfold callLLM. unfold bind at 1. unfold perform at 1.
    destruct (selectChatModels host _ (Some (modelFamily config))) as [|model models].
    - unfold bind at 1. unfold perform at 1.
      destruct (selectChatModels host _ None) as [|model models]; [done|].
      unfold runAgentLoop, bind, perform. apply agentIterations_result.
    - unfold runAgentLoop, bind, perform. apply agentIterations_result. }
  destruct Hfound as [->|[text ->]]; [by apply not_elem_of_nil in Hraw|].
  by apply (parseResponse_elem text).
Qed.

End Calls.

(** *** The calls a sweep makes *)

Lemma sentWhileLive_silent t log calls :
  Forall (fun c => isSendRequest c = false) calls → sentWhileLive t log (log ++ calls).
Proof.
  intros Hq i model messages Hi Hlen.
  rewrite lookup_app_r in Hi by done.
  apply list_elem_of_lookup_2 in Hi.
  rewrite Forall_forall in Hq. by apply Hq in Hi.
Qed.

Section Sweep.

Context `{Utils}.
Variable host : Host.
Variable config : Config.

(** The progress step of the loop of [reviewFiles]: at most one call, which
    is no model request. *)
Lemma progress_step (onProgress : option ProgressCallback) allIssues filePath log :
  ∃ r,
    attempt
      match onProgress with
      | Some callback =>
          perform (CallOnProgress allIssues filePath)
            (fun log => callback log allIssues filePath)
      | None => ret tt
      end log =
    (Ok r, log ++ match onProgress with
               | Some _ => [CallOnProgress allIssues filePath]
               | None => []
               end).
Proof.
  unfold attempt, perform, ret. destruct onProgress as [callback|]; eexists.
  - reflexivity.
  - by rewrite app_nil_r.
Qed.

Lemma reviewFilesLoop_log onProgress token filePaths : ∀ allIssues log0 res log',
  reviewFilesLoop host config filePaths onProgress token allIssues log0 = (res, log') →
  log0 `prefix_of` log' ∧
  (countSend log' ≤ countSend log0 + 10 * length filePaths)%nat ∧
  sentWhileLive (tokenOf token) log0 log'.
Proof.
  induction filePaths as [|filePath rest IH]; intros allIssues log0 res log'.
  { cbn. intros [= _ <-]. split_and!; [done | lia | apply sentWhileLive_refl]. }
  cbn [reviewFilesLoop].
  destruct (match token with Some t => t log0 | None => false end).
  { cbn. intros [= _ <-]. split_and!; [done | lia | apply sentWhileLive_refl]. }
  unfold bind at 1. unfold attempt at 1.
  pose proof (reviewFile_log host config filePath token log0) as (Hp1 & Hc1 & Hl1 & _).
  unfold MAX_AGENT_ITERATIONS in Hc1.
  destruct (reviewFile host config filePath token log0) as [[fileIssues|error] log1].
  - unfold bind at 1.
    destruct (progress_step onProgress (allIssues ++ fileIssues) filePath log1)
      as [r Hstep].
    rewrite Hstep. set (step := match onProgress with
                                | Some _ => [CallOnProgress (allIssues ++ fileIssues) filePath]
                                | None => []
                                end).
    assert (Hstepq : Forall (fun c => isSendRequest c = false) step).
    { subst step. destruct onProgress; by repeat constructor. }
    assert (Hcs : countSend step = O).
    { subst step. by destruct onProgress. }
    intros Hrun. destruct (IH _ _ _ _ Hrun) as (Hp2 & Hc2 & Hl2).
    cbn [fst snd] in *. split_and!.
    + etrans; [exact Hp1|]. etrans; [|exact Hp2]. by apply prefix_app_r.
    + rewrite countSend_app, Hcs in Hc2. cbn [length]. lia.
    + eapply sentWhileLive_trans; [exact Hp1 | | exact Hl1 |].
      * etrans; [|exact Hp2]. by apply prefix_app_r.
      * eapply sentWhileLive_trans; [by apply prefix_app_r | exact Hp2 | | exact Hl2].
        by apply sentWhileLive_silent.
  - intros Hrun. destruct (IH _ _ _ _ Hrun) as (Hp2 & Hc2 & Hl2).
    cbn [fst snd] in *. split_and!.
    + by etrans.
    + cbn [length]. lia.
    + by eapply sentWhileLive_trans.
Qed.

(** X12. A review of one file sends at most [MAX_AGENT_ITERATIONS] requests to
    the model, whatever the model answers and whatever fails; a sweep sends
    at most that many per file. *)
Theorem review_sends_at_most_ten_requests_per_file filePath filePaths onProgress token log0 :
  (countSend (reviewFile host config filePath token log0).2 ≤ countSend log0 + 10)%nat ∧
  (countSend (reviewFiles host config filePaths onProgress token log0).2
     ≤ countSend log0 + 10 * length filePaths)%nat.
Proof.
  split.
  - apply reviewFile_log.
  - unfold reviewFiles.
    destruct (reviewFilesLoop host config filePaths onProgress token [] log0)
      as [res log'] eqn:Erun.
    apply (reviewFilesLoop_log _ _ _ _ _ _ _ Erun).
Qed.

(** X13. Cancellation is honoured: every request that a review or a sweep sends
    to the model is sent at a moment when the token it was given does not
    ask for cancellation. *)
Theorem requests_are_sent_while_not_cancelled t filePath filePaths onProgress log0 :
  sentWhileLive t log0 (reviewFile host config filePath (Some t) log0).2 ∧
  sentWhileLive t log0 (reviewFiles host config filePaths onProgress (Some t) log0).2.
Proof.
  split.
  - apply (reviewFile_log host config filePath (Some t) log0).
  - unfold reviewFiles.
    destruct (reviewFilesLoop host config filePaths onProgress (Some t) [] log0)
      as [res log'] eqn:Erun.
    apply (reviewFilesLoop_log _ _ _ _ _ _ _ Erun).
Qed.

Lemma reviewFilesLoop_progress callback token filePaths : ∀ allIssues log0,
  ∃ all calls,
    reviewFilesLoop host config filePaths (Some callback) token allIssues log0 =
      (Ok all, log0 ++ calls) ∧
    match last (progressOf calls) with
    | Some (issues, _) => issues = all
    | None => all = allIssues
    end.
Proof.
  induction filePaths as [|filePath rest IH]; intros allIssues log0.
  { exists allIssues, []. cbn. by rewrite app_nil_r. }
  cbn [reviewFilesLoop].
  destruct (match token with Some t => t log0 | None => false end).
  { exists allIssues, []. cbn. by rewrite app_nil_r. }
  unfold bind at 1. unfold attempt at 1.
  destruct (reviewFile_calls host config filePath token log0)
    as (setup & model & agent & Hlog & Hq & Hac).
  destruct (reviewFile host config filePath token log0) as [[fileIssues|error] log1].
  - unfold bind at 1.
    destruct (progress_step (Some callback) (allIssues ++ fileIssues) filePath log1)
      as [r Hstep].
    rewrite Hstep.
    destruct (IH (allIssues ++ fileIssues)
                (log1 ++ [CallOnProgress (allIssues ++ fileIssues) filePath]))
      as (all & calls & -> & Hlast).
    cbn [snd] in Hlog. subst log1.
    exists all, (setup ++ agent ++
                 [CallOnProgress (allIssues ++ fileIssues) filePath] ++ calls).
    split; [by rewrite <- !app_assoc|].
    rewrite !progressOf_app, (quiet_progressOf _ Hq), (agentCalls_progress _ _ _ _ _ Hac).
    cbn [app progressOf flat_map]. fold (progressOf calls).
    destruct (progressOf calls) as [|p ps] eqn:Ep; [by subst|].
    change (last ((allIssues ++ fileIssues, filePath) :: p :: ps)) with (last (p :: ps)).
    destruct (last (p :: ps)) as [[issues f]|] eqn:El; [done|].
    by apply last_None in El.
  - destruct (IH allIssues log1) as (all & calls & -> & Hlast).
    cbn [snd] in Hlog. subst log1.
    exists all, (setup ++ agent ++ calls).
    split; [by rewrite <- !app_assoc|].
    by rewrite !progressOf_app, (quiet_progressOf _ Hq), (agentCalls_progress _ _ _ _ _ Hac).
Qed.

(** X14. Progress reports. A sweep with a progress callback resolves, and the
    issues handed to the last invocation of the callback are the issues the
    sweep returns; when the callback was never invoked, the sweep returns
    the empty list. *)
Theorem last_progress_report_is_the_result filePaths callback token log0 :
  ∃ all calls,
    reviewFiles host config filePaths (Some callback) token log0 = (Ok all, log0 ++ calls) ∧
    match last (progressOf calls) with
    | Some (issues, _) => issues = all
    | None => all = []
    end.
Proof. apply reviewFilesLoop_progress. Qed.

End Sweep.

Example fallback_model_is_used :
  let fallback := mkModel "claude" 1 in
  let host := scriptedHost (Ok (Some "diff")) [] [fallback; mkModel "other" 2]
                [[TextPart "no issue"]] [] EmptyString in
  requestsOf (callLLM host defaultConfig "prompt" None []).2 = [fallback].
Proof. reflexivity. Qed.

Lemma reviewFile_issues_are_stamped_witness :
  let model := mkModel "gpt-4o" 0 in
  let answer := stringify (JArray [toJSON (mkIssueObject "high" (Some "other.ts")
                                              (Js.int 0) "T" "E")]) in
  let host := scriptedHost (Ok (Some "diff")) [model] [] [[TextPart answer]] []
                EmptyString in
  let issue := mkIssue "high" "src/auth.ts" 1 "T" "E" in
  (reviewFile host defaultConfig "src/auth.ts" None []).1 = Ok [issue] ∧
  file issue = "src/auth.ts" ∧ isTier (tier issue) = true ∧ 1 ≤ line issue.
Proof.
  intros model answer host issue. split; [reflexivity|].
  apply (reviewFile_issues_are_stamped host defaultConfig "src/auth.ts" None []
           [issue] (reviewFile host defaultConfig "src/auth.ts" None []).2 issue).
  - reflexivity.
  - apply list_elem_of_singleton. reflexivity.
Defined.

Lemma requests_are_sent_while_not_cancelled_witness :
  let model := mkModel "gpt-4o" 0 in
  let tool := ToolCallPart "listDirectory" "call-1" (pathInput ".") in
  let host := scriptedHost (Ok (Some "diff")) [model] [] [] [tool] "src/" in
  let t : CancellationToken := fun log => (2 <=? countSend log)%nat in
  countSend (reviewFiles host defaultConfig ["a.ts"; "b.ts"] None (Some t) []).2 = 2%nat ∧
  sentWhileLive t [] (reviewFiles host defaultConfig ["a.ts"; "b.ts"] None (Some t) []).2.
Proof.
  intros model tool host t. split; [reflexivity|].
  apply (requests_are_sent_while_not_cancelled host defaultConfig t "a.ts"
           ["a.ts"; "b.ts"] None []).
Defined.

(** *** Tool calls and their results *)

Section Tools.

Context `{Utils}.
Variable host : Host.

Lemma executeTools_results parts : ∀ acc log,
  toolsResolve host →
  ∃ results,
    executeTools host parts acc log = (Ok (acc ++ results), log ++ toolCallsOf parts) ∧
    map resultCallId results = callIdsOf parts ∧
    Forall (fun r => ∃ text, resultContent r = [TextPart text]) results.
Proof.
  induction parts as [|c parts IH]; intros acc log Htools.
  { exists []. cbn. rewrite !app_nil_r. split; [done|]. split; [done | constructor]. }
  destruct c as [v|name callId input|]; cbn [executeTools];
    [by apply IH | | by apply IH].
  unfold bind, perform.
  destruct (Htools log name input) as [result ->].
  destruct (IH (acc ++ [mkToolResult callId [TextPart result]])
               (log ++ [CallExecuteTool name input]) Htools)
    as (results & Hrun & Hids & Htexts).
  exists (mkToolResult callId [TextPart result] :: results).
  rewrite Hrun. unfold toolCallsOf, callIdsOf. cbn [flat_map map resultCallId app].
  fold (callIdsOf parts). rewrite <- Hids, <- !app_assoc.
  split; [done|]. split; [done|]. constructor; [by eexists | done].
Qed.

Lemma executeTools_rejects parts : ∀ acc log error log',
  executeTools host parts acc log = (Throw error, log') →
  ∃ before name callId input after,
    parts = before ++ ToolCallPart name callId input :: after ∧
    log' = log ++ toolCallsOf before ++ [CallExecuteTool name input] ∧
    executeToolCall host (log ++ toolCallsOf before) name input = Throw error.
Proof.
  induction parts as [|c parts IH]; intros acc log error log' Hrun; [done|].
  assert (Hskip : ∀ c0, toolCallsOf [c0] = [] →
            executeTools host parts acc log = (Throw error, log') →
            ∃ before name callId input after,
              c0 :: parts = before ++ ToolCallPart name callId input :: after ∧
              log' = log ++ toolCallsOf before ++ [CallExecuteTool name input] ∧
              executeToolCall host (log ++ toolCallsOf before) name input = Throw error).
  { intros c0 Hc0 Hrest.
    destruct (IH _ _ _ _ Hrest) as (before & name & callId & input & after & -> & -> & Herr).
    exists (c0 :: before), name, callId, input, after.
    assert (Hcalls : toolCallsOf (c0 :: before) = toolCallsOf before).
    { change (c0 :: before) with ([c0] ++ before).
      unfold toolCallsOf in *. by rewrite flat_map_app, Hc0. }
    by rewrite Hcalls. }
  destruct c as [v|name callId input|]; cbn [executeTools] in Hrun;
    [by apply Hskip | | by apply Hskip].
  unfold bind, perform in Hrun.
  destruct (executeToolCall host log name input) as [result|e] eqn:Ecall.
  - destruct (IH _ _ _ _ Hrun) as (before & n & cid & i & after & -> & -> & Herr).
    exists (ToolCallPart name callId input :: before), n, cid, i, after.
    unfold toolCallsOf in *. cbn [flat_map app]. rewrite <- !app_assoc in *.
    by cbn [app] in *.
  - injection Hrun as <- <-.
    exists [], name, callId, input, parts. cbn. by rewrite app_nil_r.
Qed.

(** X15. The tool loop. When every tool call resolves, the loop makes one
    call per tool call of the response, whatever their number and their
    names, and produces one result per tool call, in the order of the
    calls, each tagged with the identifier of its call and holding one text
    part. The loop rejects only when a tool call does: it has then made
    the calls up to that one, it rejects with the error of that call, and
    the tool calls after it are not made and get no result. *)
Theorem every_tool_call_gets_one_result parts log :
  (toolsResolve host →
   ∃ results,
     executeTools host parts [] log = (Ok results, log ++ toolCallsOf parts) ∧
     map resultCallId results = callIdsOf parts ∧
     Forall (fun r => ∃ text, resultContent r = [TextPart text]) results) ∧
  (∀ error log',
     executeTools host parts [] log = (Throw error, log') →
     ∃ before name callId input after,
       parts = before ++ ToolCallPart name callId input :: after ∧
       log' = log ++ toolCallsOf before ++ [CallExecuteTool name input] ∧
       executeToolCall host (log ++ toolCallsOf before) name input = Throw error).
Proof.
  split.
  - intros Htools. apply (executeTools_results parts [] log Htools).
  - apply executeTools_rejects.
Qed.

End Tools.

Lemma every_tool_call_gets_one_result_witness :
  let host := scriptedHost (Ok None) [] [] [] [] "src/" in
  let failing := withFailingSearch "Error: search failed" host in
  let search := ToolCallPart "searchCode" "call-0" (queryInput "login") in
  let parts := [ToolCallPart "listDirectory" "call-1" (pathInput ".");
                TextPart "thinking";
                ToolCallPart "deleteFile" "call-2" (pathInput "x")] in
  (∃ results,
     executeTools host parts [] [] = (Ok results, toolCallsOf parts) ∧
     map resultCallId results = ["call-1"; "call-2"]) ∧
  (∃ before name callId input after,
     search :: parts = before ++ ToolCallPart name callId input :: after ∧
     [CallExecuteTool "searchCode" (queryInput "login")] =
       [] ++ toolCallsOf before ++ [CallExecuteTool name input] ∧
     executeToolCall failing ([] ++ toolCallsOf before) name input =
       Throw "Error: search failed").
Proof.
  intros host failing search parts.
  assert (Hresolve : toolsResolve host).
  { intros log name input. unfold executeToolCall.
    repeat (destruct (String.eqb name _); [by eexists|]). by eexists. }
  split.
  - destruct (proj1 (every_tool_call_gets_one_result host parts []) Hresolve)
      as (results & Hrun & Hids & _).
    exists results. split; [exact Hrun | exact Hids].
  - exact (proj2 (every_tool_call_gets_one_result failing (search :: parts) [])
             "Error: search failed"
             [CallExecuteTool "searchCode" (queryInput "login")] eq_refl).
Defined.

Example unknown_tool_gets_a_result_too :
  let host := scriptedHost (Ok None) [] [] [] [] "src/" in
  let parts := [ToolCallPart "listDirectory" "call-1" (pathInput ".");
                TextPart "thinking";
                ToolCallPart "deleteFile" "call-2" (pathInput "x")] in
  (executeTools host parts [] []).1 =
    Ok [mkToolResult "call-1" [TextPart "src/"];
        mkToolResult "call-2" [TextPart "Unknown tool: deleteFile"]].
Proof. reflexivity. Qed.

(** *** Exploration rounds *)

Section Rounds.

Context `{Utils}.
Variable host : Host.

Lemma agentIterations_final model tok (answers : nat → list Chunk) final k (d : nat) :
  ∀ (j n : nat) messages log,
  (∀ i, (i < k)%nat → respondsOnInvocation host model i (answers i) ∧
                      List.filter isToolCallPart (answers i) ≠ []) →
  respondsOnInvocation host model k final →
  List.filter isToolCallPart final = [] →
  toolsResolve host →
  (∀ log, tok log = false) →
  (j + d = k)%nat → countSend log = j → (d < n)%nat →
  ∃ log',
    agentIterations host n model tok messages log =
      (Ok (parseResponse (joinText (List.filter isTextPart final))), log') ∧
    countSend log' = S k.
Proof.
  induction d as [|d IH];
    intros j n messages log Hrounds Hfinal Hnone Hresolve Htok Hjk Hcount Hn.
  - destruct n as [|n]; [lia|]. cbn [agentIterations]. rewrite Htok.
    unfold bind at 1. unfold perform at 1.
    rewrite (Hfinal log messages) by lia. rewrite Hnone.
    eexists. split; [reflexivity|]. rewrite countSend_app. cbn. lia.
  - destruct n as [|n]; [lia|]. cbn [agentIterations]. rewrite Htok.
    unfold bind at 1. unfold perform at 1.
    destruct (Hrounds j ltac:(lia)) as [Hanswer Htools].
    rewrite (Hanswer log messages Hcount).
    destruct (List.filter isToolCallPart (answers j)) as [|p ps] eqn:Eparts; [done|].
    unfold bind at 1.
    destruct (executeTools_ok host (p :: ps) [] (log ++ [CallSendRequest model messages])
                Hresolve) as [results Hres].
    rewrite Hres.
    apply (IH (S j)); try done; [lia| |lia].
    rewrite !countSend_app, countSend_toolCallsOf. cbn. lia.
Qed.

(** X16. The agent loop stops at the first answer without a tool call. A model
    that asks for tools in its first [k] answers, [k] below the maximum, and
    then answers without a tool call, with no cancellation requested and
    with tool calls that all resolve, is sent [k + 1] requests, and the
    review resolves with what [parseResponse] makes of the text of the last
    answer. *)
Theorem agent_loop_stops_at_first_final_answer model userPrompt token log0
    (answers : nat → list Chunk) final (k : nat) :
  (k < MAX_AGENT_ITERATIONS)%nat →
  (∀ i, (i < k)%nat → respondsOnInvocation host model i (answers i) ∧
                      List.filter isToolCallPart (answers i) ≠ []) →
  respondsOnInvocation host model k final →
  List.filter isToolCallPart final = [] →
  toolsResolve host →
  neverCancelled token →
  countSend log0 = O →
  ∃ log',
    runAgentLoop host model userPrompt token log0 =
      (Ok (parseResponse (joinText (List.filter isTextPart final))), log') ∧
    countSend log' = S k.
Proof.
  intros Hk Hrounds Hfinal Hnone Hresolve Hnever Hcount.
  unfold runAgentLoop, bind, perform.
  apply (agentIterations_final model _ answers final k k 0%nat); try done.
  - intros log. destruct token as [t|]; [apply Hnever | done].
  - rewrite countSend_app, Hcount. done.
Qed.

End Rounds.

Lemma agent_loop_stops_at_first_final_answer_witness :
  let model := mkModel "gpt-4o" 0 in
  let tool := ToolCallPart "readFile" "call-1" (pathInput "src/a.ts") in
  let host := scriptedHost (Ok (Some "diff")) [model] [] [[tool]; [tool]; [tool]]
                [TextPart oneIssueText] "content" in
  ∃ log', runAgentLoop host model "prompt" None [] =
            (Ok (parseResponse oneIssueText), log') ∧
          countSend log' = 4%nat.
Proof.
  intros model tool host.
  apply (agent_loop_stops_at_first_final_answer host model "prompt" None []
           (fun _ => [tool]) [TextPart oneIssueText] 3).
  - unfold MAX_AGENT_ITERATIONS. lia.
  - intros i Hi. split; [|done]. intros log messages Hc. cbn. rewrite Hc.
    by do 3 (destruct i as [|i]; [reflexivity|]); lia.
  - intros log messages Hc. cbn. by rewrite Hc.
  - reflexivity.
  - intros log name input. unfold executeToolCall.
    repeat (destruct (String.eqb name _); [by eexists|]). by eexists.
  - exact I.
  - reflexivity.
Defined.

End EngineFacts.

(** * Properties of the instructions loader *)

Module LoaderFacts.

Import Json JsText InstructionsLoader LoaderSpec.

(** *** Lines *)

Lemma split_nonempty sep s : split sep s ≠ [].
Proof.
  destruct s as [|c r]; [done|]. cbn [split].
  destruct (Ascii.eqb c sep); [done|]. by destruct (split sep r).
Qed.

(** Splitting at a separator that joins two texts. *)
Lemma split_app sep a b :
  split sep (a +:+ String sep b) = split sep a ++ split sep b.
Proof.
  induction a as [|c a IH].
  - rewrite JsonFacts.append_nil_l. cbn [split]. by rewrite Ascii.eqb_refl.
  - rewrite JsonFacts.append_cons. cbn [split]. rewrite IH.
    destruct (Ascii.eqb c sep); [done|].
    pose proof (split_nonempty sep a). by destruct (split sep a).
Qed.

Lemma split_without_separator sep s :
  EngineSpec.occurs sep s = false → split sep s = [s].
Proof.
  induction s as [|c s IH]; [done|]. cbn [EngineSpec.occurs split].
  intros [Hc Hs]%orb_false_iff. by rewrite Hc, (IH Hs).
Qed.

Lemma join_cons sep p q ps :
  join sep (p :: q :: ps) = p +:+ sep +:+ join sep (q :: ps).
Proof.
  unfold join. cbn [fold_left].
  assert (Hfold : ∀ l a b,
            fold_left (fun acc x => acc +:+ sep +:+ x) l (a +:+ b) =
            a +:+ fold_left (fun acc x => acc +:+ sep +:+ x) l b).
  { induction l as [|x l IH]; intros a b; [done|].
    cbn [fold_left]. by rewrite <- IH, JsonFacts.append_assoc. }
  by rewrite Hfold, Hfold.
Qed.

(** *** [parseInstructions] *)

(** What one line adds to the rules. *)
Lemma parseInstructionLine_app rules rawLine :
  parseInstructionLine rules rawLine = rules ++ parseInstructionLine [] rawLine.
Proof.
  unfold parseInstructionLine.
  repeat match goal with |- context [if ?b then _ else _] => destruct b end;
    by rewrite ?app_nil_r.
Qed.

Lemma parseInstructionLines_app lines : ∀ rules,
  fold_left parseInstructionLine lines rules =
  rules ++ fold_left parseInstructionLine lines [].
Proof.
  induction lines as [|line lines IH]; intros rules; [by rewrite app_nil_r|].
  cbn [fold_left]. rewrite IH, (IH (parseInstructionLine [] line)).
  by rewrite parseInstructionLine_app, app_assoc.
Qed.

Lemma parseInstructions_app a b :
  parseInstructions (a +:+ String lf b) = parseInstructions a ++ parseInstructions b.
Proof.
  unfold parseInstructions. rewrite split_app, fold_left_app.
  apply parseInstructionLines_app.
Qed.

(** X17. The rules are read line by line: the rules of two contents joined by a
    line break are the rules of the first followed by those of the second. *)
Theorem parseInstructions_line_by_line a b :
  parseInstructions (a +:+ String lf b) = parseInstructions a ++ parseInstructions b.
Proof. apply parseInstructions_app. Qed.

Lemma matchTier_valid s tier rest : matchTier s = Some (tier, rest) → validSeverity tier.
Proof.
  unfold matchTier, validSeverity.
  destruct (dropPrefixIgnoreCase "high" s); [intros [= <- _]; auto|].
  destruct (dropPrefixIgnoreCase "medium" s); [intros [= <- _]; auto|].
  destruct (dropPrefixIgnoreCase "low" s); [intros [= <- _]; auto|done].
Qed.

Lemma extractSeverity_valid line : validSeverity (severity (extractSeverity line)).
Proof.
  assert (Hmedium : validSeverity "medium") by (right; by left).
  unfold extractSeverity. destruct line as [|c r]; [done|].
  destruct (Ascii.eqb c "["); [|done].
  destruct (matchTier r) as [[tier [|d afterTag]]|] eqn:Etier; try done.
  destruct (Ascii.eqb d "]"); [|done]. by apply matchTier_valid in Etier.
Qed.

(** *** White space at the ends of a line *)

Lemma trimStart_idemp s : ReviewEngine.trimStart (ReviewEngine.trimStart s) = ReviewEngine.trimStart s.
Proof.
  induction s as [|c s IH]; [done|]. cbn [ReviewEngine.trimStart].
  destruct (ReviewEngine.isJsSpace c) eqn:Ec; [done|].
  cbn [ReviewEngine.trimStart]. by rewrite Ec.
Qed.

Lemma trimEnd_tail c s :
  ReviewEngine.trimEnd (String c s) = String c s → ReviewEngine.trimEnd s = s.
Proof.
  cbn [ReviewEngine.trimEnd]. destruct (ReviewEngine.trimEnd s) as [|x r].
  - destruct (ReviewEngine.isJsSpace c); [done|]. unfold str1. by intros [= <-].
  - by intros [= <-].
Qed.

Lemma trimEnd_idemp s : ReviewEngine.trimEnd (ReviewEngine.trimEnd s) = ReviewEngine.trimEnd s.
Proof.
  induction s as [|c s IH]; [done|]. cbn [ReviewEngine.trimEnd].
  destruct (ReviewEngine.trimEnd s) as [|x r] eqn:Es.
  - destruct (ReviewEngine.isJsSpace c) eqn:Ec; [done|].
    unfold str1. cbn [ReviewEngine.trimEnd]. by rewrite Ec.
  - cbn [ReviewEngine.trimEnd] in *. by rewrite IH.
Qed.

Lemma trimEnd_trimStart s :
  ReviewEngine.trimEnd s = s →
  ReviewEngine.trimEnd (ReviewEngine.trimStart s) = ReviewEngine.trimStart s.
Proof.
  induction s as [|c s IH]; [done|]. intros Hs. cbn [ReviewEngine.trimStart].
  destruct (ReviewEngine.isJsSpace c); [|done]. apply IH. by apply trimEnd_tail in Hs.
Qed.

Lemma trimStart_trimEnd s :
  ReviewEngine.trimStart s = s →
  ReviewEngine.trimStart (ReviewEngine.trimEnd s) = ReviewEngine.trimEnd s.
Proof.
  destruct s as [|c s]; [done|]. cbn [ReviewEngine.trimStart].
  destruct (ReviewEngine.isJsSpace c) eqn:Ec.
  - intros Hs. exfalso.
    assert (Hlen : ∀ t, (String.length (ReviewEngine.trimStart t) ≤ String.length t)%nat).
    { induction t as [|x t IHt]; [done|]. cbn [ReviewEngine.trimStart].
      destruct (ReviewEngine.isJsSpace x); cbn [String.length]; lia. }
    specialize (Hlen s). rewrite Hs in Hlen. cbn [String.length] in Hlen. lia.
  - intros _. cbn [ReviewEngine.trimEnd].
    destruct (ReviewEngine.trimEnd s) as [|x r].
    + rewrite Ec. unfold str1. cbn [ReviewEngine.trimStart]. by rewrite Ec.
    + cbn [ReviewEngine.trimStart]. by rewrite Ec.
Qed.

Lemma trimmed_trim s : trimmed (ReviewEngine.trim s).
Proof.
  unfold trimmed, ReviewEngine.trim. split.
  - apply trimStart_trimEnd, trimStart_idemp.
  - apply trimEnd_idemp.
Qed.

Lemma trimEnd_dropDigits s :
  ReviewEngine.trimEnd s = s → ReviewEngine.trimEnd (dropDigits s) = dropDigits s.
Proof.
  induction s as [|c s IH]; [done|]. intros Hs. cbn [dropDigits].
  destruct (isDigit c); [|done]. apply IH. by apply trimEnd_tail in Hs.
Qed.

(** Line breaks do not appear where there were none. *)
Lemma without_trimStart c s :
  EngineSpec.occurs c s = false → EngineSpec.occurs c (ReviewEngine.trimStart s) = false.
Proof.
  intros Hs. apply not_true_is_false. intros Hc.
  apply EngineFacts.occurs_trimStart in Hc. congruence.
Qed.

Lemma without_trim c s :
  EngineSpec.occurs c s = false → EngineSpec.occurs c (ReviewEngine.trim s) = false.
Proof.
  intros Hs. apply not_true_is_false. intros Hc.
  apply EngineFacts.occurs_trim in Hc. congruence.
Qed.

Lemma without_tail c x s :
  EngineSpec.occurs c (String x s) = false → EngineSpec.occurs c s = false.
Proof. cbn [EngineSpec.occurs]. by intros [_ Hs]%orb_false_iff. Qed.

Lemma without_dropDigits c s :
  EngineSpec.occurs c s = false → EngineSpec.occurs c (dropDigits s) = false.
Proof.
  induction s as [|x s IH]; [done|]. intros Hs. cbn [dropDigits].
  destruct (isDigit x); [|done]. apply IH. by apply without_tail in Hs.
Qed.

Lemma without_dropPrefixIgnoreCase c lit : ∀ s rest,
  dropPrefixIgnoreCase lit s = Some rest →
  EngineSpec.occurs c s = false → EngineSpec.occurs c rest = false.
Proof.
  induction lit as [|a lit IH]; intros s rest; cbn [dropPrefixIgnoreCase].
  - by intros [= <-].
  - destruct s as [|b s]; [done|].
    destruct (Ascii.eqb a (lowerAscii b)); [|done].
    intros Hrest Hs. apply (IH s rest Hrest). by apply without_tail in Hs.
Qed.

Lemma without_matchTier c s tier rest :
  matchTier s = Some (tier, rest) →
  EngineSpec.occurs c s = false → EngineSpec.occurs c rest = false.
Proof.
  unfold matchTier.
  destruct (dropPrefixIgnoreCase "high" s) eqn:E1;
    [intros [= _ <-]; by apply (without_dropPrefixIgnoreCase c _ _ _ E1)|].
  destruct (dropPrefixIgnoreCase "medium" s) eqn:E2;
    [intros [= _ <-]; by apply (without_dropPrefixIgnoreCase c _ _ _ E2)|].
  destruct (dropPrefixIgnoreCase "low" s) eqn:E3;
    [intros [= _ <-]; by apply (without_dropPrefixIgnoreCase c _ _ _ E3)|done].
Qed.

(** A clean line stays clean through the two [replace] calls. *)
Lemma clean_stripBullet s : clean s → clean (stripBullet s).
Proof.
  intros [[Hstart Hend] Hlf]. unfold stripBullet.
  destruct s as [|c [|d r]]; try done.
  destruct ((Ascii.eqb c "-" || Ascii.eqb c "*") && ReviewEngine.isJsSpace d); [|done].
  split; [split|].
  - apply trimStart_idemp.
  - by apply trimEnd_trimStart, (trimEnd_tail d), (trimEnd_tail c).
  - by apply without_trimStart, (without_tail lf d), (without_tail lf c).
Qed.

Lemma clean_stripNumber s : clean s → clean (stripNumber s).
Proof.
  intros Hs. pose proof Hs as [[Hstart Hend] Hlf]. unfold stripNumber.
  destruct s as [|c s0]; [done|]. destruct (isDigit c); [|done].
  pose proof (trimEnd_dropDigits _ Hend) as Hd.
  pose proof (without_dropDigits lf _ Hlf) as Hl.
  destruct (dropDigits (String c s0)) as [|p [|d r]]; try done.
  destruct (Ascii.eqb p "." && ReviewEngine.isJsSpace d); [|done].
  split; [split|].
  - apply trimStart_idemp.
  - by apply trimEnd_trimStart, (trimEnd_tail d), (trimEnd_tail p).
  - by apply without_trimStart, (without_tail lf d), (without_tail lf p).
Qed.

Lemma clean_extractSeverity s : clean s → clean (text (extractSeverity s)).
Proof.
  intros Hs. pose proof Hs as [_ Hlf]. unfold extractSeverity.
  destruct s as [|c r]; [done|]. destruct (Ascii.eqb c "["); [|done].
  destruct (matchTier r) as [[tier [|d afterTag]]|] eqn:Etier; try done.
  destruct (Ascii.eqb d "]"); [|done]. cbn [text]. split; [apply trimmed_trim|].
  apply without_trim, without_trimStart, (without_tail lf d).
  apply (without_matchTier lf _ _ _ Etier). by apply without_tail in Hlf.
Qed.

Lemma split_without sep s :
  Forall (fun line => EngineSpec.occurs sep line = false) (split sep s).
Proof.
  induction s as [|c s IH]; [by repeat constructor|]. cbn [split].
  destruct (Ascii.eqb c sep) eqn:Ec; [by constructor|].
  pose proof (split_nonempty sep s). destruct (split sep s) as [|l ls]; [done|].
  apply Forall_cons in IH as [Hl Hls]. constructor; [|done].
  cbn [EngineSpec.occurs]. by rewrite Ec, Hl.
Qed.

Lemma falsy_string_false s : Js.falsy_string s = false → s ≠ EmptyString.
Proof. by destruct s. Qed.

Lemma parseInstructionLine_wellFormed rawLine rule :
  EngineSpec.occurs lf rawLine = false →
  rule ∈ parseInstructionLine [] rawLine → wellFormedRule rule.
Proof.
  intros Hlf. unfold parseInstructionLine.
  destruct (Js.falsy_string _ || _ || _); [by intros ?%not_elem_of_nil|].
  destruct (Js.falsy_string (stripNumber _)); [by intros ?%not_elem_of_nil|].
  destruct (Js.falsy_string (text _)) eqn:Etext; [by intros ?%not_elem_of_nil|].
  intros ->%list_elem_of_singleton.
  assert (Hclean : clean (ReviewEngine.trim rawLine)).
  { split; [apply trimmed_trim | by apply without_trim]. }
  apply clean_stripBullet, clean_stripNumber, clean_extractSeverity in Hclean.
  destruct Hclean as [Htrimmed Hno].
  split_and!; [apply extractSeverity_valid | by apply falsy_string_false | done | done].
Qed.

Lemma parseInstructions_wellFormed content rule :
  rule ∈ parseInstructions content → wellFormedRule rule.
Proof.
  unfold parseInstructions. pose proof (split_without lf content) as Hlines.
  induction Hlines as [|line lines Hline _ IH]; [by intros ?%not_elem_of_nil|].
  cbn [fold_left]. rewrite parseInstructionLines_app.
  intros [Hin|Hin]%elem_of_app; [|by apply IH].
  by apply (parseInstructionLine_wellFormed line).
Qed.

(** X18. Every rule [parseInstructions] returns has one of the three severities
    and a text that is not empty, has no white space at either end and holds
    no line break, whatever the content of the file. *)
Theorem parsed_rules_are_well_formed content rule :
  rule ∈ parseInstructions content →
  validSeverity (severity rule) ∧ text rule ≠ EmptyString ∧
  trimmed (text rule) ∧ EngineSpec.occurs lf (text rule) = false.
Proof. apply parseInstructions_wellFormed. Qed.

Lemma parsed_rules_are_well_formed_witness :
  let content := "# Security" +:+ str1 lf +:+ "  1.  [HIGH]   Check the auth logic  " in
  let rule := mkRule "high" "Check the auth logic" in
  parseInstructions content = [rule] ∧ validSeverity (severity rule) ∧
  text rule ≠ EmptyString ∧ trimmed (text rule) ∧
  EngineSpec.occurs lf (text rule) = false.
Proof.
  intros content rule. split; [reflexivity|].
  apply (parsed_rules_are_well_formed content rule).
  change (parseInstructions content) with [rule]. by apply list_elem_of_singleton.
Defined.

(** *** Formatting and parsing *)

Lemma trimEnd_app_keep p t :
  ReviewEngine.trimEnd t = t → t ≠ EmptyString →
  ReviewEngine.trimEnd (p +:+ t) = p +:+ t.
Proof.
  intros Ht Hne. induction p as [|c p IH]; [done|].
  rewrite JsonFacts.append_cons. cbn [ReviewEngine.trimEnd]. rewrite IH.
  destruct (p +:+ t) as [|x r] eqn:E; [|done].
  destruct p; [by rewrite JsonFacts.append_nil_l in E | done].
Qed.

(** The line [getUserInstructionsText] writes for a rule is read back as
    that rule. *)
Lemma parseInstructionLine_ruleLine rule :
  wellFormedRule rule → parseInstructionLine [] (ruleLine rule) = [rule].
Proof.
  destruct rule as [sev txt]. intros (Hsev & Hne & [Hstart Hend] & _).
  cbn [severity text] in *.
  assert (Htrim : ReviewEngine.trim txt = txt).
  { unfold ReviewEngine.trim. by rewrite Hstart. }
  assert (Hfalsy : Js.falsy_string txt = false) by by destruct txt.
  assert (Hkeep : ∀ prefix, ReviewEngine.trimEnd (prefix +:+ txt) = prefix +:+ txt).
  { intros prefix. by apply trimEnd_app_keep. }
  destruct Hsev as [->|[->| ->]].
  - change (ruleLine (mkRule "high" txt)) with ("- [HIGH] " +:+ txt).
    unfold parseInstructionLine, ReviewEngine.trim.
    change (ReviewEngine.trimStart ("- [HIGH] " +:+ txt)) with ("- [HIGH] " +:+ txt).
    rewrite Hkeep.
    match goal with |- ?lhs = _ =>
      change lhs
        with (if Js.falsy_string (ReviewEngine.trimEnd (ReviewEngine.trimStart
                                    (ReviewEngine.trimStart txt))) then []
              else [mkRule "high" (ReviewEngine.trimEnd (ReviewEngine.trimStart
                                     (ReviewEngine.trimStart txt)))])
    end.
    by rewrite !Hstart, Hend, Hfalsy.
  - change (ruleLine (mkRule "medium" txt)) with ("- [MEDIUM] " +:+ txt).
    unfold parseInstructionLine, ReviewEngine.trim.
    change (ReviewEngine.trimStart ("- [MEDIUM] " +:+ txt)) with ("- [MEDIUM] " +:+ txt).
    rewrite Hkeep.
    match goal with |- ?lhs = _ =>
      change lhs
        with (if Js.falsy_string (ReviewEngine.trimEnd (ReviewEngine.trimStart
                                    (ReviewEngine.trimStart txt))) then []
              else [mkRule "medium" (ReviewEngine.trimEnd (ReviewEngine.trimStart
                                       (ReviewEngine.trimStart txt)))])
    end.
    by rewrite !Hstart, Hend, Hfalsy.
  - change (ruleLine (mkRule "low" txt)) with ("- [LOW] " +:+ txt).
    unfold parseInstructionLine, ReviewEngine.trim.
    change (ReviewEngine.trimStart ("- [LOW] " +:+ txt)) with ("- [LOW] " +:+ txt).
    rewrite Hkeep.
    match goal with |- ?lhs = _ =>
      change lhs
        with (if Js.falsy_string (ReviewEngine.trimEnd (ReviewEngine.trimStart
                                    (ReviewEngine.trimStart txt))) then []
              else [mkRule "low" (ReviewEngine.trimEnd (ReviewEngine.trimStart
                                    (ReviewEngine.trimStart txt)))])
    end.
    by rewrite !Hstart, Hend, Hfalsy.
Qed.

Lemma parseInstructions_ruleLine rule :
  wellFormedRule rule → parseInstructions (ruleLine rule) = [rule].
Proof.
  intros Hrule. unfold parseInstructions.
  rewrite split_without_separator; [by apply parseInstructionLine_ruleLine|].
  destruct rule as [sev txt]. destruct Hrule as (Hsev & _ & _ & Hlf).
  cbn [severity text] in *. by destruct Hsev as [->|[->| ->]].
Qed.

Lemma parseInstructions_ruleLines rules :
  Forall wellFormedRule rules →
  parseInstructions (join ReviewEngine.nl (map ruleLine rules)) = rules.
Proof.
  induction 1 as [|rule rules Hrule Hrules IH]; [done|].
  destruct rules as [|rule2 rules]; [by apply parseInstructions_ruleLine|].
  cbn [map] in *. rewrite join_cons.
  change (ReviewEngine.nl +:+ ?s) with (String lf s).
  by rewrite parseInstructions_app, IH, parseInstructions_ruleLine.
Qed.

(** X19. Formatting and parsing. The lines [getUserInstructionsText] writes for
    a list of well-formed rules are read back by [parseInstructions] as
    that list; the whole prompt section is read back as the list preceded
    by its heading, taken for a rule of medium severity. *)
Theorem formatted_rules_parse_back rules :
  Forall wellFormedRule rules →
  parseInstructions (join ReviewEngine.nl (map ruleLine rules)) = rules ∧
  (rules ≠ [] →
   parseInstructions (getUserInstructionsText rules) =
     mkRule "medium"
       "Additional project-specific validation rules (from agent-watch-instructions.md):"
     :: rules).
Proof.
  intros Hrules. pose proof (parseInstructions_ruleLines rules Hrules) as Hback.
  split; [done|]. intros Hne. destruct rules as [|rule rules]; [done|].
  unfold getUserInstructionsText, rulesHeader.
  set (lines := join ReviewEngine.nl (map ruleLine (rule :: rules))) in *.
  change ((ReviewEngine.nl +:+ ?h +:+ ReviewEngine.nl) +:+ lines)
    with (EmptyString +:+ String lf (h +:+ String lf lines)).
  rewrite !parseInstructions_app, Hback. reflexivity.
Qed.

Lemma formatted_rules_parse_back_witness :
  let rules := [mkRule "high" "Flag changes to auth logic";
                mkRule "low" "Note config file changes"] in
  parseInstructions (join ReviewEngine.nl (map ruleLine rules)) = rules.
Proof.
  intros rules.
  assert (Hrules : Forall wellFormedRule rules).
  { apply Forall_cons; split; [|apply Forall_cons; split; [|apply Forall_nil_2]].
    - split_and!; [by left | discriminate | split; reflexivity | reflexivity].
    - split_and!; [by right; right | discriminate | split; reflexivity | reflexivity]. }
  exact (proj1 (formatted_rules_parse_back rules Hrules)).
Defined.

(** *** Front matter *)

Section FrontMatter.

Context `{Numbers}.

Lemma parseYamlLine_validated config rawLine :
  (∀ v, minWaitTimeMs config = Some v → isNaN v = false ∧ nonNegative v = true) →
  (∀ m, model config = Some m → m ≠ EmptyString) →
  (∀ v, minWaitTimeMs (parseYamlLine config rawLine) = Some v →
        isNaN v = false ∧ nonNegative v = true) ∧
  (∀ m, model (parseYamlLine config rawLine) = Some m → m ≠ EmptyString).
Proof.
  intros Hwait Hmodel. unfold parseYamlLine.
  destruct (Js.falsy_string _ || _); [done|].
  destruct (ReviewEngine.findSub ":" _) as [[beforeColon afterColon]|]; [|done].
  destruct (String.eqb _ "model" && _) eqn:Emodel.
  - cbn [minWaitTimeMs model]. split; [done|]. intros m [= <-].
    apply andb_true_iff in Emodel as [_ Hvalue]. apply negb_true_iff in Hvalue.
    by apply falsy_string_false.
  - destruct (String.eqb _ "minWaitTimeMs" && _); [|done].
    destruct (negb (isNaN _) && nonNegative _) eqn:Eok; [|done].
    cbn [minWaitTimeMs model]. split; [|done]. intros v [= <-].
    apply andb_true_iff in Eok as [Hnan Hpos]. by apply negb_true_iff in Hnan.
Qed.

(** X20. The configuration read from a front matter block is validated: a model
    name is never the empty string, and a minimum wait time is never NaN
    and never negative, whatever the block holds. *)
Theorem front_matter_values_are_validated yaml :
  (∀ v, minWaitTimeMs (parseYamlBlock yaml) = Some v →
        isNaN v = false ∧ nonNegative v = true) ∧
  (∀ m, model (parseYamlBlock yaml) = Some m → m ≠ EmptyString).
Proof.
  unfold parseYamlBlock.
  assert (Hinit : (∀ v, minWaitTimeMs emptyConfig = Some v →
                        isNaN v = false ∧ nonNegative v = true) ∧
                  (∀ m, model emptyConfig = Some m → m ≠ EmptyString)) by done.
  revert Hinit. generalize emptyConfig.
  induction (split lf yaml) as [|line lines IH]; intros config Hconfig; [done|].
  cbn [fold_left]. apply IH. destruct Hconfig. by apply parseYamlLine_validated.
Qed.

Lemma dropChars_suffix n : ∀ s, isSuffix (Js.dropChars n s) s.
Proof.
  induction n as [|n IH]; intros s; [by exists EmptyString|].
  destruct s as [|c s]; [by exists EmptyString|]. cbn [Js.dropChars].
  destruct (IH s) as [before Hs]. exists (String c before).
  by rewrite JsonFacts.append_cons, <- Hs.
Qed.

Lemma dropOptional_suffix c s : isSuffix (dropOptional c s) s.
Proof.
  destruct s as [|d r]; [by exists EmptyString|]. cbn [dropOptional].
  destruct (Ascii.eqb d c); [by exists (str1 d) | by exists EmptyString].
Qed.

Lemma isSuffix_trans a b c : isSuffix a b → isSuffix b c → isSuffix a c.
Proof.
  intros [p ->] [q ->]. exists (q +:+ p). by rewrite JsonFacts.append_assoc.
Qed.

Lemma isSuffix_cons c a b : isSuffix a b → isSuffix a (String c b).
Proof. intros [p ->]. by exists (String c p). Qed.

Lemma findClosingDelimiter_suffix : ∀ s before after,
  findClosingDelimiter s = Some (before, after) → isSuffix after s.
Proof.
  induction s as [|c s IH]; intros before after.
  - cbn [findClosingDelimiter Js.startsWith]. done.
  - cbn [findClosingDelimiter].
    destruct (Js.startsWith _ (String c s));
      [intros [= _ <-]; exact (dropChars_suffix 5 (String c s))|].
    destruct (Js.startsWith _ (String c s));
      [intros [= _ <-]; exact (dropChars_suffix 4 (String c s))|].
    destruct (findClosingDelimiter s) as [[b a]|]; [|done].
    intros [= _ <-]. apply isSuffix_cons. by apply (IH b a).
Qed.

(** X21. The body [extractFrontMatter] returns is always the end of the content,
    and a content that does not open with three dashes is returned whole,
    with an empty configuration. *)
Theorem front_matter_body_is_a_suffix content :
  isSuffix (extractFrontMatter content).1 content ∧
  (Js.startsWith "---" content = false →
   extractFrontMatter content = (content, emptyConfig)).
Proof.
  assert (Hrefl : isSuffix content content) by by exists EmptyString.
  unfold extractFrontMatter. split; [|by intros ->].
  destruct (Js.startsWith "---" content); [|done].
  pose proof (isSuffix_trans _ _ _ (dropOptional_suffix cr (Js.dropChars 3 content))
                (dropChars_suffix 3 content)) as Hopen.
  destruct (dropOptional cr (Js.dropChars 3 content)) as [|c afterOpen]; [done|].
  destruct (Ascii.eqb c lf); [|done].
  destruct (findClosingDelimiter afterOpen) as [[yamlBlock afterClose]|] eqn:Eclose; [|done].
  cbn [fst]. apply findClosingDelimiter_suffix in Eclose.
  eapply isSuffix_trans; [apply dropOptional_suffix|].
  eapply isSuffix_trans; [apply dropOptional_suffix|].
  eapply isSuffix_trans; [exact Eclose|].
  eapply isSuffix_trans; [|exact Hopen]. by exists (str1 c).
Qed.

End FrontMatter.

Lemma front_matter_values_are_validated_witness :
  let yaml := "model: gpt-4o" +:+ str1 lf +:+ "minWaitTimeMs: 15000" in
  minWaitTimeMs (parseYamlBlock yaml) = Some (Some (Js.int 15000)) ∧
  isNaN (Some (Js.int 15000)) = false ∧ nonNegative (Some (Js.int 15000)) = true.
Proof.
  intros yaml. split; [reflexivity|].
  exact (proj1 (front_matter_values_are_validated yaml) (Some (Js.int 15000)) eq_refl).
Defined.

Lemma front_matter_body_is_a_suffix_witness :
  let content := "# Rules" +:+ str1 lf +:+ "---" +:+ str1 lf +:+ "model: gpt-4o" in
  extractFrontMatter content = (content, emptyConfig).
Proof.
  intros content. exact (proj2 (front_matter_body_is_a_suffix content) eq_refl).
Defined.

Ltac split_chars :=
  repeat match goal with
         | |- context [Ascii.eqb ?a ?b] =>
             is_var b; destruct (Ascii.eqb a b) eqn:?; cbn [andb]
         end.

Lemma lf_is_no_dash : Ascii.eqb "-" lf = false.
Proof. reflexivity. Qed.

Lemma cr_is_no_lf : Ascii.eqb cr lf = false.
Proof. reflexivity. Qed.

(** A delimiter does not begin inside a text that holds none and does not
    end with CR, when a closing delimiter is put after it. *)
Lemma startsWith_lf_dashes_app c s t :
  Js.startsWith (String lf "---") (String c s) = false →
  Js.startsWith (String lf "---") (String c s +:+ String lf t) = false.
Proof.
  destruct s as [|c2 [|c3 [|c4 s]]];
    rewrite ?JsonFacts.append_cons, ?JsonFacts.append_nil_l;
    cbn [Js.startsWith]; rewrite ?lf_is_no_dash; split_chars;
    rewrite ?andb_false_r; done.
Qed.

Lemma startsWith_cr_lf_dashes_app c s t :
  Js.startsWith (String cr (String lf "---")) (String c s) = false →
  lastIs cr (String c s) = false →
  Js.startsWith (String cr (String lf "---")) (String c s +:+ String lf t) = false.
Proof.
  destruct s as [|c2 [|c3 [|c4 [|c5 s]]]];
    rewrite ?JsonFacts.append_cons, ?JsonFacts.append_nil_l;
    cbn [Js.startsWith lastIs]; rewrite ?lf_is_no_dash.
  - rewrite Ascii.eqb_sym. intros _ ->. done.
  - split_chars; rewrite ?andb_false_r; done.
  - split_chars; rewrite ?andb_false_r; done.
  - split_chars; rewrite ?andb_false_r; done.
  - split_chars; rewrite ?andb_false_r; done.
Qed.

Lemma lastIs_tail c x s : lastIs c (String x s) = false → lastIs c s = false.
Proof. by destruct s. Qed.

Section Closing.

Context `{Numbers}.

Lemma findClosingDelimiter_closing rest : ∀ yaml,
  findClosingDelimiter yaml = None → lastIs cr yaml = false →
  findClosingDelimiter (yaml +:+ String lf ("---" +:+ rest)) = Some (yaml, rest).
Proof.
  induction yaml as [|c yaml IH]; [done|].
  cbn [findClosingDelimiter].
  destruct (Js.startsWith (String cr (String lf "---")) (String c yaml)) eqn:E1; [done|].
  destruct (Js.startsWith (String lf "---") (String c yaml)) eqn:E2; [done|].
  destruct (findClosingDelimiter yaml) as [[b a]|] eqn:E3; [done|].
  intros _ Hlast.
  pose proof (startsWith_cr_lf_dashes_app c yaml ("---" +:+ rest) E1 Hlast) as E1'.
  pose proof (startsWith_lf_dashes_app c yaml ("---" +:+ rest) E2) as E2'.
  change (String c yaml +:+ String lf ("---" +:+ rest))
    with (String c (yaml +:+ String lf ("---" +:+ rest))) in *.
  cbn [findClosingDelimiter].
  rewrite E1', E2', IH; [done | done | by apply lastIs_tail in Hlast].
Qed.

(** X22. The front matter is split off at the first closing delimiter. When the
    block between the delimiters holds no closing delimiter itself and does
    not end with CR, a document made of the block and a body is taken apart
    into that body and the configuration of that block. *)
Theorem front_matter_is_split_off yaml body :
  findClosingDelimiter yaml = None → lastIs cr yaml = false →
  extractFrontMatter (withFrontMatter yaml body) = (body, parseYamlBlock yaml).
Proof.
  intros Hnone Hlast.
  assert (Hopen : extractFrontMatter (withFrontMatter yaml body) =
            match findClosingDelimiter (yaml +:+ String lf ("---" +:+ String lf body)) with
            | Some (yamlBlock, afterClose) =>
                (dropOptional lf (dropOptional cr afterClose), parseYamlBlock yamlBlock)
            | None => (withFrontMatter yaml body, emptyConfig)
            end) by reflexivity.
  rewrite Hopen, (findClosingDelimiter_closing _ _ Hnone Hlast). reflexivity.
Qed.

End Closing.

Lemma front_matter_is_split_off_witness :
  let yaml := "model: gpt-4o" +:+ str1 lf +:+ "minWaitTimeMs: 30000" in
  let body := "- [medium] A rule" in
  extractFrontMatter (withFrontMatter yaml body) =
    (body, mkInstructionsConfig (Some "gpt-4o") (Some (Some (Js.int 30000)))).
Proof.
  intros yaml body.
  rewrite (front_matter_is_split_off yaml body eq_refl eq_refl). reflexivity.
Defined.

End LoaderFacts.

(** * Properties of the code search *)

Module SearchFacts.

Import Json JsText WorkspaceTools SearchSpec.

Lemma take_take_app {A} (n : nat) (a b : list A) :
  take n (take n a ++ b) = take n (a ++ b).
Proof.
  destruct (decide (n ≤ length a)%nat) as [Hle|Hgt].
  - rewrite (take_app_le a b) by done.
    rewrite take_app_le by (rewrite length_take; lia).
    apply take_idemp.
  - by rewrite (take_ge a) by lia.
Qed.

(** The inner loop, entered with room left, gives the first
    [MAX_SEARCH_RESULTS] of what it had and what the lines add. *)
Lemma scanLines_spec test relPath lines : ∀ i matches,
  (length matches < MAX_SEARCH_RESULTS)%nat →
  scanLines test relPath lines i matches =
  take MAX_SEARCH_RESULTS (matches ++ lineMatches test relPath lines i).
Proof.
  induction lines as [|line rest IH]; intros i matches Hlen.
  { cbn [scanLines lineMatches]. rewrite app_nil_r. by rewrite take_ge by lia. }
  cbn [scanLines lineMatches]. destruct (test line).
  - destruct (MAX_SEARCH_RESULTS <=? length (matches ++ [matchLine relPath i line]))%nat
      eqn:Efull.
    + apply Nat.leb_le in Efull. rewrite length_app in Efull. cbn [length] in Efull.
      rewrite app_assoc.
      rewrite take_app_le by (rewrite length_app; cbn [length]; lia).
      rewrite take_ge; [done|]. rewrite length_app. cbn [length]. lia.
    + apply Nat.leb_gt in Efull. rewrite IH by done. by rewrite <- app_assoc.
  - by rewrite IH.
Qed.

Lemma scanFiles_spec test files : ∀ matches,
  (length matches ≤ MAX_SEARCH_RESULTS)%nat →
  scanFiles test files matches =
  take MAX_SEARCH_RESULTS (matches ++ allMatches test files).
Proof.
  induction files as [|[relPath outcome] rest IH]; intros matches Hlen.
  { cbn [scanFiles allMatches flat_map]. rewrite app_nil_r. by rewrite take_ge by lia. }
  cbn [scanFiles]. destruct (MAX_SEARCH_RESULTS <=? length matches)%nat eqn:Efull.
  { apply Nat.leb_le in Efull. rewrite take_app_le by lia. by rewrite take_ge by lia. }
  apply Nat.leb_gt in Efull. unfold allMatches. cbn [flat_map fst snd].
  fold (allMatches test rest). destruct outcome as [content|error].
  - rewrite scanLines_spec by done.
    rewrite IH by (rewrite length_take; lia).
    by rewrite take_take_app, <- app_assoc.
  - by rewrite IH by lia.
Qed.

(** X23. The search reports the first [MAX_SEARCH_RESULTS] matching lines, in
    the order of the files and of their lines, and never more; files that
    cannot be read are passed over. A query that is no valid pattern is
    searched for as plain text. *)
Theorem searchCode_reports_first_matches host query include test files :
  query ≠ EmptyString →
  searchesWith host query test →
  findFiles host (match include with Some g => g | None => defaultInclude end)
    "**/node_modules/**" = ReviewEngine.Ok files →
  searchCode host query include =
    ReviewEngine.Ok (searchReport query (take 30 (allMatches test files))) ∧
  (length (scanFiles test files []) ≤ 30)%nat.
Proof.
  intros Hq Htest Hfiles.
  assert (Hscan : scanFiles test files [] = take 30 (allMatches test files)).
  { by rewrite scanFiles_spec by (cbn; unfold MAX_SEARCH_RESULTS; lia). }
  split; [|rewrite Hscan, length_take; lia].
  unfold searchCode. destruct (Js.falsy_string query) eqn:Ef; [by destruct query|].
  assert (Hregex : match regExp host query with
                   | ReviewEngine.Ok test => ReviewEngine.Ok test
                   | ReviewEngine.Throw _ => regExp host (escapeRegExp query)
                   end = ReviewEngine.Ok test).
  { destruct Htest as [->|[[error ->] ->]]; done. }
  by rewrite Hregex, Hfiles, Hscan.
Qed.

Lemma searchCode_reports_first_matches_witness :
  let test := fun line => match ReviewEngine.findSub "login" line with
                          | Some _ => true
                          | None => false
                          end in
  let files := [("src/a.ts", ReviewEngine.Ok "function login() {}");
                ("src/locked.ts", ReviewEngine.Throw "EACCES");
                ("src/b.ts", ReviewEngine.Ok ("logout();" +:+ ReviewEngine.nl +:+ "  login();"))] in
  let host := mkSearchHost (fun _ _ => ReviewEngine.Ok files)
                (fun _ => ReviewEngine.Ok test) in
  searchCode host "login" None =
    ReviewEngine.Ok ("Found 2 match(es) for 'login':" +:+ ReviewEngine.nl +:+
                     "src/a.ts:1: function login() {}" +:+ ReviewEngine.nl +:+
                     "src/b.ts:2: login();").
Proof.
  intros test files host.
  destruct (searchCode_reports_first_matches host "login" None test files
              ltac:(discriminate) (or_introl eq_refl) eq_refl) as [Hsearch _].
  rewrite Hsearch. reflexivity.
Defined.

End SearchFacts.
